(** * physicsEngine.js: scene construction, constraints and the conveyor hook

    A shallow embedding of [frontend/src/utils/physicsEngine.js].

    Numbers.  JavaScript numbers are modelled as exact rationals [Q]; a value
    that is [undefined] (or would be [NaN]) is [None] in an [option].
    Objects with identity (Matter bodies and constraints) live in a heap and
    are referred to by their index, so that [===] on bodies is equality of
    indices.  [conveyorParams] (a JS [Map]) is a finite map keyed by strings.
    The name table [bodiesMap] is a plain JS object used as a map: its own
    properties are a finite map keyed by strings, and what is not an own
    property is looked up in its prototype, so that the keys every object
    inherits ([constructor], [toString], ...) find something that is no
    body.  Code that can throw returns a [Completion]. *)

From Stdlib Require Import Ascii QArith Qabs Qround Lqa.
From stdpp Require Import gmap strings list pretty.

Local Open Scope Q_scope.

(** ** JavaScript operators on numbers *)

(** [Math.round]: nearest integer, halves towards positive infinity. *)
Definition Math_round (q : Q) : Q := inject_Z (Qfloor (q + (1 # 2))).

(** [Math.floor]. *)
Definition Math_floor (q : Q) : Q := inject_Z (Qfloor q).

Definition Math_max (a b : Q) : Q := if Qle_bool a b then b else a.
Definition Math_min (a b : Q) : Q := if Qle_bool a b then a else b.

(** [a > b] on numbers. *)
Definition gt (a b : Q) : bool := negb (Qle_bool a b).

(** A number is falsy exactly when it is zero. *)
Definition falsy (q : Q) : bool := Qeq_bool q 0.

(** [v || d] where [v] is a number or [undefined]. *)
Definition or_else (v : option Q) (d : Q) : Q :=
  match v with
  | Some q => if falsy q then d else q
  | None => d
  end.

(** [v ?? d]. *)
Definition nullish (v : option Q) (d : Q) : Q :=
  match v with
  | Some q => q
  | None => d
  end.

(** ** Completions

    A computation returns normally or throws.  [Unmodelled] marks the one
    place where the embedding does not follow the program: a lookup in the
    name table that goes through a body installed as its prototype (see
    [getBody]), whose outcome depends on the properties the backend gives a
    body. *)

Inductive JsError := ReferenceError (identifier : string) | TypeError.

Inductive Completion (A : Type) :=
| Normal (a : A)
| Throw (e : JsError)
| Unmodelled.

Arguments Normal {A} a.
Arguments Throw {A} e.
Arguments Unmodelled {A}.

#[export] Instance Completion_ret : MRet Completion := fun A a => Normal a.

#[export] Instance Completion_bind : MBind Completion :=
  fun A B f m =>
    match m with
    | Normal a => f a
    | Throw e => Throw e
    | Unmodelled => Unmodelled
    end.

(** [forEach] with a body that can throw: the first abrupt completion ends
    the loop. *)
Fixpoint forEach {A S : Type} (f : S -> A -> Completion S) (l : list A) (st : S)
    : Completion S :=
  match l with
  | [] => Normal st
  | a :: l' => st' ← f st a; forEach f l' st'
  end.

(** ** Points and polygons *)

Record Point := Pt { x : Q; y : Q }.

Definition origin : Point := Pt 0 0.

(** [points[i]] for an index in range. *)
Definition at_ (points : list Point) (i : nat) : Point := nth i points origin.

(** The loop of [polygonArea]: the accumulated shoelace sum. *)
Definition shoelaceSum (points : list Point) : Q :=
  fold_left
    (fun area i =>
       let j := ((i + 1) mod length points)%nat in
       area + (x (at_ points i) * y (at_ points j)
               - x (at_ points j) * y (at_ points i)))
    (seq 0 (length points)) 0.

Definition polygonArea (points : list Point) : Q :=
  Qabs (shoelaceSum points) / 2.

Definition calculateCentroid (points : list Point) : Point :=
  match points with
  | [] => Pt 0 0
  | _ =>
      let sum :=
        fold_left (fun acc p => Pt (x acc + x p) (y acc + y p)) points (Pt 0 0) in
      Pt (x sum / inject_Z (Z.of_nat (length points)))
         (y sum / inject_Z (Z.of_nat (length points)))
  end.

(** A triangle is an array of three points. *)
Definition Triangle := list Point.

Definition decomposeToTriangleFan (points : list Point) : list Triangle :=
  if (length points <? 3)%nat then []
  else
    let centroid := calculateCentroid points in
    map (fun i =>
           let p1 := at_ points i in
           let p2 := at_ points ((i + 1) mod length points) in
           [Pt (x centroid) (y centroid); Pt (x p1) (y p1); Pt (x p2) (y p2)])
        (seq 0 (length points)).

Definition triangleCentroid (triangle : Triangle) : Point :=
  Pt ((x (at_ triangle 0) + x (at_ triangle 1) + x (at_ triangle 2)) / 3)
     ((y (at_ triangle 0) + y (at_ triangle 1) + y (at_ triangle 2)) / 3).

(** ** Contour sanitizing *)

(** [Math.sqrt(dx ** 2 + dy ** 2) > 1]; on exact numbers the square root
    exceeds 1 exactly when the squared distance does. *)
Definition dist_gt_1 (prev curr : Point) : bool :=
  gt ((x curr - x prev) * (x curr - x prev)
      + (y curr - y prev) * (y curr - y prev)) 1.

(** The loop of [preprocessContour] from index 1 on: [last] is
    [unique[unique.length - 1]], the result is what the loop pushes. *)
Fixpoint dedupLoop (last : Point) (rest : list Point) : list Point :=
  match rest with
  | [] => []
  | curr :: rest' =>
      if dist_gt_1 last curr then curr :: dedupLoop curr rest'
      else dedupLoop last rest'
  end.

(** [unique] as it stands when the loop ends. *)
Definition uniquePoints (points : list Point) : list Point :=
  match points with
  | [] => []
  | p0 :: rest => p0 :: dedupLoop p0 rest
  end.

Definition preprocessContour (points : list Point) : list Point :=
  if (length points <? 3)%nat then points
  else
    let unique := uniquePoints points in
    if (3 <=? length unique)%nat then unique else points.

(** ** The backend's convex hull

    [Matter.Vertices.hull] is the backend's (matter-js): Andrew's monotone
    chain over the vertices sorted by [x], then [y].  A chain is kept here
    with its last vertex first. *)

Definition cross3 (a b c : Point) : Q :=
  (x b - x a) * (y c - y a) - (y b - y a) * (x c - x a).

(** The comparator of the sort: [dx !== 0 ? dx : dy] is negative or zero. *)
Definition vertex_le (a b : Point) : bool :=
  if Qeq_bool (x a - x b) 0 then Qle_bool (y a - y b) 0
  else Qle_bool (x a - x b) 0.

Fixpoint insertVertex (v : Point) (sorted : list Point) : list Point :=
  match sorted with
  | [] => [v]
  | w :: rest => if vertex_le v w then v :: sorted else w :: insertVertex v rest
  end.

Definition sortVertices (vertices : list Point) : list Point :=
  fold_right insertVertex [] vertices.

(** The [while] loop: pop while the last two vertices and [vertex] do not
    turn left. *)
Fixpoint popWhile (chain : list Point) (vertex : Point) : list Point :=
  match chain with
  | last :: ((before :: _) as rest) =>
      if Qle_bool (cross3 before last vertex) 0 then popWhile rest vertex
      else chain
  | _ => chain
  end.

Definition buildChain (vertices : list Point) : list Point :=
  fold_left (fun chain vertex => vertex :: popWhile chain vertex) vertices [].

Definition Vertices_hull (vertices : list Point) : list Point :=
  let sorted := sortVertices vertices in
  let lower := rev (buildChain sorted) in
  let upper := rev (buildChain (rev sorted)) in
  removelast upper ++ removelast lower.

(** [toConvexHull]: the backend's hull with rounded coordinates
    ([Vertices.create] copies the coordinates). *)
Definition toConvexHull (points : list Point) : list Point :=
  map (fun v => Pt (Math_round (x v)) (Math_round (y v))) (Vertices_hull points).

(** ** On or inside a convex polygon

    The vertices are given in order.  A point is on or inside the polygon
    when it is on the same side of every edge and within the bounding box
    (the box settles the polygons without area). *)

Definition edges (poly : list Point) : list (Point * Point) :=
  match poly with
  | [] => []
  | v0 :: rest => combine poly (rest ++ [v0])
  end.

Definition inBox (p : Point) (poly : list Point) : bool :=
  existsb (fun v => Qle_bool (x v) (x p)) poly
  && existsb (fun v => Qle_bool (x p) (x v)) poly
  && existsb (fun v => Qle_bool (y v) (y p)) poly
  && existsb (fun v => Qle_bool (y p) (y v)) poly.

Definition insideOrOn (p : Point) (poly : list Point) : bool :=
  inBox p poly
  && (forallb (fun e => Qle_bool 0 (cross3 (fst e) (snd e) p)) (edges poly)
      || forallb (fun e => Qle_bool (cross3 (fst e) (snd e) p) 0) (edges poly)).

(** ** The scene description handed to [runSimulation] *)

(** A property meant to hold a name: absent ([undefined]), [null] or a
    string. *)
Inductive Name := Absent | Null | Named (s : string).

(** [String(v)], which is also how [v] is turned into a property key and
    how a template literal prints it. *)
Definition toString (v : Name) : string :=
  match v with
  | Absent => "undefined"
  | Null => "null"
  | Named s => s
  end.

(** What a lookup in the name table finds: nothing ([undefined]), a body
    (its heap index), or something inherited from [Object.prototype], which
    is a function or an object: truthy, and no body. *)
Inductive Value := Undefined | IsBody (id : nat) | Inherited (key : string).

(** Truthiness, [v ? _ : _] and [!v]. *)
Definition truthy (v : Value) : bool :=
  match v with
  | Undefined => false
  | _ => true
  end.

Module Scene.

(** [obj.parameters]; an absent field is [None]. *)
Record Parameters := {
  mass_kg : option Q;
  restitution : option Q;
  friction_coefficient : option Q;
  air_drag : option Q;
  initial_velocity_px_s : option Q;
  initial_velocity_m_s : option Q;
  initial_velocity_y_px_s : option Q;
  initial_angular_velocity_rad_s : option Q;
  conveyor_speed : option Q
}.

(** An element of [objects].  [contour] is [None] when it is not an
    array; [is_concave] is [obj.is_concave === true]. *)
Record Object := {
  name : option string;
  role : string;
  contour : option (list Point);
  is_concave : bool;
  sprite_data_url : option string;
  element_type : option string;
  parameters : Parameters
}.

(** An element of [constraints]. *)
Record Constraint := {
  bodyName : Name;
  pivotName : Name;
  pivotPoint : option Point;
  secondPivotName : Name;
  secondPivotPoint : option Point;
  springType : option string;
  constraintType : option string;
  stiffness : option Q;
  damping : option Q;
  length_ : option Q;
  springLength : option Q
}.

(** [getBoundingClientRect()]. *)
Record Rect := { left_ : Q; top_ : Q; width : Q; height : Q }.

Record Size := { w : Q; h : Q }.

End Scene.

(** ** Backend objects (matter-js), as far as the engine file sets them *)

Module Matter.

(** Where [Bodies.fromVertices] is asked to put the body: at
    [Vertices.centre(verts)], computed by the backend, or at a point
    computed by the caller. *)
Inductive Position := VerticesCentre | At (p : Point).

Inductive Shape :=
| FromVertices (position : Position) (verts : list Point)
| Rectangle (cx cy w h : Q).

Inductive Render :=
| Sprite (texture : string) (xScale yScale : Q)
| FillStyle (color : string)
| Invisible.

Record Body := {
  shape : Shape;
  label : string;
  isStatic : bool;
  friction : Q;
  frictionStatic : Q;
  frictionAir : Q;
  restitution : Q;
  mass : option Q;
  density : Q;
  velocity : Point;
  angularVelocity : Q;
  render : Render
}.

Record ConstraintRender := {
  visible : bool;
  lineWidth : option Q;
  strokeStyle : option string;
  type_ : option string
}.

(** A constraint of the backend with the options [Constraint.create] was
    given; bodies are heap indices. *)
Record Constraint := {
  bodyA : option nat;
  pointA : option Point;
  bodyB : option nat;
  pointB : option Point;
  length_ : option Q;
  stiffness : Q;
  damping : option Q;
  crender : ConstraintRender
}.

(** The options as the caller writes them: an end is whatever the name
    table gave. *)
Record ConstraintOptions := {
  o_bodyA : Value;
  o_pointA : option Point;
  o_bodyB : Value;
  o_pointB : option Point;
  o_length : option Q;
  o_stiffness : Q;
  o_damping : option Q;
  o_render : ConstraintRender
}.

(** [constraint.bodyA ? Vector.add(constraint.bodyA.position, constraint.pointA)
      : constraint.pointA]
    in [Constraint.create]: an end that is truthy and no body has no
    [position], and reading [x] of [undefined] is a [TypeError]. *)
Definition endBody (v : Value) : Completion (option nat) :=
  match v with
  | Undefined => Normal None
  | IsBody id => Normal (Some id)
  | Inherited _ => Throw TypeError
  end.

(** [Constraint.create(options)]. *)
Definition Constraint_create (o : ConstraintOptions) : Completion Constraint :=
  a ← endBody (o_bodyA o);
  b ← endBody (o_bodyB o);
  Normal {| bodyA := a; pointA := o_pointA o; bodyB := b; pointB := o_pointB o;
            length_ := o_length o; stiffness := o_stiffness o;
            damping := o_damping o; crender := o_render o |}.

Definition setVelocity (body : Body) (v : Point) : Body :=
  {| shape := shape body; label := label body; isStatic := isStatic body;
     friction := friction body; frictionStatic := frictionStatic body;
     frictionAir := frictionAir body; restitution := restitution body;
     mass := mass body; density := density body;
     velocity := v; angularVelocity := angularVelocity body;
     render := render body |}.

Definition setAngularVelocity (body : Body) (w : Q) : Body :=
  {| shape := shape body; label := label body; isStatic := isStatic body;
     friction := friction body; frictionStatic := frictionStatic body;
     frictionAir := frictionAir body; restitution := restitution body;
     mass := mass body; density := density body;
     velocity := velocity body; angularVelocity := w;
     render := render body |}.

Definition setDensity (body : Body) (d : Q) : Body :=
  {| shape := shape body; label := label body; isStatic := isStatic body;
     friction := friction body; frictionStatic := frictionStatic body;
     frictionAir := frictionAir body; restitution := restitution body;
     mass := mass body; density := d;
     velocity := velocity body; angularVelocity := angularVelocity body;
     render := render body |}.

(** [body.label = l]. *)
Definition setLabel (body : Body) (l : string) : Body :=
  {| shape := shape body; label := l; isStatic := isStatic body;
     friction := friction body; frictionStatic := frictionStatic body;
     frictionAir := frictionAir body; restitution := restitution body;
     mass := mass body; density := density body;
     velocity := velocity body; angularVelocity := angularVelocity body;
     render := render body |}.

End Matter.

(** ** The state of one simulation

    The engine with its world, the tables of [runSimulation], the listeners
    it registers, the pending timeouts and the console.  [bodiesMap] holds
    the own properties of the name table and [bodiesProto] the body that
    was installed as its prototype, if any (an assignment to [__proto__]
    installs a prototype and creates no property). *)

(** The closure registered on [collisionStart] for a launcher: the
    variables it captures. *)
Record Listener := {
  secondBody : Value;
  reducedBody : nat;
  springConstraint : nat
}.

(** A pending [setTimeout]: the delay and what the callback captured. *)
Record Timer := {
  delay : Q;
  t_reducedBody : nat;
  t_springConstraint : nat
}.

(** Where the renderer mounts its canvas: [container || document.body]. *)
Inductive Mount := Container | DocumentBody.

(** The canvas of the renderer, with the size and the offsets the engine
    file gives it. *)
Record Canvas := {
  element : Mount;
  canvasWidth : Q;
  canvasHeight : Q;
  offX : Q;
  offY : Q
}.

Record Sim := {
  canvas : option Canvas;
  bodies : list Matter.Body;
  joints : list Matter.Constraint;
  world_bodies : list nat;
  world_constraints : list nat;
  world_composites : list (string * list nat);
  bodiesMap : gmap string nat;
  bodiesProto : option nat;
  conveyorParams : gmap string Q;
  hasStatic : bool;
  collisionStart : list Listener;
  beforeUpdate : bool;
  timers : list Timer;
  console : list string;
  running : bool
}.

Definition emptySim : Sim :=
  {| canvas := None; bodies := []; joints := []; world_bodies := []; world_constraints := [];
     world_composites := []; bodiesMap := ∅; bodiesProto := None;
     conveyorParams := ∅;
     hasStatic := false; collisionStart := []; beforeUpdate := false;
     timers := []; console := []; running := false |}.

(** Field updates. *)

Definition upd_canvas (f : option Canvas -> option Canvas) (st : Sim) : Sim :=
  {| canvas := f (canvas st); bodies := bodies st; joints := joints st;
     world_bodies := world_bodies st;
     world_constraints := world_constraints st;
     world_composites := world_composites st; bodiesMap := bodiesMap st;
     bodiesProto := bodiesProto st;
     conveyorParams := conveyorParams st; hasStatic := hasStatic st;
     collisionStart := collisionStart st; beforeUpdate := beforeUpdate st;
     timers := timers st; console := console st; running := running st |}.

Definition upd_bodies (f : list Matter.Body -> list Matter.Body) (st : Sim) : Sim :=
  {| canvas := canvas st; bodies := f (bodies st); joints := joints st;
     world_bodies := world_bodies st;
     world_constraints := world_constraints st;
     world_composites := world_composites st; bodiesMap := bodiesMap st;
     bodiesProto := bodiesProto st;
     conveyorParams := conveyorParams st; hasStatic := hasStatic st;
     collisionStart := collisionStart st; beforeUpdate := beforeUpdate st;
     timers := timers st; console := console st; running := running st |}.

Definition upd_joints (f : list Matter.Constraint -> list Matter.Constraint) (st : Sim) : Sim :=
  {| canvas := canvas st; bodies := bodies st; joints := f (joints st);
     world_bodies := world_bodies st;
     world_constraints := world_constraints st;
     world_composites := world_composites st; bodiesMap := bodiesMap st;
     bodiesProto := bodiesProto st;
     conveyorParams := conveyorParams st; hasStatic := hasStatic st;
     collisionStart := collisionStart st; beforeUpdate := beforeUpdate st;
     timers := timers st; console := console st; running := running st |}.

Definition upd_world_bodies (f : list nat -> list nat) (st : Sim) : Sim :=
  {| canvas := canvas st; bodies := bodies st; joints := joints st;
     world_bodies := f (world_bodies st);
     world_constraints := world_constraints st;
     world_composites := world_composites st; bodiesMap := bodiesMap st;
     bodiesProto := bodiesProto st;
     conveyorParams := conveyorParams st; hasStatic := hasStatic st;
     collisionStart := collisionStart st; beforeUpdate := beforeUpdate st;
     timers := timers st; console := console st; running := running st |}.

Definition upd_world_constraints (f : list nat -> list nat) (st : Sim) : Sim :=
  {| canvas := canvas st; bodies := bodies st; joints := joints st;
     world_bodies := world_bodies st;
     world_constraints := f (world_constraints st);
     world_composites := world_composites st; bodiesMap := bodiesMap st;
     bodiesProto := bodiesProto st;
     conveyorParams := conveyorParams st; hasStatic := hasStatic st;
     collisionStart := collisionStart st; beforeUpdate := beforeUpdate st;
     timers := timers st; console := console st; running := running st |}.

Definition upd_world_composites (f : list (string * list nat) -> list (string * list nat)) (st : Sim) : Sim :=
  {| canvas := canvas st; bodies := bodies st; joints := joints st;
     world_bodies := world_bodies st;
     world_constraints := world_constraints st;
     world_composites := f (world_composites st); bodiesMap := bodiesMap st;
     bodiesProto := bodiesProto st;
     conveyorParams := conveyorParams st; hasStatic := hasStatic st;
     collisionStart := collisionStart st; beforeUpdate := beforeUpdate st;
     timers := timers st; console := console st; running := running st |}.

Definition upd_bodiesMap (f : gmap string nat -> gmap string nat) (st : Sim) : Sim :=
  {| canvas := canvas st; bodies := bodies st; joints := joints st;
     world_bodies := world_bodies st;
     world_constraints := world_constraints st;
     world_composites := world_composites st; bodiesMap := f (bodiesMap st);
     bodiesProto := bodiesProto st;
     conveyorParams := conveyorParams st; hasStatic := hasStatic st;
     collisionStart := collisionStart st; beforeUpdate := beforeUpdate st;
     timers := timers st; console := console st; running := running st |}.

Definition upd_bodiesProto (f : option nat -> option nat) (st : Sim) : Sim :=
  {| canvas := canvas st; bodies := bodies st; joints := joints st;
     world_bodies := world_bodies st;
     world_constraints := world_constraints st;
     world_composites := world_composites st; bodiesMap := bodiesMap st;
     bodiesProto := f (bodiesProto st);
     conveyorParams := conveyorParams st; hasStatic := hasStatic st;
     collisionStart := collisionStart st; beforeUpdate := beforeUpdate st;
     timers := timers st; console := console st; running := running st |}.

Definition upd_conveyorParams (f : gmap string Q -> gmap string Q) (st : Sim) : Sim :=
  {| canvas := canvas st; bodies := bodies st; joints := joints st;
     world_bodies := world_bodies st;
     world_constraints := world_constraints st;
     world_composites := world_composites st; bodiesMap := bodiesMap st;
     bodiesProto := bodiesProto st;
     conveyorParams := f (conveyorParams st); hasStatic := hasStatic st;
     collisionStart := collisionStart st; beforeUpdate := beforeUpdate st;
     timers := timers st; console := console st; running := running st |}.

Definition upd_hasStatic (f : bool -> bool) (st : Sim) : Sim :=
  {| canvas := canvas st; bodies := bodies st; joints := joints st;
     world_bodies := world_bodies st;
     world_constraints := world_constraints st;
     world_composites := world_composites st; bodiesMap := bodiesMap st;
     bodiesProto := bodiesProto st;
     conveyorParams := conveyorParams st; hasStatic := f (hasStatic st);
     collisionStart := collisionStart st; beforeUpdate := beforeUpdate st;
     timers := timers st; console := console st; running := running st |}.

Definition upd_collisionStart (f : list Listener -> list Listener) (st : Sim) : Sim :=
  {| canvas := canvas st; bodies := bodies st; joints := joints st;
     world_bodies := world_bodies st;
     world_constraints := world_constraints st;
     world_composites := world_composites st; bodiesMap := bodiesMap st;
     bodiesProto := bodiesProto st;
     conveyorParams := conveyorParams st; hasStatic := hasStatic st;
     collisionStart := f (collisionStart st);
     beforeUpdate := beforeUpdate st; timers := timers st;
     console := console st; running := running st |}.

Definition upd_beforeUpdate (f : bool -> bool) (st : Sim) : Sim :=
  {| canvas := canvas st; bodies := bodies st; joints := joints st;
     world_bodies := world_bodies st;
     world_constraints := world_constraints st;
     world_composites := world_composites st; bodiesMap := bodiesMap st;
     bodiesProto := bodiesProto st;
     conveyorParams := conveyorParams st; hasStatic := hasStatic st;
     collisionStart := collisionStart st;
     beforeUpdate := f (beforeUpdate st); timers := timers st;
     console := console st; running := running st |}.

Definition upd_timers (f : list Timer -> list Timer) (st : Sim) : Sim :=
  {| canvas := canvas st; bodies := bodies st; joints := joints st;
     world_bodies := world_bodies st;
     world_constraints := world_constraints st;
     world_composites := world_composites st; bodiesMap := bodiesMap st;
     bodiesProto := bodiesProto st;
     conveyorParams := conveyorParams st; hasStatic := hasStatic st;
     collisionStart := collisionStart st; beforeUpdate := beforeUpdate st;
     timers := f (timers st); console := console st;
     running := running st |}.

Definition upd_console (f : list string -> list string) (st : Sim) : Sim :=
  {| canvas := canvas st; bodies := bodies st; joints := joints st;
     world_bodies := world_bodies st;
     world_constraints := world_constraints st;
     world_composites := world_composites st; bodiesMap := bodiesMap st;
     bodiesProto := bodiesProto st;
     conveyorParams := conveyorParams st; hasStatic := hasStatic st;
     collisionStart := collisionStart st; beforeUpdate := beforeUpdate st;
     timers := timers st; console := f (console st);
     running := running st |}.

Definition upd_running (f : bool -> bool) (st : Sim) : Sim :=
  {| canvas := canvas st; bodies := bodies st; joints := joints st;
     world_bodies := world_bodies st;
     world_constraints := world_constraints st;
     world_composites := world_composites st; bodiesMap := bodiesMap st;
     bodiesProto := bodiesProto st;
     conveyorParams := conveyorParams st; hasStatic := hasStatic st;
     collisionStart := collisionStart st; beforeUpdate := beforeUpdate st;
     timers := timers st; console := console st;
     running := f (running st) |}.

(** ** Helpers of the embedding *)

(** [console.log] and [console.warn]. *)
Definition log (msg : string) : Sim -> Sim := upd_console (fun c => c ++ [msg]).

(** [s || d] on a string or [undefined]: the empty string is falsy. *)
Definition strOr (s : option string) (d : string) : string :=
  match s with
  | Some v => if bool_decide (v = "") then d else v
  | None => d
  end.

(** [String(s).toLowerCase()] on ASCII letters. *)
Definition lowerAscii (c : ascii) : ascii :=
  let n := nat_of_ascii c in
  if ((65 <=? n) && (n <=? 90))%nat then ascii_of_nat (n + 32) else c.

Fixpoint toLowerCase (s : string) : string :=
  match s with
  | EmptyString => EmptyString
  | String c s' => String (lowerAscii c) (toLowerCase s')
  end.

(** The properties every object inherits from [Object.prototype]. *)
Definition objectPrototype : list string :=
  [ "constructor"; "__defineGetter__"; "__defineSetter__"; "hasOwnProperty";
    "__lookupGetter__"; "__lookupSetter__"; "isPrototypeOf";
    "propertyIsEnumerable"; "toString"; "valueOf"; "__proto__";
    "toLocaleString" ].

(** [bodiesMap[key]].  The key is [String(key)].  An own property is a
    registered body.  Otherwise the prototype is asked: [Object.prototype]
    as long as no body was installed in its place; once one was, [__proto__]
    gives that body, and any other key is looked up among the properties the
    backend gives a body, which is where the embedding stops. *)
Definition getBody (st : Sim) (key : Name) : Completion Value :=
  let k := toString key in
  match bodiesMap st !! k with
  | Some id => Normal (IsBody id)
  | None =>
      match bodiesProto st with
      | None =>
          Normal (if bool_decide (k ∈ objectPrototype) then Inherited k
                  else Undefined)
      | Some b => if bool_decide (k = "__proto__") then Normal (IsBody b)
                  else Unmodelled
      end
  end.

(** [bodiesMap[name] = body]: [__proto__] is the accessor every object
    inherits, and assigning an object to it installs that object as the
    prototype; any other name becomes an own property. *)
Definition register (name : string) (id : nat) (st : Sim) : Sim :=
  if bool_decide (name = "__proto__") then upd_bodiesProto (fun _ => Some id) st
  else upd_bodiesMap (fun m => <[name := id]> m) st.

(** A new backend object: its identity is its index in the heap. *)
Definition newBody (body : Matter.Body) (st : Sim) : nat * Sim :=
  (length (bodies st), upd_bodies (fun l => l ++ [body]) st).

Definition newConstraint (c : Matter.Constraint) (st : Sim) : nat * Sim :=
  (length (joints st), upd_joints (fun l => l ++ [c]) st).

(** [Composite.add(engine.world, ...)]. *)
Definition addBody (id : nat) : Sim -> Sim :=
  upd_world_bodies (fun l => l ++ [id]).

Definition addConstraint (id : nat) : Sim -> Sim :=
  upd_world_constraints (fun l => l ++ [id]).

Definition addComposite (label : string) (ids : list nat) : Sim -> Sim :=
  upd_world_composites (fun l => l ++ [(label, ids)]).

(** Assignment to a field of a body in the heap. *)
Definition updBody (id : nat) (f : Matter.Body -> Matter.Body) : Sim -> Sim :=
  upd_bodies (fun l => match l !! id with
                       | Some b => <[id := f b]> l
                       | None => l
                       end).

(** [Bodies.fromVertices(x, y, verts, options)] with the options the engine
    file passes; what it does not pass keeps the backend's default. *)
Definition Bodies_fromVertices (position : Matter.Position) (verts : list Point)
    (isStatic : bool) (friction frictionAir restitution : Q)
    (render : Matter.Render) : option Matter.Body :=
  Some {| Matter.shape := Matter.FromVertices position verts;
          Matter.label := "Body";
          Matter.isStatic := isStatic;
          Matter.friction := friction;
          Matter.frictionStatic := 0.5;
          Matter.frictionAir := frictionAir;
          Matter.restitution := restitution;
          Matter.mass := None;
          Matter.density := 0.001;
          Matter.velocity := Pt 0 0;
          Matter.angularVelocity := 0;
          Matter.render := render |}.

(** [Bodies.rectangle(x, y, w, h, options)]. *)
Definition Bodies_rectangle (cx cy w h : Q) (label : string) (isStatic : bool)
    (friction frictionAir restitution : Q) (mass : option Q)
    (render : Matter.Render) : Matter.Body :=
  {| Matter.shape := Matter.Rectangle cx cy w h;
     Matter.label := label;
     Matter.isStatic := isStatic;
     Matter.friction := friction;
     Matter.frictionStatic := 0.5;
     Matter.frictionAir := frictionAir;
     Matter.restitution := restitution;
     Matter.mass := mass;
     Matter.density := 0.001;
     Matter.velocity := Pt 0 0;
     Matter.angularVelocity := 0;
     Matter.render := render |}.

(** ** Building the bodies *)

Definition applyPhysicsProperties (body : Matter.Body) (obj : Scene.Object)
    (processed : list Point) (isStatic : bool) : Matter.Body :=
  let params := Scene.parameters obj in
  let area := polygonArea processed in
  let massKg := nullish (Scene.mass_kg params) 0 in
  let body :=
    if gt massKg 0 && gt area 1
    then Matter.setDensity body (Math_max 0.0001 (massKg / area))
    else body in
  let vx :=
    nullish (match Scene.initial_velocity_px_s params with
             | Some v => Some v
             | None => Scene.initial_velocity_m_s params
             end) 0 in
  let vy := nullish (Scene.initial_velocity_y_px_s params) 0 in
  let body :=
    if negb isStatic && (negb (falsy vx) || negb (falsy vy))
    then Matter.setVelocity body (Pt vx vy)
    else body in
  let w0 := nullish (Scene.initial_angular_velocity_rad_s params) 0 in
  if negb isStatic && negb (falsy w0)
  then Matter.setAngularVelocity body w0
  else body.

(** [render] of a body built from a contour: the sprite when there is one,
    a flat colour by role otherwise. *)
Definition skin (obj : Scene.Object) (isStatic : bool) (sx sy : Q) : Matter.Render :=
  match Scene.sprite_data_url obj with
  | Some url =>
      if bool_decide (url = "") then
        Matter.FillStyle (if isStatic then "#94a3b8" else "#60a5fa")
      else Matter.Sprite url sx sy
  | None => Matter.FillStyle (if isStatic then "#94a3b8" else "#60a5fa")
  end.

Definition createConvexHullBody (processed : list Point) (obj : Scene.Object)
    (isStatic : bool) (friction air restitution sx sy : Q) (st : Sim) : Sim :=
  let hullPoints := toConvexHull processed in
  match Bodies_fromVertices Matter.VerticesCentre hullPoints isStatic
          friction air restitution (skin obj isStatic sx sy) with
  | Some body =>
      let body := applyPhysicsProperties body obj processed isStatic in
      let '(id, st) := newBody body st in
      addBody id st
  | None => st
  end.

(** The body of [triangles.forEach]: the triangle bodies are collected in
    [concaveComposite]. *)
Definition addTriangle (friction restitution : Q) (acc : list nat * Sim)
    (tri : Triangle) : list nat * Sim :=
  let '(members, st) := acc in
  let triCenter := triangleCentroid tri in
  match Bodies_fromVertices (Matter.At triCenter) tri true friction 0.01
          restitution (Matter.FillStyle "#94a3b8") with
  | Some triBody =>
      let '(id, st) := newBody triBody st in
      (members ++ [id], st)
  | None => (members, st)
  end.

(** [raw.map(p => ({ x: Math.round(p.x * sx), y: Math.round(p.y * sy) }))]. *)
Definition scaleContour (sx sy : Q) (raw : list Point) : list Point :=
  map (fun p => Pt (Math_round (x p * sx)) (Math_round (y p * sy))) raw.

(** The body of [objects.forEach]. *)
Definition processObject (sx sy : Q) (st : Sim) (obj : Scene.Object) : Sim :=
  if bool_decide (Scene.role obj = "constraint") then
    log ("[物理引擎] 跳过约束元素（不创建刚体）: " +:+ strOr (Scene.name obj) "未命名") st
  else
    let raw := default [] (Scene.contour obj) in
    if (length raw <? 3)%nat then st
    else
      let scaled := scaleContour sx sy raw in
      let processed := preprocessContour scaled in
      if (length processed <? 3)%nat then st
      else
        let isConcave := Scene.is_concave obj in
        let isStatic := bool_decide (Scene.role obj = "static") in
        let st := if isStatic then upd_hasStatic (fun _ => true) st else st in
        let params := Scene.parameters obj in
        let restitution := nullish (Scene.restitution params) 0 in
        let friction := nullish (Scene.friction_coefficient params) 0.2 in
        let air := nullish (Scene.air_drag params) 0 in
        if negb isConcave then
          match Bodies_fromVertices Matter.VerticesCentre processed isStatic
                  friction air restitution (skin obj isStatic sx sy) with
          | Some body =>
              let body := applyPhysicsProperties body obj processed isStatic in
              let '(id, st) := newBody body st in
              let st := addBody id st in
              let bodyName :=
                strOr (Scene.name obj) ("body-" +:+ pretty (size (bodiesMap st))) in
              let st := register bodyName id st in
              let speed := Scene.conveyor_speed params in
              let isConveyor :=
                bool_decide (is_Some speed)
                || bool_decide
                     (toLowerCase (strOr (Scene.element_type obj) "") = "conveyor_belt") in
              let st :=
                if isStatic && isConveyor then
                  upd_conveyorParams (fun m => <[bodyName := nullish speed 0]> m)
                    (updBody id (fun b => Matter.setLabel b "conveyor") st)
                else st in
              log ("[物理引擎] 凸多边形创建成功: " +:+ bodyName) st
          | None => st
          end
        else if isStatic then
          let triangles := decomposeToTriangleFan processed in
          if (length triangles =? 0)%nat then
            let st :=
              log ("[物理引擎] 三角形分解失败，回退到凸包: "
                   +:+ strOr (Scene.name obj) "未命名") st in
            createConvexHullBody processed obj isStatic friction air restitution sx sy st
          else
            let '(members, st) :=
              fold_left (addTriangle friction restitution) triangles ([], st) in
            let st :=
              addComposite ("凹面体-" +:+ strOr (Scene.name obj) "未命名") members st in
            log ("[物理引擎] 静态凹面体创建成功: " +:+ strOr (Scene.name obj) "未命名"
                 +:+ ", 分解为 " +:+ pretty (length triangles) +:+ " 个三角形") st
        else
          let st :=
            log ("[物理引擎] 动态凹面体使用凸包近似: "
                 +:+ strOr (Scene.name obj) "未命名") st in
          createConvexHullBody processed obj isStatic friction air restitution sx sy st.

(** ** Building the constraints *)

(** [{ x: Math.round((p?.x || 0) * sx), y: Math.round((p?.y || 0) * sy) }]. *)
Definition mapPoint (p : option Point) (sx sy : Q) : Point :=
  Pt (Math_round (or_else (x <$> p) 0 * sx))
     (Math_round (or_else (y <$> p) 0 * sy)).

(** A string or [undefined] inside a template literal. *)
Definition shown (s : option string) : string := default "undefined" s.

(** [v ? undefined : point]: the world point of an end that the name table
    gave nothing for. *)
Definition pointUnless (v : Value) (point : Point) : option Point :=
  if truthy v then None else Some point.

(** An integer-valued number inside a template literal. *)
Definition shownNum (q : Q) : string := pretty (Qfloor q).

Definition REDUCED_BODY_SIZE : Scene.Size := {| Scene.w := 20; Scene.h := 20 |}.

(** The body of [constraints.forEach]. *)
Definition buildConstraint (sx sy : Q) (st : Sim) (entry : nat * Scene.Constraint)
    : Completion Sim :=
  let '(idx, c) := entry in
  let isSpring :=
    bool_decide (Scene.springType c = Some "constraint")
    || bool_decide (Scene.springType c = Some "launcher") in
  if isSpring && bool_decide (is_Some (Scene.secondPivotPoint c)) then
    let st :=
      log ("[弹簧系统] 处理" +:+ shown (Scene.springType c) +:+ "类型弹簧: "
           +:+ toString (Scene.bodyName c)) st in
    let firstPoint := mapPoint (Scene.pivotPoint c) sx sy in
    let secondPoint := mapPoint (Scene.secondPivotPoint c) sx sy in
    firstBody ← getBody st (Scene.pivotName c);
    secondBody ← getBody st (Scene.secondPivotName c);
    if bool_decide (Scene.springType c = Some "constraint") then
      springConstraint ←
        Matter.Constraint_create
          {| Matter.o_bodyA := firstBody;
             Matter.o_pointA := pointUnless firstBody firstPoint;
             Matter.o_bodyB := secondBody;
             Matter.o_pointB := pointUnless secondBody secondPoint;
             Matter.o_length :=
               (fun l => l * Math_max sx sy) <$> Scene.springLength c;
             Matter.o_stiffness := or_else (Scene.stiffness c) 100 / 1000;
             Matter.o_damping := Some (or_else (Scene.damping c) 0.1);
             Matter.o_render :=
               {| Matter.visible := true; Matter.lineWidth := Some 2;
                  Matter.strokeStyle := Some "#000000";
                  Matter.type_ := Some "spring" |} |};
      let '(id, st) := newConstraint springConstraint st in
      let st := addConstraint id st in
      Normal
        (log ("[弹簧系统] 创建约束型弹簧: " +:+ toString (Scene.pivotName c) +:+ " ↔ "
              +:+ toString (Scene.secondPivotName c)) st)
    else if bool_decide (Scene.springType c = Some "launcher") then
      let reducedBody :=
        Bodies_rectangle
          (x firstPoint + (x secondPoint - x firstPoint) * 0.9)
          (y firstPoint + (y secondPoint - y firstPoint) * 0.9)
          (Scene.w REDUCED_BODY_SIZE) (Scene.h REDUCED_BODY_SIZE)
          "spring_launcher_reduced" false 0 0 0.1 (Some 0.5)
          (Matter.FillStyle "#94a3b8") in
      let '(slug, st) := newBody reducedBody st in
      springConstraint ←
        Matter.Constraint_create
          {| Matter.o_bodyA := firstBody;
             Matter.o_pointA := pointUnless firstBody firstPoint;
             Matter.o_bodyB := IsBody slug;
             Matter.o_pointB := None;
             Matter.o_length :=
               (fun l => l * Math_max sx sy - Scene.w REDUCED_BODY_SIZE)
                 <$> Scene.springLength c;
             Matter.o_stiffness := or_else (Scene.stiffness c) 200 / 1000;
             Matter.o_damping := Some (or_else (Scene.damping c) 0.05);
             Matter.o_render :=
               {| Matter.visible := false; Matter.lineWidth := None;
                  Matter.strokeStyle := None; Matter.type_ := None |} |};
      let '(id, st) := newConstraint springConstraint st in
      let st := addConstraint id (addBody slug st) in
      let st :=
        upd_collisionStart
          (fun l => l ++ [{| secondBody := secondBody; reducedBody := slug;
                             springConstraint := id |}]) st in
      Normal
        (log ("[弹簧系统] 创建弹射型弹簧: " +:+ toString (Scene.pivotName c)
              +:+ " → 削减刚体 → " +:+ toString (Scene.secondPivotName c)) st)
    else Normal st
  else
    bodyB ← getBody st (Scene.bodyName c);
    if negb (truthy bodyB) then
      Normal
        (log ("[约束系统] 未找到物体: " +:+ toString (Scene.bodyName c) +:+ "，跳过约束 "
              +:+ pretty idx) st)
    else
      let pivotPointScaled := mapPoint (Scene.pivotPoint c) sx sy in
      let stiffness :=
        if bool_decide (Scene.constraintType c = Some "spring")
        then nullish (Scene.stiffness c) 0.3
        else if bool_decide (Scene.constraintType c = Some "rope")
        then nullish (Scene.stiffness c) 0.9
        else nullish (Scene.stiffness c) 1 in
      let length :=
        match Scene.length_ c with
        | Some l => if falsy l then None else Some (l * Math_max sx sy)
        | None => None
        end in
      pivotBody ← getBody st (Scene.pivotName c);
      let spring := bool_decide (Scene.constraintType c = Some "spring") in
      let crender :=
        {| Matter.visible := true; Matter.lineWidth := Some 2;
           Matter.strokeStyle := Some (if spring then "#22c55e" else "#3b82f6");
           Matter.type_ := Some (if spring then "spring" else "line") |} in
      if truthy pivotBody then
        constraint ←
          Matter.Constraint_create
            {| Matter.o_bodyA := pivotBody; Matter.o_pointA := None;
               Matter.o_bodyB := bodyB; Matter.o_pointB := None;
               Matter.o_length := length; Matter.o_stiffness := stiffness;
               Matter.o_damping := None; Matter.o_render := crender |};
        let st :=
          log ("[约束系统] 创建物体间约束: " +:+ toString (Scene.bodyName c) +:+ " → "
               +:+ toString (Scene.pivotName c)) st in
        let '(id, st) := newConstraint constraint st in
        Normal (addConstraint id st)
      else
        constraint ←
          Matter.Constraint_create
            {| Matter.o_bodyA := Undefined;
               Matter.o_pointA := Some pivotPointScaled;
               Matter.o_bodyB := bodyB; Matter.o_pointB := None;
               Matter.o_length := length; Matter.o_stiffness := stiffness;
               Matter.o_damping := None; Matter.o_render := crender |};
        let st :=
          log ("[约束系统] 创建固定点约束: " +:+ toString (Scene.bodyName c)
               +:+ " → 世界坐标(" +:+ shownNum (x pivotPointScaled) +:+ ", "
               +:+ shownNum (y pivotPointScaled) +:+ ")") st in
        let '(id, st) := newConstraint constraint st in
        Normal (addConstraint id st).

(** [constraints.forEach((c, idx) => ...)] inside its guard. *)
Definition buildConstraints (sx sy : Q) (constraints : list Scene.Constraint)
    (st : Sim) : Completion Sim :=
  if (0 <? length constraints)%nat then
    let st :=
      log ("[约束系统] 开始创建 " +:+ pretty (length constraints) +:+ " 个约束") st in
    st ←
      forEach (buildConstraint sx sy)
        (combine (seq 0 (length constraints)) constraints) st;
    Normal
      (log ("[约束系统] 约束创建完成，共 " +:+ pretty (length constraints) +:+ " 个") st)
  else Normal st.

(** ** Boundary walls *)

Definition wall (cx cy w h : Q) : Matter.Body :=
  Bodies_rectangle cx cy w h "Rectangle Body" true 0.1 0.01 0 None Matter.Invisible.

(** The thickness [t] of the walls. *)
Definition wallThickness (width height : Q) : Q :=
  Math_max 10 (Math_floor (Math_min width height * 0.02)).

Definition boundaryWalls (width height : Q) : list Matter.Body :=
  let t := wallThickness width height in
  [ wall (width / 2) (- t / 2) width t;
    wall (width / 2) (height + t / 2) width t;
    wall (- t / 2) (height / 2) t height;
    wall (width + t / 2) (height / 2) t height ].

(** [Composite.add(engine.world, walls)]. *)
Definition addWalls (width height : Q) (st : Sim) : Sim :=
  fold_left (fun st body => let '(id, st) := newBody body st in addBody id st)
    (boundaryWalls width height) st.

(** ** The conveyor hook *)

(** [body?.label === 'conveyor']. *)
Definition isConv (st : Sim) (id : nat) : bool :=
  match bodies st !! id with
  | Some b => bool_decide (Matter.label b = "conveyor")
  | None => false
  end.

(** The inner loop of [onBeforeUpdate]: the first entry of [bodiesMap] whose
    body is [conveyorBody] gives the name under which the speed is looked
    up; [speed] stays 0 when there is none. *)
Definition conveyorSpeed (st : Sim) (conveyorBody : nat) : Q :=
  match list_find (fun e => snd e = conveyorBody) (map_to_list (bodiesMap st)) with
  | Some (_, (name, _)) =>
      match conveyorParams st !! name with
      | Some cfg => or_else (Some cfg) 0
      | None => 0
      end
  | None => 0
  end.

(** One turn of the loop of [onBeforeUpdate] over [engine.pairs.list]. *)
Definition conveyPair (st : Sim) (pair : nat * nat) : Sim :=
  let '(bodyA, bodyB) := pair in
  let aIsConv := isConv st bodyA in
  let bIsConv := isConv st bodyB in
  if negb aIsConv && negb bIsConv then st
  else
    let conveyorBody := if aIsConv then bodyA else bodyB in
    let otherBody := if aIsConv then bodyB else bodyA in
    match bodies st !! otherBody with
    | None => st
    | Some other =>
        if Matter.isStatic other then st
        else
          let speed := conveyorSpeed st conveyorBody in
          let st :=
            updBody otherBody
              (fun b => Matter.setVelocity b (Pt speed (y (Matter.velocity b)))) st in
          updBody otherBody (fun b => Matter.setAngularVelocity b 0) st
    end.

Definition onBeforeUpdate (pairs : list (nat * nat)) (st : Sim) : Sim :=
  fold_left conveyPair pairs st.

(** A tick of the runner fires [beforeUpdate] on the engine: the hook runs
    when it is registered. *)
Definition tick (pairs : list (nat * nat)) (st : Sim) : Sim :=
  if running st && beforeUpdate st then onBeforeUpdate pairs st else st.

(** ** The launcher's listener and its timeout *)

(** The bindings visible where the listener is written: the import and the
    functions of the module, then what [runSimulation] and the enclosing
    callbacks declare.  (The global object of a browser adds names such as
    [setTimeout] and [console]; it has no [World].) *)
Definition scope : list string :=
  [ "Matter"; "polygonArea"; "calculateCentroid"; "toConvexHull";
    "decomposeToTriangleFan"; "triangleCentroid"; "preprocessContour";
    "runSimulation"; "createConvexHullBody"; "applyPhysicsProperties";
    "container"; "objects"; "constraints"; "imageRect"; "naturalSize";
    "containerRect"; "imgRect"; "width"; "height"; "offX"; "offY"; "sx"; "sy";
    "Engine"; "Render"; "Runner"; "Composite"; "Bodies"; "Vertices"; "Body";
    "Events"; "engine"; "render"; "hasStatic"; "bodiesMap"; "conveyorParams";
    "Constraint"; "REDUCED_BODY_SIZE"; "runner"; "onBeforeUpdate";
    "constraintCount"; "c"; "idx"; "isSpring"; "firstPoint"; "secondPoint";
    "firstBody"; "secondBody"; "reducedBody"; "springConstraint"; "event";
    "pair"; "setTimeout"; "console"; "Math"; "Number"; "String"; "Object";
    "Array"; "document"; "isNaN" ].

(** Evaluating an identifier. *)
Definition resolve (identifier : string) : Completion unit :=
  if bool_decide (identifier ∈ scope) then Normal ()
  else Throw (ReferenceError identifier).

(** What [World.remove(engine.world, object)] does once [World] is there. *)
Definition removeBody (id : nat) (st : Sim) : Sim :=
  upd_world_composites
    (map (fun c => (fst c, filter (fun i => i ≠ id) (snd c))))
    (upd_world_bodies (filter (fun i => i ≠ id)) st).

Definition removeConstraint (id : nat) : Sim -> Sim :=
  upd_world_constraints (filter (fun i => i ≠ id)).

(** The callback given to [setTimeout]:
    [World.remove(engine.world, reducedBody);
     World.remove(engine.world, springConstraint);]. *)
Definition launcherCleanup (t : Timer) (st : Sim) : Completion Sim :=
  _ ← resolve "World";
  let st := removeBody (t_reducedBody t) st in
  _ ← resolve "World";
  Normal (removeConstraint (t_springConstraint t) st).

(** [pair.bodyA.label === 'spring_launcher_reduced']. *)
Definition isSlug (st : Sim) (id : nat) : bool :=
  match bodies st !! id with
  | Some b => bool_decide (Matter.label b = "spring_launcher_reduced")
  | None => false
  end.

(** One listener on one pair of [event.pairs]. *)
Definition onCollisionPair (l : Listener) (st : Sim) (pair : nat * nat) : Sim :=
  let '(bodyA, bodyB) := pair in
  if (isSlug st bodyA || isSlug st bodyB)
     && match secondBody l with
        | IsBody second => bool_decide (bodyA = second) || bool_decide (bodyB = second)
        | _ => false
        end
  then
    upd_timers
      (fun ts => ts ++ [{| delay := 100; t_reducedBody := reducedBody l;
                           t_springConstraint := springConstraint l |}]) st
  else st.

(** The engine fires [collisionStart] with the pairs that started to
    collide: every listener goes through them. *)
Definition fireCollisionStart (pairs : list (nat * nat)) (st : Sim) : Sim :=
  fold_left (fun st l => fold_left (onCollisionPair l) pairs st)
    (collisionStart st) st.

(** The pending timeouts come due: each callback runs; one that throws
    leaves the state as it was and its error is reported. *)
Definition runTimeouts (st : Sim) : Sim * list JsError :=
  fold_left
    (fun acc t =>
       let '(st, errors) := acc in
       match launcherCleanup t st with
       | Normal st' => (st', errors)
       | Throw e => (st, errors ++ [e])
       | Unmodelled => (st, errors)
       end)
    (timers st) (upd_timers (fun _ => []) st, []).

(** ** [runSimulation] *)

Record SimulationHandle := { summary : string }.

(** [stop()] of the handle. *)
Definition stop (st : Sim) : Sim :=
  let st := log "[物理引擎] 停止模拟，清理资源..." st in
  let st := upd_running (fun _ => false) st in
  let st := upd_beforeUpdate (fun _ => false) st in
  let st := upd_world_bodies (fun _ => []) st in
  let st := upd_world_constraints (fun _ => []) st in
  let st := upd_world_composites (fun _ => []) st in
  upd_canvas (fun _ => None) st.

Definition defaultRect : Scene.Rect :=
  {| Scene.left_ := 0; Scene.top_ := 0; Scene.width := 640; Scene.height := 360 |}.

(** The layout computed at the head of [runSimulation]; [container] is the
    bounding rectangle of the render surface when there is one. *)
Definition containerRectOf (container : option Scene.Rect) : Scene.Rect :=
  default defaultRect container.

Definition imgRectOf (container imageRect : option Scene.Rect) : Scene.Rect :=
  default (containerRectOf container) imageRect.

Definition viewWidth (container imageRect : option Scene.Rect) : Q :=
  Math_max 1
    (Math_floor (or_else (Some (Scene.width (imgRectOf container imageRect))) 640)).

Definition viewHeight (container imageRect : option Scene.Rect) : Q :=
  Math_max 1
    (Math_floor (or_else (Some (Scene.height (imgRectOf container imageRect))) 360)).

Definition scaleX (width : Q) (naturalSize : Scene.Size) : Q :=
  if falsy (Scene.w naturalSize) then 1 else width / Scene.w naturalSize.

Definition scaleY (height : Q) (naturalSize : Scene.Size) : Q :=
  if falsy (Scene.h naturalSize) then 1 else height / Scene.h naturalSize.

(** The renderer with its canvas placed over the image. *)
Definition createRender (container imageRect : option Scene.Rect) : Sim :=
  let containerRect := containerRectOf container in
  let imgRect := imgRectOf container imageRect in
  upd_canvas
    (fun _ =>
       Some {| element := match container with
                          | Some _ => Container
                          | None => DocumentBody
                          end;
               canvasWidth := viewWidth container imageRect;
               canvasHeight := viewHeight container imageRect;
               offX := Math_round (Scene.left_ imgRect - Scene.left_ containerRect);
               offY := Math_round (Scene.top_ imgRect - Scene.top_ containerRect) |})
    emptySim.

(** [runSimulation] up to the constraints: the bodies of the objects and
    the constraints are in the world. *)
Definition buildScene (container : option Scene.Rect)
    (objects : list Scene.Object) (constraints : list Scene.Constraint)
    (imageRect : option Scene.Rect) (naturalSize : Scene.Size) : Completion Sim :=
  let width := viewWidth container imageRect in
  let height := viewHeight container imageRect in
  let sx := scaleX width naturalSize in
  let sy := scaleY height naturalSize in
  let st := createRender container imageRect in
  let st := fold_left (processObject sx sy) objects st in
  buildConstraints sx sy constraints st.

(** What is left of [runSimulation] once the scene is built: the walls, the
    runner, the hook and the handle. *)
Definition startSimulation (width height : Q) (objects : list Scene.Object)
    (constraints : list Scene.Constraint) (st : Sim) : Sim * SimulationHandle :=
  let st := if negb (hasStatic st) then addWalls width height st else st in
  let st := upd_running (fun _ => true) st in
  let st := upd_beforeUpdate (fun _ => true) st in
  let constraintCount := length constraints in
  (st,
   {| summary :=
        "模拟运行中：对象数=" +:+ pretty (length objects)
        +:+ (if (0 <? constraintCount)%nat
             then "，约束数=" +:+ pretty constraintCount
             else "") |}).

(** [runSimulation]: the state it leaves and the handle it returns, unless
    building a constraint throws. *)
Definition runSimulation (container : option Scene.Rect)
    (objects : list Scene.Object) (constraints : list Scene.Constraint)
    (imageRect : option Scene.Rect) (naturalSize : Scene.Size)
    : Completion (Sim * SimulationHandle) :=
  let width := viewWidth container imageRect in
  let height := viewHeight container imageRect in
  st ← buildScene container objects constraints imageRect naturalSize;
  Normal (startSimulation width height objects constraints st).

(** ** drawMask.js: drawing on a 2D canvas context

    The context is modelled by its stroke style, the stack of styles that
    [save] and [restore] keep, and the drawing operations issued so far. *)

Module Canvas2D.

Record Style := {
  lineWidth : Q;
  strokeStyle : string;
  shadowColor : string;
  shadowBlur : Q;
  lineDash : list Q
}.

Inductive Op :=
| ClearRect (x0 y0 w h : Q)
| BeginPath
| MoveTo (px py : Q)
| LineTo (px py : Q)
| ClosePath
| Stroke (style : Style)
| StrokeRect (x0 y0 w h : Q) (style : Style).

Record Context := {
  style : Style;
  saved : list Style;
  ops : list Op
}.

Definition issue (op : Op) (ctx : Context) : Context :=
  {| style := style ctx; saved := saved ctx; ops := ops ctx ++ [op] |}.

(** [ctx.save()] and [ctx.restore()]; restoring with nothing saved does
    nothing. *)
Definition save (ctx : Context) : Context :=
  {| style := style ctx; saved := style ctx :: saved ctx; ops := ops ctx |}.

Definition restore (ctx : Context) : Context :=
  match saved ctx with
  | s :: rest => {| style := s; saved := rest; ops := ops ctx |}
  | [] => ctx
  end.

Definition setStyle (s : Style) (ctx : Context) : Context :=
  {| style := s; saved := saved ctx; ops := ops ctx |}.

End Canvas2D.

(** [clear(ctx, width, height)]. *)
Definition clear (ctx : Canvas2D.Context) (width height : Q) : Canvas2D.Context :=
  Canvas2D.issue (Canvas2D.ClearRect 0 0 width height) ctx.

(** [drawContour(ctx, points)]; a context or a list that is [null] or
    [undefined] is [None]. *)
Definition drawContour (ctx : option Canvas2D.Context) (points : option (list Point))
    : option Canvas2D.Context :=
  match ctx, points with
  | Some ctx, Some points =>
      if (length points =? 0)%nat then Some ctx
      else
        let ctx := Canvas2D.save ctx in
        let ctx :=
          Canvas2D.setStyle
            {| Canvas2D.lineWidth := 3; Canvas2D.strokeStyle := "#2b6ef2";
               Canvas2D.shadowColor := "#7aa2ff"; Canvas2D.shadowBlur := 12;
               Canvas2D.lineDash := Canvas2D.lineDash (Canvas2D.style ctx) |} ctx in
        let ctx := Canvas2D.issue Canvas2D.BeginPath ctx in
        let ctx :=
          Canvas2D.issue (Canvas2D.MoveTo (x (at_ points 0)) (y (at_ points 0))) ctx in
        let ctx :=
          fold_left
            (fun ctx i =>
               Canvas2D.issue (Canvas2D.LineTo (x (at_ points i)) (y (at_ points i))) ctx)
            (seq 1 (length points - 1)) ctx in
        let ctx := Canvas2D.issue Canvas2D.ClosePath ctx in
        let ctx := Canvas2D.issue (Canvas2D.Stroke (Canvas2D.style ctx)) ctx in
        Some (Canvas2D.restore ctx)
  | _, _ => ctx
  end.

(** [drawDragRect(ctx, x1, y1, x2, y2)]. *)
Definition drawDragRect (ctx : option Canvas2D.Context) (x1 y1 x2 y2 : Q)
    : option Canvas2D.Context :=
  match ctx with
  | None => None
  | Some ctx =>
      let ctx := Canvas2D.save ctx in
      let ctx :=
        Canvas2D.setStyle
          {| Canvas2D.lineWidth := 2; Canvas2D.strokeStyle := "#ff9900";
             Canvas2D.shadowColor := "#ff9900"; Canvas2D.shadowBlur := 8;
             Canvas2D.lineDash := [6; 6] |} ctx in
      let w := x2 - x1 in
      let h := y2 - y1 in
      let ctx := Canvas2D.issue (Canvas2D.StrokeRect x1 y1 w h (Canvas2D.style ctx)) ctx in
      Some (Canvas2D.restore ctx)
  end.

(** ** Notions the properties are stated with *)

(** The simulation a call of [runSimulation] that returns has started. *)
Definition started (run : Completion (Sim * SimulationHandle)) : Sim :=
  match run with
  | Normal (st, _) => st
  | _ => emptySim
  end.

(** The registered body a name resolves to, when it resolves to one. *)
Definition lookupBody (st : Sim) (key : Name) : option nat :=
  match getBody st key with
  | Normal (IsBody id) => Some id
  | _ => None
  end.

(** The sum of a list of numbers. *)
Definition Qsum (l : list Q) : Q := fold_right Qplus 0 l.

(** The sum of the areas of the triangles of the fan. *)
Definition fanAreaSum (points : list Point) : Q :=
  Qsum (map polygonArea (decomposeToTriangleFan points)).

(** The segments [p1 p2] and [p3 p4] have a point in common. *)
Definition onSegment (a b p : Point) : bool :=
  Qeq_bool (cross3 a b p) 0
  && Qle_bool (Math_min (x a) (x b)) (x p) && Qle_bool (x p) (Math_max (x a) (x b))
  && Qle_bool (Math_min (y a) (y b)) (y p) && Qle_bool (y p) (Math_max (y a) (y b)).

Definition segmentsMeet (p1 p2 p3 p4 : Point) : bool :=
  let d1 := cross3 p3 p4 p1 in
  let d2 := cross3 p3 p4 p2 in
  let d3 := cross3 p1 p2 p3 in
  let d4 := cross3 p1 p2 p4 in
  (gt 0 (d1 * d2) && gt 0 (d3 * d4))
  || onSegment p3 p4 p1 || onSegment p3 p4 p2
  || onSegment p1 p2 p3 || onSegment p1 p2 p4.

(** A simple polygon: edges that are not neighbours do not meet, and
    neighbours share their common vertex only. *)
Definition isSimple (points : list Point) : bool :=
  let n := length points in
  forallb
    (fun i =>
       forallb
         (fun j =>
            let a := at_ points i in
            let b := at_ points ((i + 1) mod n) in
            let c := at_ points j in
            let d := at_ points ((j + 1) mod n) in
            if (j <=? i)%nat then true
            else if (j =? i + 1)%nat then negb (onSegment a b d) && negb (onSegment c d a)
            else if ((i =? 0) && (j =? n - 1))%nat
            then negb (onSegment a b c) && negb (onSegment c d b)
            else negb (segmentsMeet a b c d))
         (seq 0 n))
    (seq 0 n).

(** * Properties *)

(** ** Contour sanitizing *)

Lemma dedupLoop_again (rest : list Point) :
  forall last, dedupLoop last (dedupLoop last rest) = dedupLoop last rest.
Proof.
  induction rest as [|curr rest IH]; intros last; simpl; [reflexivity|].
  destruct (dist_gt_1 last curr) eqn:Hfar.
  - simpl. rewrite Hfar. f_equal. apply IH.
  - apply IH.
Qed.

Lemma uniquePoints_again (points : list Point) :
  uniquePoints (uniquePoints points) = uniquePoints points.
Proof.
  destruct points as [|p0 rest]; simpl; [reflexivity|].
  f_equal. apply dedupLoop_again.
Qed.

(** The sanitizer never returns fewer than 3 points for a contour of at
    least 3: when fewer are left it gives the contour back. *)
Lemma preprocessContour_length (points : list Point) :
  (3 <= length points)%nat -> (3 <= length (preprocessContour points))%nat.
Proof.
  intros Hlen. unfold preprocessContour.
  destruct (length points <? 3)%nat eqn:Hshort; [exact Hlen|].
  destruct (3 <=? length (uniquePoints points))%nat eqn:Hkept.
  - apply Nat.leb_le in Hkept. exact Hkept.
  - exact Hlen.
Qed.

Lemma preprocessContour_fallback (points : list Point) :
  (length (uniquePoints points) < 3)%nat -> preprocessContour points = points.
Proof.
  intros Hfew. unfold preprocessContour.
  destruct (length points <? 3)%nat; [reflexivity|].
  destruct (3 <=? length (uniquePoints points))%nat eqn:Hkept; [|reflexivity].
  apply Nat.leb_le in Hkept. lia.
Qed.

(** C10. Contour sanitizing is idempotent: [preprocessContour] applied to
    its own output returns that output unchanged, for every sequence of
    points. *)
Theorem preprocessContour_idempotent (points : list Point) :
  preprocessContour (preprocessContour points) = preprocessContour points.
Proof.
  destruct (length points <? 3)%nat eqn:Hshort.
  - assert (Hid : preprocessContour points = points)
      by (unfold preprocessContour; rewrite Hshort; reflexivity).
    rewrite !Hid. reflexivity.
  - destruct (3 <=? length (uniquePoints points))%nat eqn:Hkept.
    + assert (Hu : preprocessContour points = uniquePoints points)
        by (unfold preprocessContour; rewrite Hshort, Hkept; reflexivity).
      rewrite Hu. unfold preprocessContour.
      rewrite uniquePoints_again, Hkept.
      destruct (length (uniquePoints points) <? 3)%nat; reflexivity.
    + assert (Hid : preprocessContour points = points)
        by (unfold preprocessContour; rewrite Hshort, Hkept; reflexivity).
      rewrite !Hid. reflexivity.
Qed.

(** ** Areas: the shoelace sum and the triangle fan *)

Definition crossTerm (p q : Point) : Q := x p * y q - x q * y p.

Lemma fold_left_Qsum {A} (f : A -> Q) (l : list A) :
  forall a, fold_left (fun acc i => acc + f i) l a == a + Qsum (map f l).
Proof.
  induction l as [|i l IH]; intros a; simpl.
  - ring.
  - rewrite IH. ring.
Qed.

Lemma Qsum_ext {A} (f g : A -> Q) (l : list A) :
  (forall e, f e == g e) -> Qsum (map f l) == Qsum (map g l).
Proof.
  intros Hfg. induction l as [|e l IH]; simpl; [reflexivity|].
  rewrite IH, Hfg. reflexivity.
Qed.

Lemma Qsum_app (l1 l2 : list Q) : Qsum (l1 ++ l2) == Qsum l1 + Qsum l2.
Proof.
  induction l1 as [|q l1 IH]; simpl; [ring|]. rewrite IH. ring.
Qed.

Lemma edges_length (poly : list Point) : length (edges poly) = length poly.
Proof.
  destruct poly as [|v0 rest]; [reflexivity|].
  unfold edges. rewrite length_combine, length_app.
  change (length (v0 :: rest)) with (S (length rest)).
  change (length [v0]) with 1%nat. lia.
Qed.

(** The pairs [(points[i], points[(i + 1) % n])] the loops go through are
    the edges of the closed polygon. *)
Lemma indexed_edges (points : list Point) :
  map (fun i => (at_ points i, at_ points ((i + 1) mod length points)))
      (seq 0 (length points))
  = edges points.
Proof.
  apply (nth_ext _ _ (origin, origin) (origin, origin)).
  - rewrite length_map, length_seq, edges_length. reflexivity.
  - intros i Hi. rewrite length_map, length_seq in Hi.
    destruct points as [|v0 rest]; [simpl in Hi; lia|].
    set (points := v0 :: rest) in *.
    rewrite (nth_indep _ _ (at_ points 0, at_ points ((0 + 1) mod length points)))
      by (rewrite length_map, length_seq; exact Hi).
    rewrite (map_nth (fun i => (at_ points i, at_ points ((i + 1) mod length points)))).
    rewrite seq_nth by exact Hi. rewrite Nat.add_0_l.
    unfold edges, points.
    rewrite combine_nth by (rewrite length_app; simpl; lia).
    f_equal.
    unfold at_. fold points.
    destruct (decide (i + 1 < length points)%nat) as [Hlt|Hge].
    + rewrite Nat.mod_small by exact Hlt.
      unfold points. replace (i + 1)%nat with (S i) by lia. simpl.
      rewrite app_nth1; [reflexivity|]. unfold points in Hlt. simpl in Hlt. lia.
    + assert (Hn : (i + 1 = length points)%nat) by lia.
      rewrite Hn, Nat.Div0.mod_same.
      unfold points in *. simpl in Hn. simpl.
      rewrite app_nth2 by lia.
      replace (i - length rest)%nat with 0%nat by lia. reflexivity.
Qed.

Lemma shoelaceSum_edges (points : list Point) :
  shoelaceSum points
  == Qsum (map (fun e => crossTerm (fst e) (snd e)) (edges points)).
Proof.
  unfold shoelaceSum.
  rewrite (fold_left_Qsum
             (fun i => x (at_ points i) * y (at_ points ((i + 1) mod length points))
                       - x (at_ points ((i + 1) mod length points)) * y (at_ points i))).
  rewrite <- indexed_edges, map_map. simpl. unfold crossTerm. ring.
Qed.

Lemma fan_edges (points : list Point) :
  (3 <= length points)%nat ->
  decomposeToTriangleFan points
  = map (fun e => [calculateCentroid points; fst e; snd e]) (edges points).
Proof.
  intros Hlen. unfold decomposeToTriangleFan.
  destruct (length points <? 3)%nat eqn:Hshort; [apply Nat.ltb_lt in Hshort; lia|].
  rewrite <- indexed_edges, map_map. apply map_ext. intros i. simpl.
  destruct (calculateCentroid points), (at_ points i),
    (at_ points ((i + 1) mod length points)); reflexivity.
Qed.

Lemma shoelaceSum_triangle (c a b : Point) :
  shoelaceSum [c; a; b] == crossTerm c a + crossTerm a b + crossTerm b c.
Proof.
  unfold shoelaceSum, crossTerm, at_. simpl. ring.
Qed.

Lemma Qsum_plus {A} (f g : A -> Q) (l : list A) :
  Qsum (map (fun e => f e + g e) l) == Qsum (map f l) + Qsum (map g l).
Proof.
  induction l as [|e l IH]; simpl; [ring|]. rewrite IH. ring.
Qed.

Lemma Qsum_halves (l : list Q) : Qsum (map (fun q => q / 2) l) == Qsum l / 2.
Proof.
  induction l as [|q l IH]; simpl; [reflexivity|]. rewrite IH. field.
Qed.

Lemma Qsum_differences (g : Point -> Q) (l : list Point) :
  forall l', length l = length l' ->
  Qsum (map (fun e => g (fst e) - g (snd e)) (combine l l'))
  == Qsum (map g l) - Qsum (map g l').
Proof.
  induction l as [|a l IH]; intros [|b l'] Hlen; simpl in *; try discriminate.
  - ring.
  - rewrite IH by congruence. ring.
Qed.

(** Around a closed polygon the differences cancel. *)
Lemma Qsum_around (g : Point -> Q) (poly : list Point) :
  Qsum (map (fun e => g (fst e) - g (snd e)) (edges poly)) == 0.
Proof.
  destruct poly as [|v0 rest]; [reflexivity|].
  unfold edges. rewrite Qsum_differences.
  - rewrite map_app, Qsum_app. simpl. ring.
  - rewrite length_app. simpl. lia.
Qed.

Lemma Qabs_Qsum (l : list Q) : Qabs (Qsum l) <= Qsum (map Qabs l).
Proof.
  induction l as [|q l IH]; simpl; [discriminate|].
  eapply Qle_trans; [apply Qabs_triangle|].
  apply Qplus_le_r. exact IH.
Qed.

Lemma Qsum_nonneg (l : list Q) : Forall (fun q => 0 <= q) l -> 0 <= Qsum l.
Proof.
  induction 1 as [|q l Hq _ IH]; simpl; [discriminate|].
  replace 0 with (0 + 0) by reflexivity. apply Qplus_le_compat; assumption.
Qed.

Lemma Qsum_abs_nonneg (l : list Q) :
  Forall (fun q => 0 <= q) l -> Qsum (map Qabs l) == Qsum l.
Proof.
  induction 1 as [|q l Hq _ IH]; simpl; [reflexivity|].
  rewrite IH, Qabs_pos by exact Hq. reflexivity.
Qed.

Lemma Qsum_abs_nonpos (l : list Q) :
  Forall (fun q => q <= 0) l -> Qsum (map Qabs l) == - Qsum l.
Proof.
  induction 1 as [|q l Hq _ IH]; simpl; [reflexivity|].
  rewrite IH, Qabs_neg by exact Hq. ring.
Qed.

Lemma Qsum_nonpos (l : list Q) : Forall (fun q => q <= 0) l -> Qsum l <= 0.
Proof.
  induction 1 as [|q l Hq _ IH]; simpl; [discriminate|].
  replace 0 with (0 + 0) by reflexivity. apply Qplus_le_compat; assumption.
Qed.

(** The signed shoelace sums of the fan triangles add up to the signed
    shoelace sum of the polygon, whatever the centre. *)
Lemma fan_signed_sum (points : list Point) :
  (3 <= length points)%nat ->
  Qsum (map shoelaceSum (decomposeToTriangleFan points)) == shoelaceSum points.
Proof.
  intros Hlen. rewrite fan_edges by exact Hlen. rewrite map_map.
  set (c := calculateCentroid points).
  rewrite (Qsum_ext _ (fun e => crossTerm (fst e) (snd e)
                                + (crossTerm c (fst e) - crossTerm c (snd e)))).
  - rewrite (Qsum_plus (fun e => crossTerm (fst e) (snd e))
               (fun e => crossTerm c (fst e) - crossTerm c (snd e))).
    rewrite (Qsum_around (crossTerm c)), shoelaceSum_edges. ring.
  - intros e. rewrite shoelaceSum_triangle. unfold crossTerm. ring.
Qed.

Lemma fanAreaSum_abs (points : list Point) :
  fanAreaSum points
  == Qsum (map Qabs (map shoelaceSum (decomposeToTriangleFan points))) / 2.
Proof.
  unfold fanAreaSum. rewrite <- Qsum_halves, !map_map.
  apply Qsum_ext. intros t. reflexivity.
Qed.

(** The triangles of the fan all turn the same way. *)
Definition sameTurn (points : list Point) : Prop :=
  Forall (fun s => 0 <= s) (map shoelaceSum (decomposeToTriangleFan points))
  \/ Forall (fun s => s <= 0) (map shoelaceSum (decomposeToTriangleFan points)).

(** C8, amended. For a polygon of at least 3 vertices the signed shoelace
    sums of the fan triangles [(C, P[i], P[i+1 mod n])] add up to the signed
    shoelace sum of the polygon; the sum of the triangle areas is therefore
    at least the shoelace area of the polygon, and equals it when all the
    triangles of the fan turn the same way (the polygon is star-shaped
    about the mean [C] of its vertices, as every convex polygon is). *)
Theorem fan_area (points : list Point) :
  (3 <= length points)%nat ->
  Qsum (map shoelaceSum (decomposeToTriangleFan points)) == shoelaceSum points
  /\ polygonArea points <= fanAreaSum points
  /\ (sameTurn points -> fanAreaSum points == polygonArea points).
Proof.
  intros Hlen. pose proof (fan_signed_sum points Hlen) as Hsum.
  split; [exact Hsum|]. split.
  - rewrite fanAreaSum_abs. unfold polygonArea. rewrite <- Hsum.
    apply Qmult_le_compat_r; [apply Qabs_Qsum|discriminate].
  - intros [Hpos|Hneg]; rewrite fanAreaSum_abs; unfold polygonArea; rewrite <- Hsum.
    + rewrite Qsum_abs_nonneg by exact Hpos.
      rewrite Qabs_pos by (apply Qsum_nonneg; exact Hpos). reflexivity.
    + rewrite Qsum_abs_nonpos by exact Hneg.
      rewrite Qabs_neg by (apply Qsum_nonpos; exact Hneg). reflexivity.
Qed.

Definition unitSquare : list Point := [Pt 0 0; Pt 4 0; Pt 4 4; Pt 0 4].

Lemma fan_area_witness :
  (3 <= length unitSquare)%nat
  /\ sameTurn unitSquare
  /\ polygonArea unitSquare <= fanAreaSum unitSquare
  /\ fanAreaSum unitSquare == polygonArea unitSquare.
Proof.
  assert (Hlen : (3 <= length unitSquare)%nat) by (simpl; lia).
  assert (Hturn : sameTurn unitSquare)
    by (left; repeat constructor; vm_compute; discriminate).
  split; [exact Hlen|]. split; [exact Hturn|].
  destruct (fan_area unitSquare Hlen) as (_ & Hle & Heq).
  split; [exact Hle|exact (Heq Hturn)].
Defined.

(** A chevron: simple, concave, and the mean of its vertices lies outside. *)
Definition chevron : list Point := [Pt 0 0; Pt 4 8; Pt 8 0; Pt 4 6].

(** C8 as stated fails: the chevron is a simple polygon of 4 vertices whose
    fan triangles have areas 9, 9, 5 and 5, 28 in all, while its shoelace
    area is 8.  All the numbers involved are small dyadic rationals, so the
    arithmetic is exact in floating point as well. *)
Lemma fan_area_counterexample :
  isSimple chevron = true
  /\ (3 <= length chevron)%nat
  /\ fanAreaSum chevron == 28
  /\ polygonArea chevron == 8
  /\ ~ fanAreaSum chevron == polygonArea chevron.
Proof.
  split; [vm_compute; reflexivity|].
  split; [simpl; lia|].
  split; [vm_compute; reflexivity|].
  split; [vm_compute; reflexivity|].
  vm_compute. discriminate.
Qed.

(** ** The object loop *)

Definition visibleBody (b : Matter.Body) : Prop := Matter.render b <> Matter.Invisible.

(** An object that passes the guards of the loop with role [static]. *)
Definition usableStatic (obj : Scene.Object) : bool :=
  bool_decide (Scene.role obj = "static")
  && (3 <=? length (default [] (Scene.contour obj)))%nat.

(** What a step leaves alone besides the bodies and the tables. *)
Definition sameEngine (st st' : Sim) : Prop :=
  canvas st' = canvas st /\ joints st' = joints st
  /\ world_constraints st' = world_constraints st
  /\ collisionStart st' = collisionStart st
  /\ beforeUpdate st' = beforeUpdate st /\ timers st' = timers st
  /\ running st' = running st.

Lemma applyPhysicsProperties_render body obj processed isStatic :
  Matter.render (applyPhysicsProperties body obj processed isStatic)
  = Matter.render body.
Proof.
  unfold applyPhysicsProperties.
  repeat match goal with |- context [if ?c then _ else _] => destruct c end;
    reflexivity.
Qed.

Lemma skin_visible obj isStatic sx sy : skin obj isStatic sx sy <> Matter.Invisible.
Proof.
  unfold skin. destruct (Scene.sprite_data_url obj) as [url|];
    [destruct (bool_decide (url = ""))|]; discriminate.
Qed.

Lemma createConvexHullBody_effect processed obj isStatic friction air restitution sx sy st :
  exists body,
    visibleBody body
    /\ createConvexHullBody processed obj isStatic friction air restitution sx sy st
       = addBody (length (bodies st)) (upd_bodies (fun l => l ++ [body]) st).
Proof.
  unfold createConvexHullBody, Bodies_fromVertices, newBody.
  eexists. split; [|reflexivity].
  unfold visibleBody. rewrite applyPhysicsProperties_render. simpl.
  apply skin_visible.
Qed.

Lemma fold_addTriangle friction restitution (triangles : list Triangle) :
  forall members st,
  exists newBodies,
    length newBodies = length triangles
    /\ Forall visibleBody newBodies
    /\ fold_left (addTriangle friction restitution) triangles (members, st)
       = (members ++ seq (length (bodies st)) (length triangles),
          upd_bodies (fun l => l ++ newBodies) st).
Proof.
  induction triangles as [|tri triangles IH]; intros members st.
  - exists []. split; [reflexivity|]. split; [constructor|].
    simpl. rewrite app_nil_r. f_equal.
    destruct st. unfold upd_bodies. simpl. rewrite app_nil_r. reflexivity.
  - simpl fold_left.
    match goal with
    | |- context [fold_left _ _ (_, upd_bodies (fun l => l ++ [?b]) st)] =>
        set (body := b)
    end.
    destruct (IH (members ++ [length (bodies st)])
                 (upd_bodies (fun l => l ++ [body]) st))
      as (rest & Hlen & Hvis & Heq).
    exists (body :: rest). split; [simpl; congruence|].
    split; [constructor; [discriminate|exact Hvis]|].
    rewrite Heq. f_equal.
    + rewrite <- app_assoc. simpl. rewrite length_app. simpl.
      replace (length (bodies st) + 1)%nat with (S (length (bodies st))) by lia.
      reflexivity.
    + destruct st. unfold upd_bodies. simpl. rewrite <- app_assoc. reflexivity.
Qed.

Ltac sim :=
  cbn [canvas bodies joints world_bodies world_constraints world_composites
       bodiesMap bodiesProto conveyorParams hasStatic collisionStart
       beforeUpdate timers console running
       upd_canvas upd_bodies upd_joints upd_world_bodies upd_world_constraints
       upd_world_composites upd_bodiesMap upd_bodiesProto upd_conveyorParams
       upd_hasStatic
       upd_collisionStart upd_beforeUpdate upd_timers upd_console upd_running
       log addBody addConstraint addComposite newBody newConstraint updBody
       fst snd] in *.

Lemma register_normal name id st :
  register name id st
  = upd_bodiesProto
      (fun proto => if bool_decide (name = "__proto__") then Some id else proto)
      (upd_bodiesMap
         (fun m => if bool_decide (name = "__proto__") then m else <[name := id]> m)
         st).
Proof.
  unfold register. destruct (bool_decide (name = "__proto__")); destruct st;
    reflexivity.
Qed.

Lemma sameEngine_refl st : sameEngine st st.
Proof. repeat split. Qed.

Lemma relabel_last (l : list Matter.Body) (b : Matter.Body) f :
  match (l ++ [b]) !! length l with
  | Some b0 => <[length l := f b0]> (l ++ [b])
  | None => l ++ [b]
  end = l ++ [f b].
Proof.
  rewrite list_lookup_middle by reflexivity.
  replace (length l) with (length l + 0)%nat at 1 by lia.
  rewrite insert_app_r. reflexivity.
Qed.

Lemma usableStatic_not_static obj :
  Scene.role obj <> "static" -> usableStatic obj = false.
Proof.
  intros Hrole. unfold usableStatic. rewrite bool_decide_eq_false_2 by exact Hrole.
  reflexivity.
Qed.

Lemma processObject_effect sx sy st obj :
  exists newBodies,
    bodies (processObject sx sy st obj) = bodies st ++ newBodies
    /\ Forall visibleBody newBodies
    /\ hasStatic (processObject sx sy st obj) = hasStatic st || usableStatic obj
    /\ sameEngine st (processObject sx sy st obj)
    /\ (Scene.is_concave obj = true ->
        bodiesMap (processObject sx sy st obj) = bodiesMap st)
    /\ (Scene.role obj <> "constraint" ->
        (3 <= length (default [] (Scene.contour obj)))%nat -> newBodies <> [])
    /\ (Scene.role obj <> "constraint" ->
        (length (default [] (Scene.contour obj)) < 3)%nat ->
        processObject sx sy st obj = st)
    /\ (bodiesMap (processObject sx sy st obj) = bodiesMap st
        \/ exists name b,
             newBodies = [b]
             /\ bodiesMap (processObject sx sy st obj)
                = <[name := length (bodies st)]> (bodiesMap st)).
Proof.
  unfold processObject.
  destruct (bool_decide (Scene.role obj = "constraint")) eqn:Hc.
  { apply bool_decide_eq_true in Hc.
    exists []. sim. rewrite app_nil_r.
    rewrite usableStatic_not_static by (rewrite Hc; discriminate).
    rewrite orb_false_r. repeat split; try constructor; try congruence. }
  apply bool_decide_eq_false in Hc.
  set (raw := default [] (Scene.contour obj)).
  destruct (length raw <? 3)%nat eqn:Hraw.
  { apply Nat.ltb_lt in Hraw.
    exists []. rewrite app_nil_r.
    assert (Hu : usableStatic obj = false).
    { unfold usableStatic. fold raw.
      replace (3 <=? length raw)%nat with false
        by (symmetry; apply Nat.leb_gt; lia).
      apply andb_false_r. }
    rewrite Hu, orb_false_r.
    repeat split; try constructor; try congruence. intros _ Hge. lia. }
  apply Nat.ltb_ge in Hraw.
  set (scaled := scaleContour sx sy raw).
  assert (Hscaled : (3 <= length scaled)%nat)
    by (unfold scaled, scaleContour; rewrite length_map; exact Hraw).
  pose proof (preprocessContour_length scaled Hscaled) as Hproc.
  set (processed := preprocessContour scaled) in *.
  destruct (length processed <? 3)%nat eqn:Hp; [apply Nat.ltb_lt in Hp; lia|].
  set (isStatic := bool_decide (Scene.role obj = "static")).
  assert (Hu : usableStatic obj = isStatic).
  { unfold usableStatic. fold raw. fold isStatic.
    replace (3 <=? length raw)%nat with true by (symmetry; apply Nat.leb_le; lia).
    apply andb_true_r. }
  rewrite Hu.
  set (st1 := if isStatic then upd_hasStatic (fun _ => true) st else st).
  assert (Hst1 : bodies st1 = bodies st /\ bodiesMap st1 = bodiesMap st
                 /\ hasStatic st1 = hasStatic st || isStatic
                 /\ sameEngine st st1).
  { unfold st1. destruct isStatic; sim.
    - rewrite orb_true_r. repeat split.
    - rewrite orb_false_r. repeat split. }
  destruct Hst1 as (Hb1 & Hm1 & Hh1 & He1).
  destruct (Scene.is_concave obj) eqn:Hconcave; cbn [negb].
  - destruct isStatic eqn:Hstatic.
    + pose proof (fan_edges processed Hproc) as Hfan.
      assert (Hn : length (decomposeToTriangleFan processed) = length processed)
        by (rewrite Hfan, length_map, edges_length; reflexivity).
      destruct (length (decomposeToTriangleFan processed) =? 0)%nat eqn:Hz;
        [apply Nat.eqb_eq in Hz; lia|].
      destruct (fold_addTriangle
                  (nullish (Scene.friction_coefficient (Scene.parameters obj)) 0.2)
                  (nullish (Scene.restitution (Scene.parameters obj)) 0)
                  (decomposeToTriangleFan processed) [] st1)
        as (newBodies & Hlen & Hvis & Heq).
      rewrite Heq. exists newBodies. sim. rewrite Hb1, Hm1, Hh1.
      destruct He1 as (? & ? & ? & ? & ? & ? & ?).
      repeat split; try assumption; try reflexivity.
      * intros _ _ ->. simpl in Hlen. lia.
      * intros _ Hlt. lia.
      * left; reflexivity.
    + destruct (createConvexHullBody_effect processed obj false
                  (nullish (Scene.friction_coefficient (Scene.parameters obj)) 0.2)
                  (nullish (Scene.air_drag (Scene.parameters obj)) 0)
                  (nullish (Scene.restitution (Scene.parameters obj)) 0) sx sy
                  (log ("[物理引擎] 动态凹面体使用凸包近似: "
                        +:+ strOr (Scene.name obj) "未命名") st1))
        as (body & Hvis & Heq).
      rewrite Heq. exists [body]. sim. rewrite Hb1, Hm1, Hh1.
      destruct He1 as (? & ? & ? & ? & ? & ? & ?).
      repeat split; try assumption; try reflexivity.
      * constructor; [exact Hvis|constructor].
      * intros _ _ Habs. discriminate Habs.
      * intros _ Hlt. lia.
      * left; reflexivity.
  - unfold Bodies_fromVertices.
    match goal with
    | |- context [newBody ?b st1] => set (body := b)
    end.
    assert (Hvis : visibleBody body).
    { unfold body, visibleBody. rewrite applyPhysicsProperties_render. simpl.
      apply skin_visible. }
    unfold newBody. rewrite register_normal.
    destruct (isStatic && _) eqn:Hconv.
    + exists [Matter.setLabel body "conveyor"]. sim.
      rewrite relabel_last, Hb1, Hh1.
      destruct He1 as (? & ? & ? & ? & ? & ? & ?).
      repeat split; try assumption; try reflexivity.
      * constructor; [exact Hvis|constructor].
      * intros Habs; discriminate Habs.
      * intros _ _ Habs. discriminate Habs.
      * intros _ Hlt. lia.
      * destruct (bool_decide (_ = "__proto__"));
          [left|right; eexists _, _; split; [reflexivity|]];
          rewrite Hm1; reflexivity.
    + exists [body]. sim. rewrite Hb1, Hh1.
      destruct He1 as (? & ? & ? & ? & ? & ? & ?).
      repeat split; try assumption; try reflexivity.
      * constructor; [exact Hvis|constructor].
      * intros Habs; discriminate Habs.
      * intros _ _ Habs. discriminate Habs.
      * intros _ Hlt. lia.
      * destruct (bool_decide (_ = "__proto__"));
          [left|right; eexists _, _; split; [reflexivity|]];
          rewrite Hm1; reflexivity.
Qed.

(** Sample scenes. *)

Definition noParameters : Scene.Parameters :=
  {| Scene.mass_kg := None; Scene.restitution := None;
     Scene.friction_coefficient := None; Scene.air_drag := None;
     Scene.initial_velocity_px_s := None; Scene.initial_velocity_m_s := None;
     Scene.initial_velocity_y_px_s := None;
     Scene.initial_angular_velocity_rad_s := None;
     Scene.conveyor_speed := None |}.

Definition sceneObject (name role : string) (contour : list Point)
    (is_concave : bool) (parameters : Scene.Parameters) : Scene.Object :=
  {| Scene.name := Some name; Scene.role := role; Scene.contour := Some contour;
     Scene.is_concave := is_concave; Scene.sprite_data_url := None;
     Scene.element_type := None; Scene.parameters := parameters |}.

Definition unknownSize : Scene.Size := {| Scene.w := 0; Scene.h := 0 |}.

(** A dynamic object whose contour is three times the same point. *)
Definition dot : Scene.Object :=
  sceneObject "dot" "dynamic" [Pt 5 5; Pt 5 5; Pt 5 5] false noParameters.

(** ** Registration in the name table *)

(** A dynamic object flagged concave, and a pendulum hung on it. *)
Definition hook : Scene.Object :=
  sceneObject "hook" "dynamic" [Pt 0 0; Pt 40 0; Pt 40 40; Pt 20 10; Pt 0 40]
    true noParameters.

Definition pendulumOn (bodyName : string) (pivotName : Name)
    (pivotPoint : Point) : Scene.Constraint :=
  {| Scene.bodyName := Named bodyName; Scene.pivotName := pivotName;
     Scene.pivotPoint := Some pivotPoint; Scene.secondPivotName := Absent;
     Scene.secondPivotPoint := None; Scene.springType := None;
     Scene.constraintType := Some "pendulum"; Scene.stiffness := None;
     Scene.damping := None; Scene.length_ := None; Scene.springLength := None |}.

(** A static object flagged concave. *)
Definition bowl : Scene.Object :=
  sceneObject "bowl" "static" [Pt 0 0; Pt 40 0; Pt 40 40; Pt 20 10; Pt 0 40]
    true noParameters.

(** An object flagged concave leaves the name table as it was. *)
Lemma concave_not_registered sx sy st obj :
  Scene.is_concave obj = true ->
  bodiesMap (processObject sx sy st obj) = bodiesMap st.
Proof.
  intros Hconcave.
  destruct (processObject_effect sx sy st obj)
    as (? & _ & _ & _ & _ & Hmap & _ & _ & _).
  exact (Hmap Hconcave).
Qed.

(** C3 fails on the code. A body is built for the concave dynamic object
    [hook] (the hull body, index 0, in the world) but the name table has no
    entry for it, and the pendulum that names it is skipped with the
    diagnostic that the body was not found; the triangles built for the
    concave static [bowl] are not registered either. *)
Theorem concave_body_unregistered :
  exists st handle st' handle',
    runSimulation None [hook] [pendulumOn "hook" Null (Pt 100 50)] None unknownSize
    = Normal (st, handle)
    /\ runSimulation None [bowl] [] None unknownSize = Normal (st', handle')
    /\ head (world_bodies st) = Some 0%nat
    /\ (Matter.isStatic <$> bodies st !! 0%nat) = Some false
    /\ bodiesMap st !! "hook" = None
    /\ joints st = []
    /\ console st !! 2%nat = Some "[约束系统] 未找到物体: hook，跳过约束 0"
    /\ world_composites st' = [("凹面体-bowl", [0; 1; 2; 3; 4]%nat)]
    /\ bodiesMap st' !! "bowl" = None.
Proof.
  eexists _, _, _, _.
  split; [vm_compute; reflexivity|]. split; [vm_compute; reflexivity|].
  vm_compute. repeat split; reflexivity.
Qed.

(** ** Boundary walls *)

Lemma objects_effect sx sy (objects : list Scene.Object) :
  forall st,
  exists newBodies,
    bodies (fold_left (processObject sx sy) objects st) = bodies st ++ newBodies
    /\ Forall visibleBody newBodies
    /\ hasStatic (fold_left (processObject sx sy) objects st)
       = hasStatic st || existsb usableStatic objects
    /\ canvas (fold_left (processObject sx sy) objects st) = canvas st.
Proof.
  induction objects as [|obj objects IH]; intros st; simpl.
  - exists []. rewrite app_nil_r, orb_false_r. repeat split. constructor.
  - destruct (processObject_effect sx sy st obj)
      as (new1 & Hb1 & Hv1 & Hh1 & (Hc1 & _) & _).
    destruct (IH (processObject sx sy st obj)) as (new2 & Hb2 & Hv2 & Hh2 & Hc2).
    exists (new1 ++ new2).
    rewrite Hb2, Hb1, Hh2, Hh1, Hc2, Hc1, <- app_assoc, orb_assoc.
    repeat split. apply Forall_app; split; assumption.
Qed.

(** *** Abrupt completions *)

Lemma bind_Normal {A B} (m : Completion A) (f : A -> Completion B) (b : B) :
  m ≫= f = Normal b -> exists a, m = Normal a /\ f a = Normal b.
Proof. destruct m as [a| |]; [eauto|discriminate..]. Qed.

Lemma forEach_cons {A S} (f : S -> A -> Completion S) a l st :
  forEach f (a :: l) st = f st a ≫= forEach f l.
Proof. reflexivity. Qed.

Lemma forEach_Normal {A S} (P : S -> S -> Prop) (f : S -> A -> Completion S) :
  (forall st, P st st) ->
  (forall st1 st2 st3, P st1 st2 -> P st2 st3 -> P st1 st3) ->
  (forall st a st', f st a = Normal st' -> P st st') ->
  forall l st st', forEach f l st = Normal st' -> P st st'.
Proof.
  intros Hrefl Htrans Hstep.
  induction l as [|a l IH]; intros st st' Hrun; simpl in Hrun.
  - injection Hrun as <-. apply Hrefl.
  - apply bind_Normal in Hrun as (st1 & H1 & Hrest).
    eapply Htrans; [eapply Hstep; exact H1|apply IH; exact Hrest].
Qed.

Lemma getBody_log msg st key : getBody (log msg st) key = getBody st key.
Proof. reflexivity. Qed.

Lemma endBody_Normal v end_ :
  Matter.endBody v = Normal end_ ->
  match v with
  | Undefined => end_ = None
  | IsBody id => end_ = Some id
  | Inherited _ => False
  end.
Proof. destruct v; simpl; congruence. Qed.

(** An end of a constraint that was created: a body the name table gave
    for some name, or else a world point. *)
Definition endFrom (st : Sim) (body : option nat) (point : option Point) : Prop :=
  match body with
  | Some b => point = None /\ exists key, getBody st key = Normal (IsBody b)
  | None => is_Some point
  end.

(** What a turn of the constraint loop that completes has done: nothing
    but logging, or one constraint, or a launcher with its slug, its
    constraint and its listener. *)
Definition loggedOnly (st st' : Sim) : Prop :=
  st' = upd_console (fun _ => console st') st.

Definition jointAdded (st st' : Sim) (k : Matter.Constraint) : Prop :=
  st' = upd_console (fun _ => console st')
          (addConstraint (length (joints st))
             (upd_joints (fun l => l ++ [k]) st)).

Definition launcherAdded (st st' : Sim) (k : Matter.Constraint)
    (slug : Matter.Body) (second : Value) : Prop :=
  st' = upd_console (fun _ => console st')
          (upd_collisionStart
             (fun l => l ++ [{| secondBody := second;
                                reducedBody := length (bodies st);
                                springConstraint := length (joints st) |}])
             (addConstraint (length (joints st))
                (addBody (length (bodies st))
                   (upd_joints (fun l => l ++ [k])
                      (upd_bodies (fun l => l ++ [slug]) st))))).

Lemma pointUnless_endFrom st key v point end_ :
  getBody st key = Normal v -> Matter.endBody v = Normal end_ ->
  endFrom st end_ (pointUnless v point).
Proof.
  intros Hget Hend. apply endBody_Normal in Hend.
  destruct v as [|id|k]; [subst end_; simpl; eauto| |destruct Hend].
  subst end_. simpl. split; [reflexivity|eauto].
Qed.

Lemma buildConstraint_normal sx sy st idx c st' :
  buildConstraint sx sy st (idx, c) = Normal st' ->
  loggedOnly st st'
  \/ (exists k,
        jointAdded st st' k
        /\ endFrom st (Matter.bodyA k) (Matter.pointA k)
        /\ endFrom st (Matter.bodyB k) (Matter.pointB k))
  \/ (exists k slug second,
        launcherAdded st st' k slug second
        /\ endFrom st (Matter.bodyA k) (Matter.pointA k)
        /\ Matter.bodyB k = Some (length (bodies st))
        /\ Matter.pointB k = None
        /\ Matter.label slug = "spring_launcher_reduced"
        /\ Matter.isStatic slug = false
        /\ visibleBody slug
        /\ getBody st (Scene.secondPivotName c) = Normal second).
Proof.
  unfold buildConstraint.
  destruct (_ && bool_decide (is_Some (Scene.secondPivotPoint c))).
  - cbv zeta. rewrite !getBody_log. intros Hrun.
    apply bind_Normal in Hrun as (firstBody & Hfirst & Hrun).
    apply bind_Normal in Hrun as (secondBody & Hsecond & Hrun).
    destruct (bool_decide (Scene.springType c = Some "constraint")).
    + right; left.
      unfold Matter.Constraint_create in Hrun.
      apply bind_Normal in Hrun as (k & Hk & Hrun).
      apply bind_Normal in Hk as (a & Ha & Hk).
      apply bind_Normal in Hk as (b & Hb & Hk).
      injection Hk as <-. injection Hrun as <-.
      match goal with
        | |- context [upd_joints (fun _ => _ ++ [?k]) _] => exists k
        end.
        split; [unfold jointAdded; sim; reflexivity|].
      split; cbn [Matter.bodyA Matter.pointA Matter.bodyB Matter.pointB
                  Matter.o_bodyA Matter.o_pointA Matter.o_bodyB Matter.o_pointB] in *;
        eapply pointUnless_endFrom; eassumption.
    + destruct (bool_decide (Scene.springType c = Some "launcher")).
      * right; right.
        unfold newBody in Hrun. cbv zeta in Hrun.
        unfold Matter.Constraint_create in Hrun.
        apply bind_Normal in Hrun as (k & Hk & Hrun).
        apply bind_Normal in Hk as (a & Ha & Hk).
        apply bind_Normal in Hk as (b & Hb & Hk).
        injection Hk as <-. injection Hrun as <-.
        cbn [Matter.o_bodyA Matter.o_pointA Matter.o_bodyB Matter.o_pointB] in *.
        injection Hb as <-.
        match goal with
        | |- context [upd_joints (fun _ => _ ++ [?k])
                        (upd_bodies (fun _ => _ ++ [?slug]) _)] =>
            exists k, slug, secondBody
        end.
        split; [unfold launcherAdded; sim; reflexivity|].
        cbn [Matter.bodyA Matter.pointA Matter.bodyB Matter.pointB].
        split; [eapply pointUnless_endFrom; eassumption|].
        sim. repeat split; try reflexivity; [discriminate|exact Hsecond].
      * left. injection Hrun as <-. unfold loggedOnly. sim. reflexivity.
  - intros Hrun.
    apply bind_Normal in Hrun as (bodyB & HbodyB & Hrun).
    destruct (truthy bodyB) eqn:Htruthy; cbn [negb] in Hrun.
    + right; left. cbv zeta in Hrun.
      apply bind_Normal in Hrun as (pivotBody & Hpivot & Hrun).
      destruct (truthy pivotBody) eqn:Hpt;
        unfold Matter.Constraint_create in Hrun;
        apply bind_Normal in Hrun as (k & Hk & Hrun);
        apply bind_Normal in Hk as (a & Ha & Hk);
        apply bind_Normal in Hk as (b & Hb & Hk);
        injection Hk as <-; injection Hrun as <-;
        cbn [Matter.o_bodyA Matter.o_pointA Matter.o_bodyB Matter.o_pointB] in *;
        apply endBody_Normal in Ha, Hb.
      * match goal with
        | |- context [upd_joints (fun _ => _ ++ [?k]) _] => exists k
        end.
        split; [unfold jointAdded; sim; reflexivity|].
        cbn [Matter.bodyA Matter.pointA Matter.bodyB Matter.pointB].
        destruct pivotBody as [|pa|]; [discriminate| |destruct Ha].
        destruct bodyB as [|pb|]; [discriminate| |destruct Hb].
        subst a b. split; (split; [reflexivity|eauto]).
      * match goal with
        | |- context [upd_joints (fun _ => _ ++ [?k]) _] => exists k
        end.
        split; [unfold jointAdded; sim; reflexivity|].
        cbn [Matter.bodyA Matter.pointA Matter.bodyB Matter.pointB].
        subst a.
        destruct bodyB as [|pb|]; [discriminate| |destruct Hb].
        subst b. split; [simpl; eauto|split; [reflexivity|eauto]].
    + left. injection Hrun as <-. unfold loggedOnly. sim. reflexivity.
Qed.

(** What the constraint loop leaves alone, and what it adds to the heap. *)
Definition constraintsKeep (st st' : Sim) : Prop :=
  (exists newBodies,
     bodies st' = bodies st ++ newBodies /\ Forall visibleBody newBodies)
  /\ hasStatic st' = hasStatic st
  /\ bodiesMap st' = bodiesMap st
  /\ bodiesProto st' = bodiesProto st
  /\ conveyorParams st' = conveyorParams st
  /\ canvas st' = canvas st.

Lemma constraintsKeep_refl st : constraintsKeep st st.
Proof.
  split; [exists []; rewrite app_nil_r; split; [reflexivity|constructor]|].
  repeat split.
Qed.

Lemma constraintsKeep_log msg st : constraintsKeep st (log msg st).
Proof. exact (constraintsKeep_refl st). Qed.

Lemma constraintsKeep_trans st1 st2 st3 :
  constraintsKeep st1 st2 -> constraintsKeep st2 st3 -> constraintsKeep st1 st3.
Proof.
  intros ((new1 & Hb1 & Hv1) & Hh1 & Hm1 & Hp1 & Hc1 & Hk1)
         ((new2 & Hb2 & Hv2) & Hh2 & Hm2 & Hp2 & Hc2 & Hk2).
  split.
  - exists (new1 ++ new2). rewrite Hb2, Hb1, <- app_assoc.
    split; [reflexivity|apply Forall_app; split; assumption].
  - repeat split; congruence.
Qed.

Lemma buildConstraint_effect sx sy st entry st' :
  buildConstraint sx sy st entry = Normal st' -> constraintsKeep st st'.
Proof.
  destruct entry as [idx c]. intros Hrun.
  apply buildConstraint_normal in Hrun
    as [Heq|[(k & Heq & _)|(k & slug & second & Heq & H)]];
    rewrite Heq; unfold constraintsKeep; sim.
  - split; [exists []; rewrite app_nil_r; split; [reflexivity|constructor]|].
    repeat split.
  - split; [exists []; rewrite app_nil_r; split; [reflexivity|constructor]|].
    repeat split.
  - destruct H as (_ & _ & _ & _ & _ & Hvis & _).
    split; [exists [slug]; split; [reflexivity|]|repeat split].
    constructor; [exact Hvis|constructor].
Qed.

Lemma buildConstraints_effect sx sy constraints st st' :
  buildConstraints sx sy constraints st = Normal st' -> constraintsKeep st st'.
Proof.
  unfold buildConstraints.
  destruct (0 <? length constraints)%nat;
    [|intros [= <-]; apply constraintsKeep_refl].
  cbv zeta. intros Hrun. apply bind_Normal in Hrun as (st1 & Hloop & Hrun).
  injection Hrun as <-.
  apply (forEach_Normal constraintsKeep _ constraintsKeep_refl
           constraintsKeep_trans (buildConstraint_effect sx sy)) in Hloop.
  eapply constraintsKeep_trans; [apply constraintsKeep_log|].
  eapply constraintsKeep_trans; [exact Hloop|apply constraintsKeep_log].
Qed.

Lemma addWalls_effect width height st :
  bodies (addWalls width height st) = bodies st ++ boundaryWalls width height
  /\ canvas (addWalls width height st) = canvas st
  /\ bodiesMap (addWalls width height st) = bodiesMap st
  /\ world_bodies (addWalls width height st)
     = world_bodies st ++ seq (length (bodies st)) 4.
Proof.
  unfold addWalls, boundaryWalls. simpl fold_left. sim.
  rewrite <- !app_assoc, !length_app. simpl.
  split; [reflexivity|]. split; [reflexivity|]. split; [reflexivity|].
  replace (length (bodies st) + 1)%nat with (S (length (bodies st))) by lia.
  replace (length (bodies st) + 2)%nat with (S (S (length (bodies st)))) by lia.
  replace (length (bodies st) + 3)%nat
    with (S (S (S (length (bodies st))))) by lia.
  reflexivity.
Qed.

Lemma buildScene_effect container objects constraints imageRect naturalSize scene :
  buildScene container objects constraints imageRect naturalSize = Normal scene ->
  Forall visibleBody (bodies scene)
  /\ hasStatic scene = existsb usableStatic objects
  /\ canvas scene = canvas (createRender container imageRect).
Proof.
  unfold buildScene.
  set (sx := scaleX _ _). set (sy := scaleY _ _). cbv zeta. intros Hrun.
  destruct (objects_effect sx sy objects (createRender container imageRect))
    as (new1 & Hb1 & Hv1 & Hh1 & Hc1).
  apply buildConstraints_effect in Hrun
    as ((new2 & Hb2 & Hv2) & Hh2 & _ & _ & _ & Hc2).
  rewrite Hb2, Hb1, Hh2, Hh1, Hc2, Hc1. split; [|split; reflexivity].
  simpl. apply Forall_app; split; assumption.
Qed.

(** [runSimulation] returns exactly when the scene gets built. *)
Lemma runSimulation_Normal container objects constraints imageRect naturalSize
    st handle :
  runSimulation container objects constraints imageRect naturalSize
  = Normal (st, handle) <->
  exists scene,
    buildScene container objects constraints imageRect naturalSize = Normal scene
    /\ (st, handle)
       = startSimulation (viewWidth container imageRect)
           (viewHeight container imageRect) objects constraints scene.
Proof.
  unfold runSimulation. cbv zeta. split.
  - intros Hrun. apply bind_Normal in Hrun as (scene & Hscene & Hrun).
    exists scene. split; [exact Hscene|congruence].
  - intros (scene & -> & Heq). simpl. congruence.
Qed.

(** An object with role [static] whose contour has two points. *)
Definition strayGround : Scene.Object :=
  sceneObject "ground" "static" [Pt 0 300; Pt 600 300] false noParameters.

(** C4 as stated fails: [strayGround] has role static, yet it is skipped
    before the flag is raised and the four walls are added all the same.
    And the thickness is the floor of the 2%: for a viewport of 525 by 1000
    it is 10, not 10.5. *)
Lemma boundary_walls_counterexample :
  exists st handle,
    runSimulation None [strayGround] [] None unknownSize = Normal (st, handle)
    /\ Scene.role strayGround = "static"
    /\ bodies st = boundaryWalls 640 360
    /\ world_bodies st = [0; 1; 2; 3]%nat
    /\ wallThickness 525 1000 == 10
    /\ Math_max 10 (Math_min 525 1000 * 0.02) == 10.5.
Proof.
  eexists _, _. split; [vm_compute; reflexivity|].
  repeat split; vm_compute; reflexivity.
Qed.

(** C4, amended. The walls are added exactly when no object with role
    static passes the guards of the object loop (an array contour of at
    least 3 points).  In that case [runSimulation], which returns once the
    scene is built, adds exactly four bodies to what the objects and
    constraints put in the world, the rectangles of [boundaryWalls]: static,
    invisible, along the four sides of the viewport, of thickness
    [max(10, floor(0.02 * min(width, height)))]; no other body is
    invisible.  When such a static object exists, nothing is added. *)
Theorem boundary_walls container objects constraints imageRect naturalSize
    (scene : Sim) :
  let width := viewWidth container imageRect in
  let height := viewHeight container imageRect in
  let t := Math_max 10 (Math_floor (Math_min width height * 0.02)) in
  buildScene container objects constraints imageRect naturalSize = Normal scene ->
  exists st handle,
    runSimulation container objects constraints imageRect naturalSize
    = Normal (st, handle)
    /\ Forall visibleBody (bodies scene)
    /\ (existsb usableStatic objects = false ->
        bodies st = bodies scene ++ boundaryWalls width height
        /\ world_bodies st = world_bodies scene ++ seq (length (bodies scene)) 4)
    /\ (existsb usableStatic objects = true ->
        bodies st = bodies scene /\ world_bodies st = world_bodies scene)
    /\ Matter.shape <$> boundaryWalls width height
       = [ Matter.Rectangle (width / 2) (- t / 2) width t;
           Matter.Rectangle (width / 2) (height + t / 2) width t;
           Matter.Rectangle (- t / 2) (height / 2) t height;
           Matter.Rectangle (width + t / 2) (height / 2) t height ]
    /\ Forall (fun b => Matter.isStatic b = true /\ Matter.render b = Matter.Invisible)
         (boundaryWalls width height).
Proof.
  cbv zeta. intros Hscene.
  destruct (buildScene_effect _ _ _ _ _ _ Hscene) as (Hvis & Hflag & _).
  eexists _, _. split.
  { apply runSimulation_Normal. exists scene. split; [exact Hscene|].
    unfold startSimulation. reflexivity. }
  cbn [fst]. clear Hscene.
  remember (viewWidth container imageRect) as width eqn:Hwidth.
  remember (viewHeight container imageRect) as height eqn:Hheight.
  clear Hwidth Hheight.
  split; [exact Hvis|].
  rewrite Hflag.
  split; [|split; [|split]].
  - intros Hnone. rewrite Hnone. cbn [negb].
    destruct (addWalls_effect width height scene) as (Hb & _ & _ & Hw).
    revert Hb Hw. generalize (addWalls width height scene). intros walled Hb Hw.
    split; [exact Hb|exact Hw].
  - intros Hsome. rewrite Hsome. cbn [negb]. split; reflexivity.
  - reflexivity.
  - repeat constructor.
Qed.

(** The walls around a scene with one dynamic object. *)
Lemma boundary_walls_witness :
  exists scene st handle,
    buildScene None [hook] [] None unknownSize = Normal scene
    /\ runSimulation None [hook] [] None unknownSize = Normal (st, handle)
    /\ world_bodies scene = [0%nat]
    /\ world_bodies st = world_bodies scene ++ seq (length (bodies scene)) 4.
Proof.
  assert (Hscene : exists scene,
            buildScene None [hook] [] None unknownSize = Normal scene
            /\ world_bodies scene = [0%nat])
    by (eexists; split; vm_compute; reflexivity).
  destruct Hscene as (scene & Hscene & Hworld).
  destruct (boundary_walls None [hook] [] None unknownSize scene Hscene)
    as (st & handle & Hrun & _ & Hnone & _).
  exists scene, st, handle.
  split; [exact Hscene|]. split; [exact Hrun|]. split; [exact Hworld|].
  apply Hnone. reflexivity.
Defined.

(** ** Constraints with an unresolved pivot *)

(** The constraint goes through the spring branch. *)
Definition isSpringSystem (c : Scene.Constraint) : bool :=
  (bool_decide (Scene.springType c = Some "constraint")
   || bool_decide (Scene.springType c = Some "launcher"))
  && bool_decide (is_Some (Scene.secondPivotPoint c)).

(** The step added the constraint [k] to the world. *)
Definition created (st st' : Sim) (k : Matter.Constraint) : Prop :=
  joints st' = joints st ++ [k]
  /\ world_constraints st' = world_constraints st ++ [length (joints st)].

(** A convex dynamic triangle. *)
Definition ball : Scene.Object :=
  sceneObject "ball" "dynamic" [Pt 100 100; Pt 120 100; Pt 110 120] false
    noParameters.

(** A key the name table has no own property for finds what
    [Object.prototype] has under it, as long as no body was installed as the
    prototype. *)
Lemma getBody_inherited st key :
  bodiesMap st !! toString key = None -> bodiesProto st = None ->
  toString key ∈ objectPrototype ->
  getBody st key = Normal (Inherited (toString key)).
Proof.
  intros Hown Hproto Hin. unfold getBody. cbv zeta. rewrite Hown, Hproto.
  rewrite bool_decide_eq_true_2 by exact Hin. reflexivity.
Qed.

(** C5 fails on the code.  A pivot name the name table has nothing for
    does degrade to the world point obtained by mapping [pivotPoint]: a
    spring system gets its first end there, and any other constraint whose
    subject is a registered body is created between that point and the
    subject.  But a pivot name that is a key of [Object.prototype] (and names
    no registered body) finds a function or an object, which is taken for
    the pivot body, and [Constraint.create] throws. *)
Theorem unresolved_pivot (sx sy : Q) (st : Sim) (idx : nat) (c : Scene.Constraint) :
  let run := buildConstraint sx sy st (idx, c) in
  let anchor := mapPoint (Scene.pivotPoint c) sx sy in
  (getBody st (Scene.pivotName c) = Normal Undefined ->
   (isSpringSystem c = true ->
    (forall key, getBody st (Scene.secondPivotName c) <> Normal (Inherited key)) ->
    exists st' k,
      run = Normal st' /\ created st st' k
      /\ Matter.bodyA k = None /\ Matter.pointA k = Some anchor)
   /\ (isSpringSystem c = false ->
       forall subject, getBody st (Scene.bodyName c) = Normal (IsBody subject) ->
       exists st' k,
         run = Normal st' /\ created st st' k
         /\ Matter.bodyA k = None /\ Matter.pointA k = Some anchor
         /\ Matter.bodyB k = Some subject))
  /\ (forall key, getBody st (Scene.pivotName c) = Normal (Inherited key) ->
      (isSpringSystem c = true -> run = Throw TypeError)
      /\ (isSpringSystem c = false ->
          forall subject, getBody st (Scene.bodyName c) = Normal (IsBody subject) ->
          run = Throw TypeError)).
Proof.
  cbv zeta. unfold buildConstraint, isSpringSystem.
  assert (Hproto : forall v, v = Undefined \/ (exists key, v = Inherited key) ->
                     getBody st (Scene.pivotName c) = Normal v ->
                     exists second,
                       getBody st (Scene.secondPivotName c) = Normal second).
  { intros v Hv Hget. unfold getBody in *. cbv zeta in *.
    destruct (bodiesMap st !! toString (Scene.pivotName c));
      [destruct Hv as [->|[key ->]]; discriminate|].
    destruct (bodiesProto st).
    - destruct (bool_decide (toString (Scene.pivotName c) = "__proto__"));
        [destruct Hv as [->|[key ->]]; discriminate|discriminate].
    - destruct (bodiesMap st !! toString (Scene.secondPivotName c)); eauto. }
  destruct (_ && bool_decide (is_Some (Scene.secondPivotPoint c))) eqn:Hspring.
  - cbv zeta. rewrite !getBody_log. split.
    + intros Hpivot. split; [|intros Hno; discriminate Hno].
      intros _ Hplain.
      destruct (Hproto Undefined (or_introl eq_refl) Hpivot) as (second & Hsec).
      rewrite Hpivot, Hsec. simpl.
      destruct (bool_decide (Scene.springType c = Some "constraint")) eqn:Hkind.
      * destruct second as [|id|key]; [| |destruct (Hplain key Hsec)];
          simpl; eexists _, _; (split; [reflexivity|]);
          unfold created; sim; repeat split.
      * destruct (bool_decide (Scene.springType c = Some "launcher")) eqn:Hkind';
          [|simpl in Hspring; discriminate Hspring].
        simpl. eexists _, _. split; [reflexivity|].
        unfold created. sim. repeat split.
    + intros key Hpivot. split; [|intros Hno; discriminate Hno].
      intros _.
      destruct (Hproto (Inherited key) (or_intror (ex_intro _ key eq_refl)) Hpivot)
        as (second & Hsec).
      rewrite Hpivot, Hsec. simpl.
      destruct (bool_decide (Scene.springType c = Some "constraint")) eqn:Hkind;
        [reflexivity|].
      destruct (bool_decide (Scene.springType c = Some "launcher")) eqn:Hkind';
        [reflexivity|simpl in Hspring; discriminate Hspring].
  - split.
    + intros Hpivot. split; [intros Hno; discriminate Hno|].
      intros _ subject Hsubject. rewrite Hsubject. simpl. rewrite Hpivot. simpl.
      eexists _, _. split; [reflexivity|].
      unfold created. sim. repeat split.
    + intros key Hpivot. split; [intros Hno; discriminate Hno|].
      intros _ subject Hsubject. rewrite Hsubject. simpl. rewrite Hpivot.
      reflexivity.
Qed.

(** A pendulum on [ball] whose pivot is named [constructor]: building the
    constraint throws, and so does [runSimulation]; with a pivot name the
    table has nothing for, the constraint hangs from the world point. *)
Lemma unresolved_pivot_witness :
  let st := processObject 1 1 emptySim ball in
  let c := pendulumOn "ball" (Named "constructor") (Pt 100 50) in
  let c' := pendulumOn "ball" (Named "ceiling") (Pt 100 50) in
  lookupBody st (Scene.pivotName c) = None
  /\ buildConstraint 1 1 st (0%nat, c) = Throw TypeError
  /\ runSimulation None [ball] [c] None unknownSize = Throw TypeError
  /\ exists st' k,
       buildConstraint 1 1 st (0%nat, c') = Normal st' /\ created st st' k
       /\ Matter.bodyA k = None /\ Matter.pointA k = Some (Pt 100 50)
       /\ Matter.bodyB k = Some 0%nat.
Proof.
  intros st c c'.
  split; [reflexivity|].
  destruct (unresolved_pivot 1 1 st 0 c) as (_ & Hthrows).
  destruct (Hthrows "constructor" eq_refl) as (_ & Hpendulum).
  split; [exact (Hpendulum eq_refl 0%nat eq_refl)|].
  split; [vm_compute; reflexivity|].
  destruct (unresolved_pivot 1 1 st 0 c') as (Hanchor & _).
  destruct (Hanchor eq_refl) as (_ & Hpendulum').
  exact (Hpendulum' eq_refl 0%nat eq_refl).
Defined.

(** ** The launcher's slug *)

(** A launcher from the world point (100, 300) towards [ball]. *)
Definition launcher : Scene.Constraint :=
  {| Scene.bodyName := Named "spring"; Scene.pivotName := Absent;
     Scene.pivotPoint := Some (Pt 100 300); Scene.secondPivotName := Named "ball";
     Scene.secondPivotPoint := Some (Pt 200 300);
     Scene.springType := Some "launcher"; Scene.constraintType := Some "spring";
     Scene.stiffness := None; Scene.damping := None; Scene.length_ := None;
     Scene.springLength := Some 100 |}.

(** The callback of the timeout stops at its first identifier. *)
Lemma launcherCleanup_throws (t : Timer) (st : Sim) :
  launcherCleanup t st = Throw (ReferenceError "World").
Proof. reflexivity. Qed.

(** The timeouts coming due leave the world as it is. *)
Lemma runTimeouts_world (st : Sim) :
  world_bodies (fst (runTimeouts st)) = world_bodies st
  /\ world_constraints (fst (runTimeouts st)) = world_constraints st
  /\ length (snd (runTimeouts st)) = length (timers st).
Proof.
  unfold runTimeouts.
  assert (Hfold : forall ts st0 errors,
            fold_left
              (fun acc t =>
                 let '(st, errors) := acc in
                 match launcherCleanup t st with
                 | Normal st' => (st', errors)
                 | Throw e => (st, errors ++ [e])
                 | Unmodelled => (st, errors)
                 end) ts (st0, errors)
            = (st0, errors ++ map (fun _ => ReferenceError "World") ts)).
  { induction ts as [|t ts IH]; intros st0 errors; simpl.
    - rewrite app_nil_r. reflexivity.
    - rewrite IH, <- app_assoc. reflexivity. }
  rewrite Hfold. sim. rewrite app_nil_l, length_map. repeat split.
Qed.

(** C6 fails on the code. The slug is created 90% of the way from the
    first end to the second ((190, 300) here, index 1) and the contact of
    the slug with [ball] (index 0) schedules the removal 100 ms later; but
    the scheduled callback calls [World.remove] where no [World] is bound,
    so it raises a ReferenceError and both the slug and its spring
    constraint stay in the world. *)
Theorem launcher_slug_stays :
  exists st handle,
    runSimulation None [ball] [launcher] None unknownSize = Normal (st, handle)
    /\ let hit := fireCollisionStart [(1, 0)%nat] st in
       (exists cx cy, (Matter.shape <$> bodies st !! 1%nat)
                      = Some (Matter.Rectangle cx cy 20 20)
                      /\ cx == 190 /\ cy == 300)
       /\ (Matter.label <$> bodies st !! 1%nat) = Some "spring_launcher_reduced"
       /\ collisionStart st
          = [{| secondBody := IsBody 0; reducedBody := 1%nat;
                springConstraint := 0%nat |}]
       /\ timers st = []
       /\ timers hit
          = [{| delay := 100; t_reducedBody := 1%nat; t_springConstraint := 0%nat |}]
       /\ snd (runTimeouts hit) = [ReferenceError "World"]
       /\ world_bodies (fst (runTimeouts hit)) = world_bodies st
       /\ world_constraints (fst (runTimeouts hit)) = world_constraints st
       /\ In 1%nat (world_bodies (fst (runTimeouts hit)))
       /\ In 0%nat (world_constraints (fst (runTimeouts hit))).
Proof.
  eexists _, _. split; [vm_compute; reflexivity|].
  vm_compute. split.
  { eexists _, _. split; [reflexivity|]. split; reflexivity. }
  repeat split; auto.
Qed.

(** ** What [runSimulation] returns *)

(** No name of the constraint is a key of [Object.prototype]. *)
Definition plainNames (c : Scene.Constraint) : bool :=
  bool_decide (toString (Scene.bodyName c) ∉ objectPrototype)
  && bool_decide (toString (Scene.pivotName c) ∉ objectPrototype)
  && bool_decide (toString (Scene.secondPivotName c) ∉ objectPrototype).

Lemma getBody_plain st key :
  bodiesProto st = None -> toString key ∉ objectPrototype ->
  exists v, getBody st key = Normal v /\ exists end_, Matter.endBody v = Normal end_.
Proof.
  intros Hproto Hplain. unfold getBody. cbv zeta. rewrite Hproto.
  destruct (bodiesMap st !! toString key) as [id|]; [simpl; eauto|].
  rewrite bool_decide_eq_false_2 by exact Hplain. simpl. eauto.
Qed.

Lemma buildConstraint_plain sx sy st idx c :
  bodiesProto st = None -> plainNames c = true ->
  exists st', buildConstraint sx sy st (idx, c) = Normal st'.
Proof.
  intros Hproto Hplain. unfold plainNames in Hplain.
  apply andb_prop in Hplain as [Hplain Hsecond].
  apply andb_prop in Hplain as [Hsubject Hpivot].
  apply bool_decide_eq_true in Hsubject, Hpivot, Hsecond.
  destruct (getBody_plain st _ Hproto Hsubject) as (vb & Hvb & eb & Heb).
  destruct (getBody_plain st _ Hproto Hpivot) as (vp & Hvp & ep & Hep).
  destruct (getBody_plain st _ Hproto Hsecond) as (vs & Hvs & es & Hes).
  unfold buildConstraint.
  destruct (_ && bool_decide (is_Some (Scene.secondPivotPoint c))).
  - cbv zeta. rewrite !getBody_log, Hvp, Hvs. simpl.
    unfold Matter.Constraint_create. simpl.
    destruct (bool_decide (Scene.springType c = Some "constraint")).
    + rewrite Hep, Hes. simpl. eauto.
    + destruct (bool_decide (Scene.springType c = Some "launcher")); [|eauto].
      rewrite Hep. simpl. eauto.
  - rewrite Hvb. simpl. destruct (truthy vb); simpl; [|eauto].
    rewrite Hvp. simpl. unfold Matter.Constraint_create.
    destruct (truthy vp); simpl; rewrite ?Hep, Heb; simpl; eauto.
Qed.

Lemma buildConstraint_throws sx sy st entry e :
  buildConstraint sx sy st entry = Throw e -> e = TypeError.
Proof.
  assert (Hget : forall key e', getBody st key <> Throw e').
  { intros key e'. unfold getBody. cbv zeta.
    destruct (bodiesMap st !! toString key); [discriminate|].
    destruct (bodiesProto st); [|discriminate].
    destruct (bool_decide (toString key = "__proto__")); discriminate. }
  assert (Hcreate : forall o e', Matter.Constraint_create o = Throw e' ->
                      e' = TypeError).
  { intros o e'. unfold Matter.Constraint_create.
    destruct (Matter.o_bodyA o), (Matter.o_bodyB o); simpl; congruence. }
  destruct entry as [idx c]. unfold buildConstraint.
  destruct (_ && bool_decide (is_Some (Scene.secondPivotPoint c))).
  - cbv zeta. rewrite !getBody_log.
    destruct (getBody st (Scene.pivotName c)) as [vp|e'|] eqn:Hvp;
      [|destruct (Hget _ _ Hvp)|discriminate].
    destruct (getBody st (Scene.secondPivotName c)) as [vs|e'|] eqn:Hvs;
      [|destruct (Hget _ _ Hvs)|discriminate].
    simpl.
    destruct (bool_decide (Scene.springType c = Some "constraint")).
    + match goal with
      | |- context [Matter.Constraint_create ?o] =>
          destruct (Matter.Constraint_create o) eqn:Hc
      end; simpl; [discriminate| |discriminate].
      intros [= <-]. eapply Hcreate. exact Hc.
    + destruct (bool_decide (Scene.springType c = Some "launcher"));
        [|discriminate].
      match goal with
      | |- context [Matter.Constraint_create ?o] =>
          destruct (Matter.Constraint_create o) eqn:Hc
      end; simpl; [discriminate| |discriminate].
      intros [= <-]. eapply Hcreate. exact Hc.
  - destruct (getBody st (Scene.bodyName c)) as [vb|e'|] eqn:Hvb;
      [|destruct (Hget _ _ Hvb)|discriminate].
    simpl. destruct (truthy vb); simpl; [|discriminate].
    destruct (getBody st (Scene.pivotName c)) as [vp|e'|] eqn:Hvp;
      [|destruct (Hget _ _ Hvp)|discriminate].
    simpl.
    destruct (truthy vp);
      match goal with
      | |- context [Matter.Constraint_create ?o] =>
          destruct (Matter.Constraint_create o) eqn:Hc
      end; simpl; try discriminate;
      intros [= <-]; eapply Hcreate; exact Hc.
Qed.

Lemma forEach_plain sx sy (entries : list (nat * Scene.Constraint)) :
  forall st,
  bodiesProto st = None -> Forall (fun entry => plainNames (snd entry) = true) entries ->
  exists st', forEach (buildConstraint sx sy) entries st = Normal st'.
Proof.
  induction entries as [|[idx c] entries IH]; intros st Hproto Hplain;
    [simpl; eauto|].
  inversion Hplain as [|? ? Hc Hrest]; subst. simpl in Hc.
  destruct (buildConstraint_plain sx sy st idx c Hproto Hc) as (st1 & H1).
  rewrite forEach_cons, H1. apply IH; [|exact Hrest].
  apply buildConstraint_effect in H1 as (_ & _ & _ & Hp & _). congruence.
Qed.

Lemma forEach_throws sx sy (entries : list (nat * Scene.Constraint)) :
  forall st e, forEach (buildConstraint sx sy) entries st = Throw e -> e = TypeError.
Proof.
  induction entries as [|entry entries IH]; intros st e; [discriminate|].
  rewrite forEach_cons.
  destruct (buildConstraint sx sy st entry) as [st1|e1|] eqn:H1; simpl;
    [apply IH| |discriminate].
  intros [= <-]. eapply buildConstraint_throws. exact H1.
Qed.

(** Only an object named [__proto__] installs a prototype. *)
Lemma processObject_proto sx sy st obj :
  Scene.name obj <> Some "__proto__" ->
  bodiesProto (processObject sx sy st obj) = bodiesProto st.
Proof.
  intros Hname. unfold processObject.
  destruct (bool_decide (Scene.role obj = "constraint")); [reflexivity|].
  set (raw := default [] (Scene.contour obj)).
  destruct (length raw <? 3)%nat; [reflexivity|].
  set (scaled := scaleContour sx sy raw).
  set (processed := preprocessContour scaled).
  destruct (length processed <? 3)%nat; [reflexivity|].
  set (isStatic := bool_decide (Scene.role obj = "static")).
  set (st1 := if isStatic then upd_hasStatic (fun _ => true) st else st).
  assert (Hp1 : bodiesProto st1 = bodiesProto st /\ bodiesMap st1 = bodiesMap st)
    by (unfold st1; destruct isStatic; split; reflexivity).
  destruct Hp1 as [Hp1 Hm1].
  destruct (Scene.is_concave obj); cbn [negb].
  - destruct isStatic.
    + destruct (length (decomposeToTriangleFan processed) =? 0)%nat.
      * destruct (createConvexHullBody_effect processed obj true
                    (nullish (Scene.friction_coefficient (Scene.parameters obj)) 0.2)
                    (nullish (Scene.air_drag (Scene.parameters obj)) 0)
                    (nullish (Scene.restitution (Scene.parameters obj)) 0) sx sy
                    (log ("[物理引擎] 三角形分解失败，回退到凸包: "
                          +:+ strOr (Scene.name obj) "未命名") st1))
          as (body & _ & Heq).
        rewrite Heq. sim. exact Hp1.
      * destruct (fold_addTriangle
                    (nullish (Scene.friction_coefficient (Scene.parameters obj)) 0.2)
                    (nullish (Scene.restitution (Scene.parameters obj)) 0)
                    (decomposeToTriangleFan processed) [] st1)
          as (newBodies & _ & _ & Heq).
        rewrite Heq. sim. exact Hp1.
    + destruct (createConvexHullBody_effect processed obj false
                  (nullish (Scene.friction_coefficient (Scene.parameters obj)) 0.2)
                  (nullish (Scene.air_drag (Scene.parameters obj)) 0)
                  (nullish (Scene.restitution (Scene.parameters obj)) 0) sx sy
                  (log ("[物理引擎] 动态凹面体使用凸包近似: "
                        +:+ strOr (Scene.name obj) "未命名") st1))
        as (body & _ & Heq).
      rewrite Heq. sim. exact Hp1.
  - unfold Bodies_fromVertices, newBody. rewrite register_normal.
    assert (Hplain : bool_decide
                       (strOr (Scene.name obj)
                          ("body-" +:+ pretty (size (bodiesMap st1)))
                        = "__proto__") = false).
    { apply bool_decide_eq_false. unfold strOr.
      destruct (Scene.name obj) as [name|]; [|discriminate].
      destruct (bool_decide (name = "")); [discriminate|congruence]. }
    destruct (isStatic && _); sim; rewrite Hplain; exact Hp1.
Qed.

Lemma objects_proto sx sy (objects : list Scene.Object) :
  forall st,
  Forall (fun obj => Scene.name obj <> Some "__proto__") objects ->
  bodiesProto (fold_left (processObject sx sy) objects st) = bodiesProto st.
Proof.
  induction objects as [|obj objects IH]; intros st Hnames; simpl; [reflexivity|].
  inversion Hnames as [|? ? Hobj Hrest]; subst.
  rewrite IH by exact Hrest. apply processObject_proto, Hobj.
Qed.

(** The scene gets built when no object is named [__proto__] and no
    constraint names a key of [Object.prototype]; and what building it can
    throw is a [TypeError]. *)
Lemma buildScene_returns container objects constraints imageRect naturalSize :
  (Forall (fun obj => Scene.name obj <> Some "__proto__") objects ->
   Forall (fun c => plainNames c = true) constraints ->
   exists scene,
     buildScene container objects constraints imageRect naturalSize = Normal scene)
  /\ forall e,
       buildScene container objects constraints imageRect naturalSize = Throw e ->
       e = TypeError.
Proof.
  unfold buildScene, buildConstraints. cbv zeta.
  set (sx := scaleX _ _). set (sy := scaleY _ _).
  destruct (0 <? length constraints)%nat; [|split; [eauto|discriminate]].
  split.
  - intros Hobjects Hplain.
    destruct (forEach_plain sx sy (combine (seq 0 (length constraints)) constraints)
                (log ("[约束系统] 开始创建 " +:+ pretty (length constraints)
                      +:+ " 个约束")
                   (fold_left (processObject sx sy) objects
                      (createRender container imageRect))))
      as (st' & Hrun).
    + sim. rewrite objects_proto by exact Hobjects. reflexivity.
    + clear Hobjects. generalize 0%nat.
      induction Hplain as [|c constraints' Hc Hrest IH]; intros n; simpl;
        constructor; [exact Hc|apply IH].
    + rewrite Hrun. simpl. eauto.
  - intros e Hrun.
    match type of Hrun with
    | context [forEach ?f ?l ?st] => destruct (forEach f l st) eqn:Hloop
    end; simpl in Hrun; [discriminate| |discriminate].
    injection Hrun as <-. eapply forEach_throws. exact Hloop.
Qed.

(** C7 as stated fails: called without a render surface and with no
    object, [runSimulation] returns the handle of a running simulation, its
    canvas mounted on the document body, the four walls in its world. *)
Lemma no_surface_counterexample :
  exists st handle,
    runSimulation None [] [] None unknownSize = Normal (st, handle)
    /\ summary handle = "模拟运行中：对象数=0"
    /\ running st = true
    /\ beforeUpdate st = true
    /\ canvas st = Some {| element := DocumentBody; canvasWidth := 640;
                           canvasHeight := 360; offX := 0; offY := 0 |}
    /\ world_bodies st = [0; 1; 2; 3]%nat.
Proof.
  eexists _, _. split; [vm_compute; reflexivity|].
  vm_compute. repeat split; reflexivity.
Qed.

(** C7, amended. [runSimulation] has no error result: it returns the
    handle of a running simulation or it throws.  It returns whenever no
    object is named [__proto__] and no constraint names a key of
    [Object.prototype], and what it can throw is the [TypeError] of
    [Constraint.create].  When it returns, the runner is started, the hook
    registered and the handle has the summary of a running simulation;
    without a render surface the canvas is mounted on the document body
    (640 by 360 when no image rectangle is given either), and with an empty
    object list the four boundary walls are created and put in the world
    after what the constraints built. *)
Theorem runSimulation_returns_handle container objects constraints imageRect
    naturalSize :
  let run := runSimulation container objects constraints imageRect naturalSize in
  (Forall (fun obj => Scene.name obj <> Some "__proto__") objects ->
   Forall (fun c => plainNames c = true) constraints ->
   exists st handle, run = Normal (st, handle))
  /\ (forall e, run = Throw e -> e = TypeError)
  /\ (forall st handle, run = Normal (st, handle) ->
      running st = true
      /\ beforeUpdate st = true
      /\ summary handle
         = "模拟运行中：对象数=" +:+ pretty (length objects)
           +:+ (if (0 <? length constraints)%nat
                then "，约束数=" +:+ pretty (length constraints) else "")
      /\ (container = None ->
          exists cv, canvas st = Some cv /\ element cv = DocumentBody
                     /\ (imageRect = None ->
                         canvasWidth cv = 640 /\ canvasHeight cv = 360))
      /\ (objects = [] ->
          exists scene,
            buildScene container objects constraints imageRect naturalSize
            = Normal scene
            /\ bodies st
               = bodies scene
                 ++ boundaryWalls (viewWidth container imageRect)
                      (viewHeight container imageRect)
            /\ world_bodies st
               = world_bodies scene ++ seq (length (bodies scene)) 4)).
Proof.
  cbv zeta.
  destruct (buildScene_returns container objects constraints imageRect naturalSize)
    as (Hreturns & Hthrows).
  split; [|split].
  - intros Hobjects Hplain.
    destruct (Hreturns Hobjects Hplain) as (scene & Hscene).
    unfold runSimulation. cbv zeta. rewrite Hscene. simpl.
    unfold startSimulation. eauto.
  - intros e. unfold runSimulation. cbv zeta.
    destruct (buildScene container objects constraints imageRect naturalSize)
      as [scene|e'|] eqn:Hscene; simpl; [discriminate| |discriminate].
    intros [= <-]. apply Hthrows. reflexivity.
  - intros st handle Hrun.
    apply runSimulation_Normal in Hrun as (scene & Hscene & Heq).
    destruct (buildScene_effect _ _ _ _ _ _ Hscene) as (_ & Hflag & Hcanvas).
    unfold startSimulation in Heq. injection Heq as -> ->.
    cbn [summary].
    remember (viewWidth container imageRect) as width eqn:Hwidth.
    remember (viewHeight container imageRect) as height eqn:Hheight.
    assert (Hcv : canvas (if negb (hasStatic scene)
                          then addWalls width height scene else scene)
                  = canvas (createRender container imageRect)).
    { destruct (negb (hasStatic scene)); [|exact Hcanvas].
      destruct (addWalls_effect width height scene) as (_ & Hc & _).
      rewrite Hc. exact Hcanvas. }
    assert (Hbd : objects = [] ->
                  bodies (if negb (hasStatic scene)
                          then addWalls width height scene else scene)
                  = bodies scene ++ boundaryWalls width height
                  /\ world_bodies (if negb (hasStatic scene)
                                   then addWalls width height scene else scene)
                     = world_bodies scene ++ seq (length (bodies scene)) 4).
    { intros ->. rewrite Hflag. cbn [existsb negb].
      destruct (addWalls_effect width height scene) as (Hb & _ & _ & Hw).
      split; assumption. }
    revert Hcv Hbd.
    generalize (if negb (hasStatic scene)
                then addWalls width height scene else scene).
    intros final Hcv Hbd. sim.
    split; [reflexivity|]. split; [reflexivity|]. split; [reflexivity|]. split.
    + intros ->. rewrite Hcv. unfold createRender. sim.
      eexists. split; [reflexivity|]. split; [reflexivity|].
      intros ->. split; reflexivity.
    + intros Hempty. exists scene. split; [exact Hscene|]. exact (Hbd Hempty).
Qed.

(** Without a render surface and with no object, a handle is returned. *)
Lemma runSimulation_returns_handle_witness :
  exists st handle,
    runSimulation None [] [] None unknownSize = Normal (st, handle)
    /\ running st = true
    /\ exists cv, canvas st = Some cv /\ element cv = DocumentBody.
Proof.
  destruct (runSimulation_returns_handle None [] [] None unknownSize)
    as (Hreturns & _ & Hhandle).
  destruct (Hreturns ltac:(constructor) ltac:(constructor)) as (st & handle & Hrun).
  exists st, handle. split; [exact Hrun|].
  destruct (Hhandle st handle Hrun) as (Hrunning & _ & _ & Hcanvas & _).
  split; [exact Hrunning|].
  destruct (Hcanvas eq_refl) as (cv & Hcv & Hel & _). eauto.
Defined.

(** ** The conveyor hook *)

(** What the hook does to a body riding a conveyor of the given speed. *)
Definition conveyed (speed : Q) (b : Matter.Body) : Matter.Body :=
  Matter.setAngularVelocity
    (Matter.setVelocity b (Pt speed (y (Matter.velocity b)))) 0.

(** The pair is a contact between the conveyor [conv] and the body [other]:
    exactly one of the two is tagged. *)
Definition conveyorContact (st : Sim) (pair : nat * nat) (conv other : nat) : Prop :=
  (pair = (conv, other) \/ pair = (other, conv))
  /\ isConv st conv = true /\ isConv st other = false.

(** The speed configured for the conveyor body [conv]: the body is
    registered in the name table, under one name, and that name carries
    [speed] in [conveyorParams]. *)
Definition configuredSpeed (st : Sim) (conv : nat) (speed : Q) : Prop :=
  exists name,
    bodiesMap st !! name = Some conv
    /\ (forall name', bodiesMap st !! name' = Some conv -> name' = name)
    /\ conveyorParams st !! name = Some speed.

(** What the hook keeps of a body. *)
Definition bodyKept (b b' : Matter.Body) : Prop :=
  Matter.label b' = Matter.label b
  /\ Matter.isStatic b' = Matter.isStatic b
  /\ y (Matter.velocity b') = y (Matter.velocity b)
  /\ (Matter.angularVelocity b = 0 -> Matter.angularVelocity b' = 0).

(** What the hook keeps of the state: everything but the bodies, and of
    each body what [bodyKept] says. *)
Definition hookKeeps (st st' : Sim) : Prop :=
  st' = upd_bodies (fun _ => bodies st') st
  /\ forall id,
       match bodies st !! id, bodies st' !! id with
       | Some b, Some b' => bodyKept b b'
       | None, None => True
       | _, _ => False
       end.

Lemma hookKeeps_refl st : hookKeeps st st.
Proof.
  split; [destruct st; reflexivity|].
  intros id. destruct (bodies st !! id); [repeat split; auto|exact I].
Qed.

Lemma hookKeeps_trans st1 st2 st3 :
  hookKeeps st1 st2 -> hookKeeps st2 st3 -> hookKeeps st1 st3.
Proof.
  intros [Heq1 Hb1] [Heq2 Hb2]. split.
  - rewrite Heq2 at 1. rewrite Heq1. reflexivity.
  - intros id. specialize (Hb1 id). specialize (Hb2 id).
    destruct (bodies st1 !! id), (bodies st2 !! id), (bodies st3 !! id);
      try contradiction; try exact I.
    destruct Hb1 as (? & ? & ? & ?), Hb2 as (? & ? & ? & ?).
    repeat split; try congruence. auto.
Qed.

Lemma hookKeeps_isConv st st' id : hookKeeps st st' -> isConv st' id = isConv st id.
Proof.
  intros [_ Hb]. specialize (Hb id). unfold isConv.
  destruct (bodies st !! id), (bodies st' !! id); try contradiction; [|reflexivity].
  destruct Hb as (-> & _). reflexivity.
Qed.

Lemma hookKeeps_speed st st' conv :
  hookKeeps st st' -> conveyorSpeed st' conv = conveyorSpeed st conv.
Proof.
  intros [Heq _]. unfold conveyorSpeed. rewrite Heq. reflexivity.
Qed.

Lemma conveyorSpeed_configured st conv speed :
  configuredSpeed st conv speed -> conveyorSpeed st conv == speed.
Proof.
  intros (name & Hname & Hunique & Hspeed). unfold conveyorSpeed.
  destruct (list_find_elem_of (fun e : string * nat => snd e = conv)
              (map_to_list (bodiesMap st)) (name, conv)) as [[i [name' b]] Hfind].
  { apply elem_of_map_to_list. exact Hname. }
  { reflexivity. }
  rewrite Hfind. apply list_find_Some in Hfind as (Hlook & Hb & _).
  simpl in Hb. subst b.
  apply list_elem_of_lookup_2, elem_of_map_to_list in Hlook.
  rewrite (Hunique name' Hlook), Hspeed. unfold or_else, falsy.
  destruct (Qeq_bool speed 0) eqn:Hzero; [|reflexivity].
  apply Qeq_bool_iff in Hzero. symmetry. exact Hzero.
Qed.

(** The two assignments of the loop body amount to one update. *)
Lemma convey_normal st otherBody other speed :
  bodies st !! otherBody = Some other ->
  updBody otherBody (fun b => Matter.setAngularVelocity b 0)
    (updBody otherBody
       (fun b => Matter.setVelocity b (Pt speed (y (Matter.velocity b)))) st)
  = upd_bodies (fun l => <[otherBody := conveyed speed other]> l) st.
Proof.
  intros Hother.
  assert (Hlt : (otherBody < length (bodies st))%nat)
    by (apply lookup_lt_is_Some; eauto).
  destruct st. unfold updBody, upd_bodies. cbn [bodies] in *.
  rewrite Hother, list_lookup_insert_eq by exact Hlt.
  rewrite list_insert_insert_eq. reflexivity.
Qed.

(** One turn of the loop on a contact: the other body is conveyed. *)
Lemma conveyPair_contact st pair conv other ob :
  conveyorContact st pair conv other ->
  bodies st !! other = Some ob -> Matter.isStatic ob = false ->
  bodies (conveyPair st pair) !! other
  = Some (conveyed (conveyorSpeed st conv) ob).
Proof.
  intros ([-> | ->] & Hconv & Hother) Hob Hdyn; unfold conveyPair;
    rewrite Hconv, Hother; cbn [negb andb]; rewrite Hob, Hdyn; cbv zeta;
    rewrite (convey_normal st other ob _ Hob); sim;
    apply list_lookup_insert_eq, lookup_lt_is_Some; eauto.
Qed.

Lemma conveyPair_keeps st pair :
  hookKeeps st (conveyPair st pair)
  /\ forall id, fst pair <> id -> snd pair <> id ->
                bodies (conveyPair st pair) !! id = bodies st !! id.
Proof.
  destruct pair as [bodyA bodyB]. unfold conveyPair.
  destruct (negb (isConv st bodyA) && negb (isConv st bodyB));
    [split; [apply hookKeeps_refl|reflexivity]|].
  set (conveyorBody := if isConv st bodyA then bodyA else bodyB).
  set (otherBody := if isConv st bodyA then bodyB else bodyA).
  destruct (bodies st !! otherBody) as [other|] eqn:Hother;
    [|split; [apply hookKeeps_refl|reflexivity]].
  destruct (Matter.isStatic other) eqn:Hdyn;
    [split; [apply hookKeeps_refl|reflexivity]|].
  cbv zeta. rewrite (convey_normal st otherBody other _ Hother).
  assert (Hlt : (otherBody < length (bodies st))%nat)
    by (apply lookup_lt_is_Some; eauto).
  split; [split|].
  - sim. destruct st; reflexivity.
  - intros id. sim. destruct (decide (otherBody = id)) as [<-|Hne].
    + rewrite list_lookup_insert_eq by exact Hlt.
      rewrite Hother. repeat split.
    + rewrite list_lookup_insert_ne by exact Hne.
      destruct (bodies st !! id); [repeat split; auto|exact I].
  - intros id Ha Hb. simpl in Ha, Hb. sim.
    assert (Hne : otherBody <> id)
      by (unfold otherBody; destruct (isConv st bodyA); assumption).
    rewrite list_lookup_insert_ne by exact Hne. reflexivity.
Qed.

Lemma onBeforeUpdate_keeps pairs :
  forall st,
  hookKeeps st (onBeforeUpdate pairs st)
  /\ forall id, Forall (fun p => fst p <> id /\ snd p <> id) pairs ->
                bodies (onBeforeUpdate pairs st) !! id = bodies st !! id.
Proof.
  unfold onBeforeUpdate.
  induction pairs as [|pair pairs IH]; intros st; simpl.
  - split; [apply hookKeeps_refl|reflexivity].
  - destruct (conveyPair_keeps st pair) as [Hk1 Hu1].
    destruct (IH (conveyPair st pair)) as [Hk2 Hu2].
    split; [eapply hookKeeps_trans; eassumption|].
    intros id Hall. inversion Hall as [|? ? [Ha Hb] Hrest]; subst.
    rewrite Hu2 by exact Hrest. apply Hu1; assumption.
Qed.

(** The name table of a state built by [runSimulation]: its bodies exist
    and no body is registered under two names. *)
Definition namesSound (st : Sim) : Prop :=
  (forall name b, bodiesMap st !! name = Some b -> (b < length (bodies st))%nat)
  /\ (forall name1 name2 b,
        bodiesMap st !! name1 = Some b -> bodiesMap st !! name2 = Some b ->
        name1 = name2).

Lemma namesSound_grow st st' newBodies :
  namesSound st -> bodies st' = bodies st ++ newBodies ->
  bodiesMap st' = bodiesMap st -> namesSound st'.
Proof.
  intros [Hrange Hinj] Hb Hm. split.
  - intros name b Hlook. rewrite Hm in Hlook. rewrite Hb, length_app.
    specialize (Hrange name b Hlook). lia.
  - intros name1 name2 b H1 H2. rewrite Hm in H1, H2. eauto.
Qed.

Lemma namesSound_insert st st' name b :
  namesSound st -> bodies st' = bodies st ++ [b] ->
  bodiesMap st' = <[name := length (bodies st)]> (bodiesMap st) ->
  namesSound st'.
Proof.
  intros [Hrange Hinj] Hb Hm. split.
  - intros name' b' Hlook. rewrite Hm in Hlook. rewrite Hb, length_app. simpl.
    apply lookup_insert_Some in Hlook as [[_ <-]|[_ Hlook]]; [lia|].
    specialize (Hrange name' b' Hlook). lia.
  - intros name1 name2 b' H1 H2. rewrite Hm in H1, H2.
    apply lookup_insert_Some in H1 as [[<- <-]|[Hne1 H1]];
      apply lookup_insert_Some in H2 as [[<- Heq]|[Hne2 H2]].
    + reflexivity.
    + specialize (Hrange name2 _ H2). lia.
    + subst b'. specialize (Hrange name1 _ H1). lia.
    + eauto.
Qed.

Lemma objects_names sx sy (objects : list Scene.Object) :
  forall st, namesSound st -> namesSound (fold_left (processObject sx sy) objects st).
Proof.
  induction objects as [|obj objects IH]; intros st Hst; simpl; [exact Hst|].
  apply IH.
  destruct (processObject_effect sx sy st obj)
    as (newBodies & Hb & _ & _ & _ & _ & _ & _ & [Hm|(name & b & -> & Hm)]).
  - eapply namesSound_grow; eassumption.
  - eapply namesSound_insert; eassumption.
Qed.

Lemma startSimulation_names width height objects constraints scene :
  namesSound scene ->
  namesSound (fst (startSimulation width height objects constraints scene)).
Proof.
  intros Hscene. unfold startSimulation. cbn [fst].
  assert (Hfinal : namesSound
            (if negb (hasStatic scene) then addWalls width height scene
             else scene)).
  { destruct (negb (hasStatic scene)); [|exact Hscene].
    destruct (addWalls_effect width height scene) as (Hb & _ & Hm & _).
    eapply namesSound_grow; eassumption. }
  revert Hfinal.
  generalize (if negb (hasStatic scene) then addWalls width height scene
              else scene).
  intros final Hfinal.
  eapply (namesSound_grow _ _ []); [exact Hfinal| |]; sim;
    [rewrite app_nil_r|]; reflexivity.
Qed.

Lemma runSimulation_names container objects constraints imageRect naturalSize
    st handle :
  runSimulation container objects constraints imageRect naturalSize
  = Normal (st, handle) ->
  namesSound st.
Proof.
  intros Hrun. apply runSimulation_Normal in Hrun as (scene & Hscene & Heq).
  change st with (fst (st, handle)). rewrite Heq.
  apply startSimulation_names.
  unfold buildScene in Hscene. cbv zeta in Hscene.
  set (sx := scaleX _ _) in Hscene. set (sy := scaleY _ _) in Hscene.
  pose proof (objects_names sx sy objects (createRender container imageRect))
    as Hobjects.
  apply buildConstraints_effect in Hscene as ((newBodies & Hb & _) & _ & Hm & _).
  eapply namesSound_grow; [apply Hobjects|exact Hb|exact Hm].
  split; [intros name b Hlook|intros name1 name2 b Hlook];
    unfold createRender, emptySim in Hlook; sim;
    rewrite lookup_empty in Hlook; discriminate Hlook.
Qed.

(** A conveyor belt moving at speed 3 and a box thrown onto it. *)
Definition belt : Scene.Object :=
  sceneObject "belt" "static" [Pt 0 300; Pt 600 300; Pt 600 320; Pt 0 320] false
    {| Scene.mass_kg := None; Scene.restitution := None;
       Scene.friction_coefficient := None; Scene.air_drag := None;
       Scene.initial_velocity_px_s := None; Scene.initial_velocity_m_s := None;
       Scene.initial_velocity_y_px_s := None;
       Scene.initial_angular_velocity_rad_s := None;
       Scene.conveyor_speed := Some 3 |}.

Definition box : Scene.Object :=
  sceneObject "box" "dynamic" [Pt 100 260; Pt 140 260; Pt 140 300; Pt 100 300]
    false
    {| Scene.mass_kg := Some 2; Scene.restitution := None;
       Scene.friction_coefficient := None; Scene.air_drag := None;
       Scene.initial_velocity_px_s := Some (-7); Scene.initial_velocity_m_s := None;
       Scene.initial_velocity_y_px_s := Some 2;
       Scene.initial_angular_velocity_rad_s := Some 1;
       Scene.conveyor_speed := None |}.

(** A second object that is given the belt's name: the box again. *)
Definition namesake : Scene.Object :=
  sceneObject "belt" "dynamic" [Pt 100 260; Pt 140 260; Pt 140 300; Pt 100 300]
    false (Scene.parameters box).

(** The speed the hook finds for the conveyor body [conv]: the one recorded
    under a name the body is registered under (0 when nothing is recorded
    under it), and 0 when the body is registered under no name. *)
Definition foundSpeed (st : Sim) (conv : nat) (speed : Q) : Prop :=
  (exists name,
     bodiesMap st !! name = Some conv
     /\ speed == nullish (conveyorParams st !! name) 0)
  \/ ((forall name, bodiesMap st !! name <> Some conv) /\ speed == 0).

Lemma conveyorSpeed_found st conv : foundSpeed st conv (conveyorSpeed st conv).
Proof.
  unfold foundSpeed, conveyorSpeed.
  destruct (list_find (fun e : string * nat => snd e = conv)
              (map_to_list (bodiesMap st))) as [[i [name b]]|] eqn:Hfind.
  - apply list_find_Some in Hfind as (Hlook & Hb & _). simpl in Hb. subst b.
    apply list_elem_of_lookup_2, elem_of_map_to_list in Hlook.
    left. exists name. split; [exact Hlook|].
    destruct (conveyorParams st !! name) as [cfg|]; [|reflexivity].
    unfold or_else, falsy, nullish.
    destruct (Qeq_bool cfg 0) eqn:Hzero; [|reflexivity].
    apply Qeq_bool_iff in Hzero. symmetry. exact Hzero.
  - right. split; [|reflexivity]. intros name Hname.
    apply list_find_None in Hfind. rewrite Forall_forall in Hfind.
    apply (Hfind (name, conv)); [|reflexivity].
    apply elem_of_map_to_list. exact Hname.
Qed.




(** ** The convex hull and its rounding *)

(** A point with integer coordinates, as [scaleContour] produces them. *)
Definition integerPoint (p : Point) : Prop :=
  exists a b : Z, p = Pt (inject_Z a) (inject_Z b).

Lemma Math_round_integer (a : Z) : Math_round (inject_Z a) = inject_Z a.
Proof.
  unfold Math_round, Qfloor, Qplus, inject_Z. simpl. f_equal.
  change (Z.pos (1 * 2)) with 2%Z.
  replace (a * 2 + 1 * 1)%Z with (1 + a * 2)%Z by lia.
  rewrite Z.div_add by lia. reflexivity.
Qed.

Lemma scaleContour_integer sx sy raw : Forall integerPoint (scaleContour sx sy raw).
Proof.
  unfold scaleContour. apply Forall_forall. intros p Hp.
  apply list_elem_of_In, in_map_iff in Hp as (q & <- & _).
  eexists _, _. reflexivity.
Qed.

Lemma insertVertex_In v a sorted : In v (insertVertex a sorted) -> v = a \/ In v sorted.
Proof.
  induction sorted as [|w rest IH]; simpl.
  - intros [<-|[]]. left; reflexivity.
  - destruct (vertex_le a w); simpl.
    + intros [<-|[<-|H]]; auto.
    + intros [<-|H]; [auto|]. destruct (IH H); auto.
Qed.

Lemma sortVertices_In v vertices : In v (sortVertices vertices) -> In v vertices.
Proof.
  induction vertices as [|a vertices IH]; simpl; [auto|].
  intros H. apply insertVertex_In in H as [->|H]; auto.
Qed.

Lemma popWhile_In v vertex chain : In v (popWhile chain vertex) -> In v chain.
Proof.
  induction chain as [|last rest IH]; simpl; [auto|].
  destruct rest as [|before rest']; [auto|].
  destruct (Qle_bool (cross3 before last vertex) 0); [|auto].
  intros H. right. apply IH. exact H.
Qed.

Lemma buildChain_In v vertices :
  forall chain,
  In v (fold_left (fun chain vertex => vertex :: popWhile chain vertex) vertices chain) ->
  In v chain \/ In v vertices.
Proof.
  induction vertices as [|a vertices IH]; intros chain; simpl; [auto|].
  intros H. apply IH in H as [[<-|H]|H]; auto.
  apply popWhile_In in H. auto.
Qed.

Lemma removelast_In {A} (v : A) (l : list A) : In v (removelast l) -> In v l.
Proof.
  induction l as [|a l IH]; simpl; [auto|].
  destruct l as [|b l]; [intros []|].
  intros [<-|H]; auto.
Qed.

(** The vertices of the backend's hull are input points. *)
Lemma Vertices_hull_In v vertices : In v (Vertices_hull vertices) -> In v vertices.
Proof.
  unfold Vertices_hull, buildChain. intros H.
  apply in_app_or in H as [H|H]; apply removelast_In, in_rev in H;
    apply buildChain_In in H as [[]|H].
  - apply in_rev in H. apply sortVertices_In. exact H.
  - apply sortVertices_In. exact H.
Qed.

(** On integer points the rounding of [toConvexHull] changes nothing. *)
Lemma toConvexHull_integer (points : list Point) :
  Forall integerPoint points -> toConvexHull points = Vertices_hull points.
Proof.
  intros Hint. unfold toConvexHull.
  rewrite <- (map_id (Vertices_hull points)) at 2.
  apply map_ext_in. intros v Hv.
  apply Vertices_hull_In in Hv.
  rewrite Forall_forall in Hint.
  destruct (Hint v) as (a & b & ->); [apply list_elem_of_In; exact Hv|].
  simpl. rewrite !Math_round_integer. reflexivity.
Qed.

(** ** The backend's hull contains its input *)

(** The order of the sort. *)
Definition lexle (a b : Point) : Prop :=
  x a < x b \/ (x a == x b /\ y a <= y b).

Lemma vertex_le_true a b : vertex_le a b = true <-> lexle a b.
Proof.
  unfold vertex_le, lexle.
  destruct (Qeq_bool (x a - x b) 0) eqn:Hx.
  - apply Qeq_bool_iff in Hx. rewrite Qle_bool_iff. split.
    + intros Hy. right. split; lra.
    + intros [Hlt|[_ Hy]]; lra.
  - apply Qeq_bool_neq in Hx. rewrite Qle_bool_iff. split.
    + intros Hle. left. lra.
    + intros [Hlt|[Heq _]]; [lra|]. destruct Hx. lra.
Qed.

Lemma lexle_refl a : lexle a a.
Proof. right. split; lra. Qed.

Lemma lexle_trans a b c : lexle a b -> lexle b c -> lexle a c.
Proof. unfold lexle. intros [H1|[H1 H1']] [H2|[H2 H2']]; [left; lra..|right; lra]. Qed.

Lemma lexle_total a b : lexle a b \/ lexle b a.
Proof.
  unfold lexle.
  destruct (Qlt_le_dec (x a) (x b)) as [Hlt|Hge]; [left; left; exact Hlt|].
  destruct (Qlt_le_dec (x b) (x a)) as [Hlt|Hle]; [right; left; exact Hlt|].
  destruct (Qlt_le_dec (y b) (y a)) as [Hy|Hy].
  - right. right. split; lra.
  - left. right. split; lra.
Qed.

(** What the chain needs of the order in which it meets the vertices: the
    order of the sort for the lower chain, its converse for the upper. *)
Record ChainOrder (le below : Point -> Point -> Prop) : Prop := {
  order_refl : forall a, le a a;
  order_trans : forall a b c, le a b -> le b c -> le a c;
  order_total : forall a b, le a b \/ le b a;
  order_same : forall c v p, le c p -> le p c -> 0 <= cross3 c v p;
  order_four : forall a b c d,
    le a b -> le b c -> le c d ->
    0 < cross3 a b c -> 0 < cross3 b c d -> 0 < cross3 a b d;
  order_last : forall b c v p,
    le b c -> le c v -> le p c ->
    0 <= cross3 b c p -> 0 < cross3 b c v -> 0 <= cross3 c v p;
  order_between : forall a b v p,
    le a p -> le p b -> le b v ->
    0 <= cross3 a b p -> cross3 a b v <= 0 -> 0 <= cross3 a v p;
  below_refl : forall p, below p p;
  below_pop : forall a b v p,
    le a b -> le b v -> cross3 a b v <= 0 ->
    below b p -> below a p \/ below v p
}.

Ltac chain_algebra :=
  unfold cross3, lexle;
  repeat match goal with p : Point |- _ => destruct p as [? ?] end;
  cbn [x y]; intros;
  repeat match goal with
         | H : _ \/ _ |- _ => destruct H
         | H : _ /\ _ |- _ => destruct H
         end;
  nra.

Lemma lexle_same c v p : lexle c p -> lexle p c -> 0 <= cross3 c v p.
Proof.
  unfold lexle, cross3. intros [H1|[Hx Hy]] [H2|[Hx' Hy']]; try lra.
  assert (E1 : y p - y c == 0) by lra.
  assert (E2 : x p - x c == 0) by lra.
  rewrite E1, E2. lra.
Qed.

Lemma lexle_order : ChainOrder lexle (fun c p => y c <= y p).
Proof.
  split.
  - exact lexle_refl.
  - exact lexle_trans.
  - exact lexle_total.
  - apply lexle_same.
  - chain_algebra.
  - chain_algebra.
  - chain_algebra.
  - intros p. lra.
  - intros a b v p Hab Hbv Hcross Hb.
    destruct (Qlt_le_dec (y b) (y a)) as [Hlow|Hlow]; [|left; lra].
    destruct (Qlt_le_dec (y b) (y v)) as [Hlow'|Hlow']; [|right; lra].
    exfalso. unfold cross3 in Hcross.
    assert (Hx : 0 < x b - x a) by (destruct Hab as [?|[? ?]]; lra).
    assert (Hx' : 0 <= x v - x b) by (destruct Hbv as [?|[? ?]]; lra).
    assert (Hy : 0 < y v - y b) by lra.
    pose proof (Qmult_lt_0_compat _ _ Hx Hy).
    assert (Hup : 0 <= y a - y b) by lra.
    pose proof (Qmult_le_0_compat _ _ Hup Hx'). nra.
Qed.

Lemma lexge_order : ChainOrder (fun a b => lexle b a) (fun c p => y p <= y c).
Proof.
  split.
  - intros a. apply lexle_refl.
  - intros a b c Hab Hbc. exact (lexle_trans c b a Hbc Hab).
  - intros a b. destruct (lexle_total a b); auto.
  - intros c v p H1 H2. apply lexle_same; assumption.
  - chain_algebra.
  - chain_algebra.
  - chain_algebra.
  - intros p. lra.
  - intros a b v p Hab Hbv Hcross Hb.
    destruct (Qlt_le_dec (y a) (y b)) as [Hhigh|Hhigh]; [|left; lra].
    destruct (Qlt_le_dec (y v) (y b)) as [Hhigh'|Hhigh']; [|right; lra].
    exfalso. unfold cross3 in Hcross.
    assert (Hx : 0 < x a - x b) by (destruct Hab as [?|[? ?]]; lra).
    assert (Hx' : 0 <= x b - x v) by (destruct Hbv as [?|[? ?]]; lra).
    assert (Hy : 0 < y b - y v) by lra.
    pose proof (Qmult_lt_0_compat _ _ Hx Hy).
    assert (Hup : 0 <= y b - y a) by lra.
    pose proof (Qmult_le_0_compat _ _ Hup Hx'). nra.
Qed.

(** The edges of a chain, which is kept with its last vertex first. *)
Fixpoint chainEdges (chain : list Point) : list (Point * Point) :=
  match chain with
  | last :: ((before :: _) as rest) => (before, last) :: chainEdges rest
  | _ => []
  end.

(** Every three consecutive vertices of the chain turn left. *)
Fixpoint turnsLeft (chain : list Point) : Prop :=
  match chain with
  | c :: ((b :: a :: _) as rest) => 0 < cross3 a b c /\ turnsLeft rest
  | _ => True
  end.

Lemma popWhile_last chain v : last (popWhile chain v) = last chain.
Proof.
  induction chain as [|c rest IH]; [reflexivity|].
  destruct rest as [|b rest]; [reflexivity|].
  change (popWhile (c :: b :: rest) v)
    with (if Qle_bool (cross3 b c v) 0 then popWhile (b :: rest) v
          else c :: b :: rest).
  destruct (Qle_bool (cross3 b c v) 0); [|reflexivity].
  rewrite IH. reflexivity.
Qed.

Section Chain.
Variables le below : Point -> Point -> Prop.
Hypothesis order : ChainOrder le below.

Fixpoint ascending (l : list Point) : Prop :=
  match l with
  | [] => True
  | a :: rest => Forall (le a) rest /\ ascending rest
  end.

Fixpoint descending (chain : list Point) : Prop :=
  match chain with
  | [] => True
  | c :: rest => Forall (fun b => le b c) rest /\ descending rest
  end.

(** The chain after the vertices [P], the first of which is [s0]. *)
Record chainInv (s0 : Point) (P chain : list Point) : Prop := {
  inv_last : last chain = Some s0;
  inv_desc : descending chain;
  inv_turns : turnsLeft chain;
  inv_in : forall c, In c chain -> In c P;
  inv_head : match chain with
             | c :: _ => forall p, In p P -> le p c
             | [] => False
             end;
  inv_first : forall p, In p P -> le s0 p;
  inv_left : forall p e,
    In p P -> In e (chainEdges chain) -> 0 <= cross3 (fst e) (snd e) p;
  inv_below : forall p, In p P -> exists c, In c chain /\ below c p
}.

(** A vertex past a chain that turns left at its end is to the left of
    all its edges. *)
Lemma turnsLeft_sees (v : Point) :
  forall chain,
  descending chain -> Forall (fun c => le c v) chain -> turnsLeft chain ->
  match chain with c :: b :: _ => 0 < cross3 b c v | _ => True end ->
  forall e, In e (chainEdges chain) -> 0 < cross3 (fst e) (snd e) v.
Proof.
  induction chain as [|c rest IH]; [intros _ _ _ _ e []|].
  destruct rest as [|b rest]; [intros _ _ _ _ e []|].
  intros [Hc Hdesc] Hv Hturns Hend e [<-|He]; [exact Hend|].
  apply (IH Hdesc); [inversion Hv; assumption| | |exact He].
  - destruct rest as [|a rest]; [exact I|]. apply Hturns.
  - destruct rest as [|a rest]; [exact I|].
    destruct Hturns as [Hturn _]. destruct Hdesc as [Hb _].
    inversion Hc as [|? ? Hbc _]; subst. inversion Hb as [|? ? Hab _]; subst.
    inversion Hv as [|? ? Hcv _]; subst.
    exact (order_four _ _ order a b c v Hab Hbc Hcv Hturn Hend).
Qed.

(** The [while] loop, with the vertex [v] that is about to be pushed. *)
Lemma popWhile_inv (P : list Point) (v : Point) :
  forall chain,
  chain <> [] -> descending chain -> turnsLeft chain ->
  Forall (fun c => le c v) chain ->
  (forall p e, In p P -> In e (chainEdges chain) ->
               0 <= cross3 (fst e) (snd e) p) ->
  (forall p, In p P -> exists c, In c (v :: chain) /\ below c p) ->
  match chain with
  | c :: _ => forall p, In p P -> le p c \/ 0 <= cross3 c v p
  | [] => True
  end ->
  (forall c, In c (popWhile chain v) -> In c chain)
  /\ descending (popWhile chain v) /\ turnsLeft (popWhile chain v)
  /\ (forall e, In e (chainEdges (popWhile chain v)) ->
                In e (chainEdges chain))
  /\ (forall p, In p P -> exists c, In c (v :: popWhile chain v) /\ below c p)
  /\ match popWhile chain v with
     | c :: rest =>
         (forall p, In p P -> le p c \/ 0 <= cross3 c v p)
         /\ match rest with b :: _ => 0 < cross3 b c v | [] => True end
     | [] => False
     end.
Proof.
  induction chain as [|c rest IH]; [intros H; destruct H; reflexivity|].
  destruct rest as [|b rest].
  { intros _ Hdesc Hturns Hv Hleft Hbelow Hseen. simpl.
    repeat split; auto. }
  intros _ Hdesc Hturns Hv Hleft Hbelow Hseen.
  change (popWhile (c :: b :: rest) v)
    with (if Qle_bool (cross3 b c v) 0 then popWhile (b :: rest) v
          else c :: b :: rest).
  destruct (Qle_bool (cross3 b c v) 0) eqn:Hpop.
  - apply Qle_bool_iff in Hpop.
    destruct Hdesc as [Hc Hdesc].
    inversion Hc as [|? ? Hbc _]; subst.
    inversion Hv as [|? ? Hcv Hv']; subst.
    inversion Hv' as [|? ? Hbv _]; subst.
    destruct IH as (Hin & Hdesc' & Hturns' & Hedges & Hbelow' & Hend).
    + discriminate.
    + exact Hdesc.
    + destruct rest as [|a rest]; [exact I|apply Hturns].
    + exact Hv'.
    + intros p e Hp He. apply Hleft; [exact Hp|right; exact He].
    + intros p Hp. destruct (Hbelow p Hp) as (w & [<-|[<-|Hw]] & Hwp).
      * exists v. split; [left; reflexivity|exact Hwp].
      * destruct (below_pop _ _ order b c v p Hbc Hcv Hpop Hwp) as [Hlow|Hlow].
        -- exists b. split; [right; left; reflexivity|exact Hlow].
        -- exists v. split; [left; reflexivity|exact Hlow].
      * exists w. split; [right; exact Hw|exact Hwp].
    + intros p Hp.
      destruct (order_total _ _ order p b) as [Hpb|Hbp]; [left; exact Hpb|].
      right.
      assert (Hedge : 0 <= cross3 b c p)
        by (apply (Hleft p (b, c) Hp); left; reflexivity).
      destruct (Hseen p Hp) as [Hpc|Hcross].
      * exact (order_between _ _ order b c v p Hbp Hpc Hcv Hedge Hpop).
      * revert Hcross Hpop Hedge. clear. unfold cross3. intros. nra.
    + split; [intros w Hw; right; apply Hin; exact Hw|].
      split; [exact Hdesc'|]. split; [exact Hturns'|].
      split; [intros e He; right; apply Hedges; exact He|].
      split; [exact Hbelow'|exact Hend].
  - assert (Hstop : 0 < cross3 b c v).
    { destruct (Qlt_le_dec 0 (cross3 b c v)) as [Hlt|Hle]; [exact Hlt|].
      apply Qle_bool_iff in Hle. congruence. }
    split; [auto|]. split; [exact Hdesc|]. split; [exact Hturns|].
    split; [auto|]. split; [exact Hbelow|]. split; [exact Hseen|exact Hstop].
Qed.

Lemma chain_step s0 P chain v :
  chainInv s0 P chain -> (forall p, In p P -> le p v) -> le s0 v ->
  chainInv s0 (v :: P) (v :: popWhile chain v).
Proof.
  intros [Hlast Hdesc Hturns Hin Hhead Hfirst Hleft Hbelow] Hv Hs0.
  assert (Hne : chain <> []) by (intros ->; discriminate Hlast).
  assert (Hchain : Forall (fun c => le c v) chain)
    by (apply List.Forall_forall; intros c Hc; apply Hv, Hin, Hc).
  destruct (popWhile_inv P v chain Hne Hdesc Hturns Hchain Hleft)
    as (Hin' & Hdesc' & Hturns' & Hedges & Hbelow' & Hend).
  { intros p Hp. destruct (Hbelow p Hp) as (c & Hc & Hcp).
    exists c. split; [right; exact Hc|exact Hcp]. }
  { destruct chain as [|c rest]; [exact I|].
    intros p Hp. left. apply Hhead, Hp. }
  pose proof (popWhile_last chain v) as Hlast'. rewrite Hlast in Hlast'.
  assert (Hchain' : Forall (fun c => le c v) (popWhile chain v))
    by (apply List.Forall_forall; intros c Hc; apply Hv, Hin, Hin', Hc).
  destruct (popWhile chain v) as [|c rest] eqn:Hpopped; [destruct Hend|].
  destruct Hend as [Hseen Hstop].
  split.
  - rewrite last_cons, Hlast'. reflexivity.
  - split; [exact Hchain'|exact Hdesc'].
  - destruct rest as [|b rest]; [exact I|]. split; [exact Hstop|exact Hturns'].
  - intros w [<-|Hw]; [left; reflexivity|right; apply Hin, Hin', Hw].
  - intros p [<-|Hp]; [apply (order_refl _ _ order)|apply Hv, Hp].
  - intros p [<-|Hp]; [exact Hs0|apply Hfirst, Hp].
  - assert (Hcv : le c v) by (inversion Hchain'; assumption).
    intros p e [<-|Hp] He.
    + destruct He as [<-|He].
      * cbn [fst snd]. unfold cross3. nra.
      * apply Qlt_le_weak.
        apply (turnsLeft_sees v (c :: rest) Hdesc' Hchain' Hturns'); [|exact He].
        destruct rest as [|b rest]; [exact I|exact Hstop].
    + destruct He as [<-|He]; [|apply Hleft; [exact Hp|apply Hedges, He]].
      cbn [fst snd].
      destruct (Hseen p Hp) as [Hpc|Hcross]; [|exact Hcross].
      destruct rest as [|b rest].
      * simpl in Hlast'. injection Hlast' as ->.
        apply (order_same _ _ order); [apply Hfirst, Hp|exact Hpc].
      * assert (Hbc : le b c)
          by (destruct Hdesc' as [Hc _]; inversion Hc; assumption).
        apply (order_last _ _ order b c v p Hbc Hcv Hpc); [|exact Hstop].
        apply (Hleft p (b, c) Hp), Hedges. left. reflexivity.
  - intros p [<-|Hp].
    + exists v. split; [left; reflexivity|apply (below_refl _ _ order)].
    + exact (Hbelow' p Hp).
Qed.

Lemma chain_fold s0 :
  forall rest P chain,
  chainInv s0 P chain -> ascending rest ->
  Forall (fun v => le s0 v /\ forall p, In p P -> le p v) rest ->
  chainInv s0 (rev rest ++ P)
    (fold_left (fun chain vertex => vertex :: popWhile chain vertex) rest chain).
Proof.
  induction rest as [|v rest IH]; intros P chain Hinv Hasc Hrest; [exact Hinv|].
  cbn [fold_left rev]. rewrite <- app_assoc. cbn [app].
  destruct Hasc as [Hv Hasc].
  inversion Hrest as [|? ? [Hs0 HP] Hrest']; subst.
  apply IH; [apply chain_step; assumption|exact Hasc|].
  rewrite List.Forall_forall in Hrest', Hv |- *.
  intros w Hw. destruct (Hrest' w Hw) as [Hs0w HPw].
  split; [exact Hs0w|].
  intros p [<-|Hp]; [apply Hv, Hw|apply HPw, Hp].
Qed.

(** The chain built from vertices in ascending order: every vertex is
    to the left of every edge, or on it. *)
Lemma buildChain_inv s0 rest :
  ascending (s0 :: rest) ->
  chainInv s0 (rev rest ++ [s0]) (buildChain (s0 :: rest)).
Proof.
  intros [Hs0 Hasc]. unfold buildChain. cbn [fold_left popWhile].
  apply chain_fold; [|exact Hasc|].
  - split.
    + reflexivity.
    + split; constructor.
    + exact I.
    + auto.
    + intros p [<-|[]]. apply (order_refl _ _ order).
    + intros p [<-|[]]. apply (order_refl _ _ order).
    + intros p e _ [].
    + intros p [<-|[]]. exists s0.
      split; [left; reflexivity|apply (below_refl _ _ order)].
  - rewrite List.Forall_forall in Hs0 |- *. intros v Hv.
    split; [apply Hs0, Hv|]. intros p [<-|[]]. apply Hs0, Hv.
Qed.

Lemma ascending_snoc l a :
  ascending l -> Forall (fun b => le b a) l -> ascending (l ++ [a]).
Proof.
  induction l as [|b l IH]; intros Hasc Hall; simpl; [split; constructor|].
  destruct Hasc as [Hb Hasc]. inversion Hall as [|? ? Hba Hall']; subst.
  split; [|apply IH; assumption].
  apply Forall_app. split; [exact Hb|constructor; [exact Hba|constructor]].
Qed.
End Chain.

Lemma ascending_rev (le : Point -> Point -> Prop) l :
  ascending le l -> ascending (fun a b => le b a) (rev l).
Proof.
  induction l as [|a l IH]; intros Hasc; simpl; [exact I|].
  destruct Hasc as [Ha Hasc]. apply ascending_snoc; [apply IH, Hasc|].
  rewrite List.Forall_forall in Ha |- *. intros b Hb. apply Ha, in_rev, Hb.
Qed.

(** The sort sorts. *)
Lemma insertVertex_elements a v sorted :
  In a (insertVertex v sorted) <-> a = v \/ In a sorted.
Proof.
  induction sorted as [|w rest IH]; simpl.
  - split; [intros [<-|[]]; left; reflexivity|intros [->|[]]; left; reflexivity].
  - destruct (vertex_le v w); simpl; rewrite ?IH; intuition congruence.
Qed.

Lemma sortVertices_elements v vertices :
  In v (sortVertices vertices) <-> In v vertices.
Proof.
  induction vertices as [|a vertices IH]; simpl; [reflexivity|].
  rewrite insertVertex_elements, IH. intuition congruence.
Qed.

Lemma insertVertex_length v sorted :
  length (insertVertex v sorted) = S (length sorted).
Proof.
  induction sorted as [|w rest IH]; simpl; [reflexivity|].
  destruct (vertex_le v w); simpl; [reflexivity|rewrite IH; reflexivity].
Qed.

Lemma sortVertices_length vertices :
  length (sortVertices vertices) = length vertices.
Proof.
  induction vertices as [|a vertices IH]; simpl; [reflexivity|].
  rewrite insertVertex_length, IH. reflexivity.
Qed.

Lemma insertVertex_ascending v sorted :
  ascending lexle sorted -> ascending lexle (insertVertex v sorted).
Proof.
  induction sorted as [|w rest IH]; intros Hasc; simpl.
  - split; constructor.
  - destruct Hasc as [Hw Hasc]. destruct (vertex_le v w) eqn:Hle.
    + apply vertex_le_true in Hle. split; [|split; assumption].
      constructor; [exact Hle|].
      eapply Forall_impl; [exact Hw|]. intros b Hb.
      exact (lexle_trans v w b Hle Hb).
    + assert (Hwv : lexle w v).
      { destruct (lexle_total w v) as [H|H]; [exact H|].
        apply vertex_le_true in H. congruence. }
      split; [|apply IH, Hasc].
      rewrite List.Forall_forall in Hw |- *. intros b Hb.
      apply insertVertex_elements in Hb as [->|Hb]; [exact Hwv|apply Hw, Hb].
Qed.

Lemma sortVertices_ascending vertices : ascending lexle (sortVertices vertices).
Proof.
  induction vertices as [|a vertices IH]; simpl; [exact I|].
  apply insertVertex_ascending, IH.
Qed.

(** Consecutive vertices. *)
Fixpoint adjacent (l : list Point) : list (Point * Point) :=
  match l with
  | a :: ((b :: _) as rest) => (a, b) :: adjacent rest
  | _ => []
  end.

Lemma adjacent_app A c B :
  adjacent (A ++ c :: B) = adjacent (A ++ [c]) ++ adjacent (c :: B).
Proof.
  induction A as [|a A IH]; [reflexivity|].
  destruct A as [|a' A]; [reflexivity|].
  change (adjacent ((a :: a' :: A) ++ c :: B))
    with ((a, a') :: adjacent ((a' :: A) ++ c :: B)).
  rewrite IH. reflexivity.
Qed.

Lemma edges_adjacent v0 rest :
  edges (v0 :: rest) = adjacent (v0 :: rest ++ [v0]).
Proof.
  unfold edges. generalize v0 at 1 3. generalize v0.
  induction rest as [|b rest IH]; intros z a; [reflexivity|].
  change (combine (a :: b :: rest) ((b :: rest) ++ [z]))
    with ((a, b) :: combine (b :: rest) (rest ++ [z])).
  rewrite IH. reflexivity.
Qed.

Lemma adjacent_rev chain e :
  In e (adjacent (rev chain)) -> In e (chainEdges chain).
Proof.
  induction chain as [|c rest IH]; [intros []|].
  destruct rest as [|b rest]; [intros []|].
  change (rev (c :: b :: rest)) with ((rev rest ++ [b]) ++ [c]).
  rewrite <- app_assoc. cbn [app]. rewrite adjacent_app.
  intros He. apply in_app_or in He as [He|[<-|[]]].
  - right. apply IH. exact He.
  - left. reflexivity.
Qed.

Lemma buildChain_last s rest : last (buildChain (s :: rest)) = Some s.
Proof.
  unfold buildChain. cbn [fold_left popWhile].
  assert (Hlast : last [s] = Some s) by reflexivity.
  revert Hlast. generalize [s].
  induction rest as [|v rest IH]; intros chain Hlast; [exact Hlast|].
  cbn [fold_left]. apply IH.
  rewrite last_cons, popWhile_last, Hlast. reflexivity.
Qed.

Lemma buildChain_snoc vertices v :
  buildChain (vertices ++ [v]) = v :: popWhile (buildChain vertices) v.
Proof. unfold buildChain. rewrite fold_left_app. reflexivity. Qed.

(** The backend's hull of at least two vertices: every vertex given is
    within its bounding box and to the left of every edge, or on it. *)
Lemma Vertices_hull_contains (vertices : list Point) (p : Point) :
  (2 <= length vertices)%nat -> In p vertices ->
  inBox p (Vertices_hull vertices) = true
  /\ forall e, In e (edges (Vertices_hull vertices)) ->
               0 <= cross3 (fst e) (snd e) p.
Proof.
  intros Hlen Hp. unfold Vertices_hull. cbv zeta.
  pose proof (sortVertices_ascending vertices) as Hasc.
  apply sortVertices_elements in Hp.
  rewrite <- sortVertices_length in Hlen.
  revert Hasc Hp Hlen. generalize (sortVertices vertices). clear vertices.
  intros sorted Hasc Hp Hlen.
  destruct sorted as [|s0 sorted]; [destruct Hp|].
  destruct (exists_last (l := sorted)) as (M & sN & ->).
  { intros ->. simpl in Hlen. lia. }
  clear Hlen.
  pose proof (buildChain_inv lexle _ lexle_order s0 (M ++ [sN]) Hasc) as Hlower.
  apply ascending_rev in Hasc.
  change (rev (s0 :: M ++ [sN])) with (rev (M ++ [sN]) ++ [s0]) in *.
  rewrite rev_app_distr in Hasc |- *. cbn [rev app] in Hasc |- *.
  pose proof (buildChain_inv _ _ lexge_order sN (rev M ++ [s0]) Hasc) as Hupper.
  assert (HpL : In p (rev (M ++ [sN]) ++ [s0])).
  { apply in_or_app. destruct Hp as [<-|Hp]; [right; left; reflexivity|].
    left. apply in_rev. rewrite rev_involutive. exact Hp. }
  assert (HpU : In p (rev (rev M ++ [s0]) ++ [sN])).
  { rewrite rev_app_distr, rev_involutive. cbn [rev app].
    destruct Hp as [<-|Hp]; [left; reflexivity|right].
    apply in_app_or in Hp as [Hp|Hp]; apply in_or_app; auto. }
  revert Hlower Hupper.
  change (s0 :: M ++ [sN]) with ((s0 :: M) ++ [sN]).
  change (sN :: rev M ++ [s0]) with ((sN :: rev M) ++ [s0]).
  rewrite !buildChain_snoc.
  pose proof (popWhile_last (buildChain (s0 :: M)) sN) as HlastL.
  pose proof (popWhile_last (buildChain (sN :: rev M)) s0) as HlastU.
  rewrite buildChain_last in HlastL, HlastU.
  revert HlastL HlastU.
  generalize (popWhile (buildChain (s0 :: M)) sN).
  generalize (popWhile (buildChain (sN :: rev M)) s0).
  intros tU tL HlastL HlastU Hlower Hupper.
  cbn [rev]. rewrite !removelast_last.
  apply last_Some in HlastL as (tL' & ->). apply last_Some in HlastU as (tU' & ->).
  rewrite !rev_app_distr. cbn [rev app].
  split.
  - unfold inBox. rewrite !andb_true_iff, !existsb_exists.
    assert (Hs0 : In s0 (sN :: rev tU' ++ s0 :: rev tL'))
      by (right; apply in_or_app; right; left; reflexivity).
    assert (HsN : In sN (sN :: rev tU' ++ s0 :: rev tL')) by (left; reflexivity).
    assert (HinL : forall c, In c (sN :: tL' ++ [s0]) ->
                     In c (sN :: rev tU' ++ s0 :: rev tL')).
    { intros c [<-|Hc]; [exact HsN|]. right. apply in_or_app. right.
      apply in_app_or in Hc as [Hc|[<-|[]]]; [right; apply in_rev in Hc; exact Hc
                                            |left; reflexivity]. }
    assert (HinU : forall c, In c (s0 :: tU' ++ [sN]) ->
                     In c (sN :: rev tU' ++ s0 :: rev tL')).
    { intros c [<-|Hc]; [exact Hs0|].
      apply in_app_or in Hc as [Hc|[<-|[]]]; [|exact HsN].
      right. apply in_or_app. left. apply in_rev in Hc. exact Hc. }
    repeat split.
    + exists s0. split; [exact Hs0|]. apply Qle_bool_iff.
      destruct (inv_first _ _ _ _ _ Hlower p HpL) as [H|[H _]]; lra.
    + exists sN. split; [exact HsN|]. apply Qle_bool_iff.
      destruct (inv_first _ _ _ _ _ Hupper p HpU) as [H|[H _]]; lra.
    + destruct (inv_below _ _ _ _ _ Hlower p HpL) as (c & Hc & Hcp).
      exists c. split; [apply HinL, Hc|apply Qle_bool_iff, Hcp].
    + destruct (inv_below _ _ _ _ _ Hupper p HpU) as (c & Hc & Hcp).
      exists c. split; [apply HinU, Hc|apply Qle_bool_iff, Hcp].
  - intros e He. rewrite edges_adjacent in He.
    rewrite <- app_assoc in He. cbn [app] in He.
    change (sN :: rev tU' ++ s0 :: rev tL' ++ [sN])
      with ((sN :: rev tU') ++ s0 :: rev tL' ++ [sN]) in He.
    rewrite adjacent_app in He.
    apply in_app_or in He as [He|He].
    + apply (inv_left _ _ _ _ _ Hupper p e HpU). apply adjacent_rev.
      cbn [rev]. rewrite rev_app_distr. exact He.
    + apply (inv_left _ _ _ _ _ Hlower p e HpL). apply adjacent_rev.
      cbn [rev]. rewrite rev_app_distr. exact He.
Qed.

Lemma Vertices_hull_insideOrOn (vertices : list Point) (p : Point) :
  (2 <= length vertices)%nat -> In p vertices ->
  insideOrOn p (Vertices_hull vertices) = true.
Proof.
  intros Hlen Hp.
  destruct (Vertices_hull_contains vertices p Hlen Hp) as [Hbox Hleft].
  unfold insideOrOn. rewrite Hbox. cbn [andb].
  apply orb_true_iff. left. apply forallb_forall. intros e He.
  apply Qle_bool_iff, Hleft, He.
Qed.

Lemma dedupLoop_In p (rest : list Point) :
  forall last, In p (dedupLoop last rest) -> In p rest.
Proof.
  induction rest as [|curr rest IH]; intros last; simpl; [auto|].
  destruct (dist_gt_1 last curr); [|intros H; right; eapply IH; exact H].
  intros [<-|H]; [left; reflexivity|right; eapply IH; exact H].
Qed.

Lemma preprocessContour_In p (points : list Point) :
  In p (preprocessContour points) -> In p points.
Proof.
  unfold preprocessContour.
  destruct (length points <? 3)%nat; [auto|].
  destruct (3 <=? length (uniquePoints points))%nat; [|auto].
  destruct points as [|p0 rest]; simpl; [auto|].
  intros [<-|H]; [left; reflexivity|right; eapply dedupLoop_In; exact H].
Qed.

(** Three points, two of them with a fractional abscissa. *)
Definition slantedTriangle : list Point := [Pt 0.6 0; Pt 10 0; Pt 0.6 10].

(** Integer coordinates matter: the hull of [slantedTriangle] is the
    triangle itself; rounded, its vertices are (10, 0), (1, 10) and (1, 0),
    and the point (0.6, 0) is outside that triangle.  [runSimulation] never
    hands [toConvexHull] such points: the coordinates of a scaled contour
    are rounded. *)
Lemma rounded_hull_fractional :
  toConvexHull slantedTriangle = [Pt 10 0; Pt 1 10; Pt 1 0]
  /\ insideOrOn (Pt 0.6 0) (toConvexHull slantedTriangle) = false.
Proof. split; vm_compute; reflexivity. Qed.



(** * Further properties of the engine file *)

(** ** [polygonArea] *)

(** A polygon moved by [d]. *)
Definition translate (d : Point) (points : list Point) : list Point :=
  map (fun p => Pt (x p + x d) (y p + y d)) points.

(** The polygon described from its second vertex on. *)
Definition rotateStart (points : list Point) : list Point :=
  match points with
  | [] => []
  | v0 :: rest => rest ++ [v0]
  end.

Lemma edges_map (f : Point -> Point) (poly : list Point) :
  edges (map f poly) = map (fun e => (f (fst e), f (snd e))) (edges poly).
Proof.
  destruct poly as [|v0 rest]; [reflexivity|].
  unfold edges. cbn [map].
  change (f v0 :: map f rest) with (map f (v0 :: rest)).
  replace (map f rest ++ [f v0]) with (map f (rest ++ [v0]))
    by (rewrite map_app; reflexivity).
  generalize (v0 :: rest) (rest ++ [v0]).
  induction l as [|a l IH]; intros [|b l']; simpl; try reflexivity.
  f_equal. apply IH.
Qed.

Lemma shoelaceSum_translate (d : Point) (points : list Point) :
  shoelaceSum (translate d points) == shoelaceSum points.
Proof.
  rewrite !shoelaceSum_edges. unfold translate. rewrite edges_map, map_map.
  set (g := fun p : Point => y d * x p - x d * y p).
  rewrite (Qsum_ext _ (fun e => crossTerm (fst e) (snd e)
                                + (g (fst e) - g (snd e)))).
  - rewrite (Qsum_plus (fun e => crossTerm (fst e) (snd e))
               (fun e => g (fst e) - g (snd e))).
    rewrite (Qsum_around g). ring.
  - intros e. unfold crossTerm, g. simpl. ring.
Qed.

Lemma combine_snoc {A B} (l1 : list A) (l2 : list B) (a : A) (b : B) :
  length l1 = length l2 ->
  combine (l1 ++ [a]) (l2 ++ [b]) = combine l1 l2 ++ [(a, b)].
Proof.
  revert l2. induction l1 as [|a1 l1 IH]; intros [|b1 l2] Hlen;
    simpl in *; try discriminate; [reflexivity|].
  f_equal. apply IH. congruence.
Qed.

Lemma edges_rotateStart (v0 : Point) (rest : list Point) :
  edges (rest ++ [v0])
  = match edges (v0 :: rest) with
    | [] => []
    | e :: es => es ++ [e]
    end.
Proof.
  destruct rest as [|v1 rest]; [reflexivity|].
  change (edges ((v1 :: rest) ++ [v0]))
    with (combine ((v1 :: rest) ++ [v0]) ((rest ++ [v0]) ++ [v1])).
  change (edges (v0 :: v1 :: rest))
    with ((v0, v1) :: combine (v1 :: rest) (rest ++ [v0])).
  apply combine_snoc. rewrite length_app. simpl. lia.
Qed.

Lemma shoelaceSum_rotateStart (points : list Point) :
  shoelaceSum (rotateStart points) == shoelaceSum points.
Proof.
  destruct points as [|v0 rest]; [reflexivity|].
  unfold rotateStart. rewrite !shoelaceSum_edges, edges_rotateStart.
  destruct (edges (v0 :: rest)) as [|e es]; [reflexivity|].
  rewrite map_app, Qsum_app. simpl. ring.
Qed.

(** The sum of [crossTerm] along an open path. *)
Fixpoint pathSum (path : list Point) : Q :=
  match path with
  | a :: ((b :: _) as rest) => crossTerm a b + pathSum rest
  | _ => 0
  end.

Lemma pathSum_closed (a z : Point) (l : list Point) :
  Qsum (map (fun e => crossTerm (fst e) (snd e)) (combine (a :: l) (l ++ [z])))
  == pathSum (a :: l ++ [z]).
Proof.
  revert a. induction l as [|b l IH]; intros a; simpl.
  - ring.
  - simpl in IH. rewrite IH. reflexivity.
Qed.

Lemma pathSum_app (l1 l2 : list Point) (a : Point) :
  pathSum (l1 ++ a :: l2) == pathSum (l1 ++ [a]) + pathSum (a :: l2).
Proof.
  induction l1 as [|b l1 IH].
  - simpl. destruct l2; ring.
  - destruct l1 as [|c l1].
    + simpl. destruct l2; ring.
    + change (pathSum ((b :: c :: l1) ++ a :: l2))
        with (crossTerm b c + pathSum ((c :: l1) ++ a :: l2)).
      change (pathSum ((b :: c :: l1) ++ [a]))
        with (crossTerm b c + pathSum ((c :: l1) ++ [a])).
      rewrite IH. ring.
Qed.

Lemma pathSum_rev (path : list Point) : pathSum (rev path) == - pathSum path.
Proof.
  induction path as [|a path IH]; [reflexivity|].
  destruct path as [|b path]; [reflexivity|].
  change (rev (a :: b :: path)) with (rev (b :: path) ++ [a]).
  change (rev (b :: path)) with (rev path ++ [b]) at 1.
  rewrite <- app_assoc. cbn [app].
  rewrite pathSum_app.
  change (rev path ++ [b]) with (rev (b :: path)).
  rewrite IH. simpl. unfold crossTerm. ring.
Qed.

Lemma shoelaceSum_path (v0 : Point) (rest : list Point) :
  shoelaceSum (v0 :: rest) == pathSum (v0 :: rest ++ [v0]).
Proof.
  rewrite shoelaceSum_edges. unfold edges. apply pathSum_closed.
Qed.

Lemma shoelaceSum_rev (points : list Point) :
  shoelaceSum (rev points) == - shoelaceSum points.
Proof.
  destruct points as [|v0 rest]; [reflexivity|].
  change (rev (v0 :: rest)) with (rotateStart (v0 :: rev rest)).
  rewrite shoelaceSum_rotateStart, !shoelaceSum_path.
  rewrite <- pathSum_rev.
  change (v0 :: rest ++ [v0]) with ((v0 :: rest) ++ [v0]).
  rewrite rev_app_distr. cbn [rev app]. reflexivity.
Qed.

(** X1. The shoelace area is never negative, and it is zero for fewer than 3
    points. *)
Theorem polygonArea_nonneg (points : list Point) :
  0 <= polygonArea points
  /\ ((length points < 3)%nat -> polygonArea points == 0).
Proof.
  split.
  - unfold polygonArea. apply Qle_shift_div_l; [reflexivity|].
    rewrite Qmult_0_l. apply Qabs_nonneg.
  - intros Hshort.
    assert (Hzero : shoelaceSum points == 0).
    { destruct points as [|a [|b [|c rest]]];
        [reflexivity| | |simpl in Hshort; lia];
        unfold shoelaceSum, at_; simpl; ring. }
    unfold polygonArea. rewrite Hzero. reflexivity.
Qed.

(** X2. The shoelace area does not depend on where the polygon lies. *)
Theorem polygonArea_translate (d : Point) (points : list Point) :
  polygonArea (translate d points) == polygonArea points.
Proof.
  unfold polygonArea. rewrite shoelaceSum_translate. reflexivity.
Qed.

(** X3. The shoelace area depends neither on the vertex the contour starts
    from nor on the direction in which it is described. *)
Theorem polygonArea_order (points : list Point) :
  polygonArea (rotateStart points) == polygonArea points
  /\ polygonArea (rev points) == polygonArea points.
Proof.
  unfold polygonArea. split.
  - rewrite shoelaceSum_rotateStart. reflexivity.
  - rewrite shoelaceSum_rev, Qabs_opp. reflexivity.
Qed.

(** ** [calculateCentroid] *)

Lemma centroid_fold (points : list Point) :
  forall acc,
  x (fold_left (fun acc p => Pt (x acc + x p) (y acc + y p)) points acc)
  == x acc + Qsum (map x points)
  /\ y (fold_left (fun acc p => Pt (x acc + x p) (y acc + y p)) points acc)
     == y acc + Qsum (map y points).
Proof.
  induction points as [|p points IH]; intros acc; simpl.
  - split; ring.
  - destruct (IH (Pt (x acc + x p) (y acc + y p))) as [Hx Hy].
    rewrite Hx, Hy. simpl. split; ring.
Qed.

Lemma count_positive (n : nat) : 0 < inject_Z (Z.of_nat (S n)).
Proof. unfold Qlt, inject_Z. simpl. lia. Qed.

Lemma calculateCentroid_mean (points : list Point) :
  points <> [] ->
  x (calculateCentroid points)
  == Qsum (map x points) / inject_Z (Z.of_nat (length points))
  /\ y (calculateCentroid points)
     == Qsum (map y points) / inject_Z (Z.of_nat (length points)).
Proof.
  intros Hne. destruct points as [|p points]; [congruence|].
  unfold calculateCentroid.
  destruct (centroid_fold (p :: points) (Pt 0 0)) as [Hx Hy].
  cbn [x y]. rewrite Hx, Hy. cbn [x y].
  pose proof (count_positive (length points)) as Hn.
  cbn [length]. split; field; intros Hz; rewrite Hz in Hn; discriminate Hn.
Qed.

Lemma Qsum_permutation (l l' : list Q) : Permutation l l' -> Qsum l == Qsum l'.
Proof.
  induction 1 as [|q l l' _ IH|a b l|l1 l2 l3 _ IH1 _ IH2]; simpl.
  - reflexivity.
  - rewrite IH. reflexivity.
  - ring.
  - rewrite IH1. exact IH2.
Qed.

(** X4. The centre of the fan does not depend on the order in which the
    vertices are listed. *)
Theorem calculateCentroid_permutation (points points' : list Point) :
  Permutation points points' ->
  x (calculateCentroid points) == x (calculateCentroid points')
  /\ y (calculateCentroid points) == y (calculateCentroid points').
Proof.
  intros Hperm.
  destruct points as [|p points].
  - apply Permutation_nil in Hperm. subst. split; reflexivity.
  - assert (Hne' : points' <> [])
      by (intros ->; apply Permutation_sym, Permutation_nil in Hperm; discriminate).
    destruct (calculateCentroid_mean (p :: points)) as [Hx Hy]; [discriminate|].
    destruct (calculateCentroid_mean points' Hne') as [Hx' Hy'].
    rewrite Hx, Hy, Hx', Hy'.
    rewrite (Permutation_length Hperm).
    rewrite (Qsum_permutation _ _ (Permutation_map x Hperm)).
    rewrite (Qsum_permutation _ _ (Permutation_map y Hperm)).
    split; reflexivity.
Qed.

Lemma calculateCentroid_permutation_witness :
  Permutation [Pt 0 0; Pt 4 0; Pt 1 5] [Pt 1 5; Pt 0 0; Pt 4 0]
  /\ x (calculateCentroid [Pt 0 0; Pt 4 0; Pt 1 5])
     == x (calculateCentroid [Pt 1 5; Pt 0 0; Pt 4 0])
  /\ y (calculateCentroid [Pt 0 0; Pt 4 0; Pt 1 5])
     == y (calculateCentroid [Pt 1 5; Pt 0 0; Pt 4 0]).
Proof.
  assert (Hperm : Permutation [Pt 0 0; Pt 4 0; Pt 1 5] [Pt 1 5; Pt 0 0; Pt 4 0]).
  { apply Permutation_sym.
    apply (Permutation_cons_app [Pt 0 0; Pt 4 0] [] (Pt 1 5)).
    rewrite app_nil_r. apply Permutation_refl. }
  split; [exact Hperm|].
  exact (calculateCentroid_permutation _ _ Hperm).
Defined.

Lemma Qsum_bounds (f : Point -> Q) (lo hi : Q) (points : list Point) :
  Forall (fun p => lo <= f p /\ f p <= hi) points ->
  inject_Z (Z.of_nat (length points)) * lo <= Qsum (map f points)
  /\ Qsum (map f points) <= inject_Z (Z.of_nat (length points)) * hi.
Proof.
  induction 1 as [|p points [Hlo Hhi] _ [IHlo IHhi]].
  - simpl. split; rewrite Qmult_0_l; apply Qle_refl.
  - cbn [length map Qsum fold_right].
    rewrite Nat2Z.inj_succ, <- Z.add_1_r, inject_Z_plus.
    split.
    + assert (Heq : (inject_Z (Z.of_nat (length points)) + inject_Z 1) * lo
                    == lo + inject_Z (Z.of_nat (length points)) * lo) by ring.
      rewrite Heq. apply Qplus_le_compat; assumption.
    + assert (Heq : (inject_Z (Z.of_nat (length points)) + inject_Z 1) * hi
                    == hi + inject_Z (Z.of_nat (length points)) * hi) by ring.
      rewrite Heq. apply Qplus_le_compat; assumption.
Qed.

(** X5. The centre of the fan lies within the bounding box of the vertices. *)
Theorem calculateCentroid_box (lo hi : Point) (points : list Point) :
  points <> [] ->
  Forall (fun p => x lo <= x p /\ x p <= x hi) points ->
  Forall (fun p => y lo <= y p /\ y p <= y hi) points ->
  (x lo <= x (calculateCentroid points) /\ x (calculateCentroid points) <= x hi)
  /\ (y lo <= y (calculateCentroid points) /\ y (calculateCentroid points) <= y hi).
Proof.
  intros Hne Hx Hy.
  destruct (calculateCentroid_mean points Hne) as [Hcx Hcy].
  rewrite Hcx, Hcy.
  destruct (Qsum_bounds x (x lo) (x hi) points Hx) as [Hxl Hxh].
  destruct (Qsum_bounds y (y lo) (y hi) points Hy) as [Hyl Hyh].
  destruct points as [|p points]; [congruence|].
  pose proof (count_positive (length points)) as Hn.
  cbn [length] in *.
  repeat split.
  - apply Qle_shift_div_l; [exact Hn|]. rewrite Qmult_comm. exact Hxl.
  - apply Qle_shift_div_r; [exact Hn|]. rewrite Qmult_comm. exact Hxh.
  - apply Qle_shift_div_l; [exact Hn|]. rewrite Qmult_comm. exact Hyl.
  - apply Qle_shift_div_r; [exact Hn|]. rewrite Qmult_comm. exact Hyh.
Qed.

Lemma calculateCentroid_box_witness :
  chevron <> []
  /\ (0 <= x (calculateCentroid chevron) /\ x (calculateCentroid chevron) <= 8)
  /\ (0 <= y (calculateCentroid chevron) /\ y (calculateCentroid chevron) <= 8).
Proof.
  assert (Hne : chevron <> []) by discriminate.
  split; [exact Hne|].
  apply (calculateCentroid_box (Pt 0 0) (Pt 8 8) chevron Hne);
    repeat constructor; discriminate.
Defined.

(** ** [preprocessContour] *)

(** Every point of the path is farther than 1 from the one before it. *)
Fixpoint spaced (path : list Point) : Prop :=
  match path with
  | a :: ((b :: _) as rest) => dist_gt_1 a b = true /\ spaced rest
  | _ => True
  end.

Lemma dedupLoop_sublist (rest : list Point) :
  forall last, sublist (dedupLoop last rest) rest.
Proof.
  induction rest as [|curr rest IH]; intros last; simpl; [constructor|].
  destruct (dist_gt_1 last curr).
  - apply sublist_skip, IH.
  - apply sublist_cons, IH.
Qed.

Lemma dedupLoop_spaced (rest : list Point) :
  forall last, spaced (last :: dedupLoop last rest).
Proof.
  induction rest as [|curr rest IH]; intros last; simpl; [exact I|].
  destruct (dist_gt_1 last curr) eqn:Hfar.
  - split; [exact Hfar|]. apply IH.
  - apply IH.
Qed.

(** X6. The sanitizer invents nothing and reorders nothing: what it returns is
    the input with some points left out, and it starts with the same
    point. *)
Theorem preprocessContour_sublist (points : list Point) :
  sublist (preprocessContour points) points
  /\ head (preprocessContour points) = head points.
Proof.
  assert (Hu : sublist (uniquePoints points) points
               /\ head (uniquePoints points) = head points).
  { destruct points as [|p0 rest]; simpl; [split; [constructor|reflexivity]|].
    split; [apply sublist_skip, dedupLoop_sublist|reflexivity]. }
  unfold preprocessContour.
  destruct (length points <? 3)%nat; [split; reflexivity|].
  destruct (3 <=? length (uniquePoints points))%nat; [exact Hu|split; reflexivity].
Qed.

(** X7. When the walk keeps at least 3 points, what the sanitizer returns has
    no two consecutive points within distance 1 of each other. *)
Theorem preprocessContour_spaced (points : list Point) :
  (3 <= length (uniquePoints points))%nat ->
  spaced (preprocessContour points).
Proof.
  intros Hkept.
  assert (Hlen : (3 <= length points)%nat).
  { pose proof (sublist_length (uniquePoints points) points) as Hsub.
    assert (Hs : sublist (uniquePoints points) points).
    { destruct points as [|p0 rest]; simpl; [constructor|].
      apply sublist_skip, dedupLoop_sublist. }
    specialize (Hsub Hs). lia. }
  unfold preprocessContour.
  replace (length points <? 3)%nat with false by (symmetry; apply Nat.ltb_ge; lia).
  replace (3 <=? length (uniquePoints points))%nat with true
    by (symmetry; apply Nat.leb_le; lia).
  destruct points as [|p0 rest]; [exact I|].
  apply dedupLoop_spaced.
Qed.

Lemma preprocessContour_spaced_witness :
  let points := [Pt 0 0; Pt 0 1; Pt 3 0; Pt 3 0; Pt 3 4; Pt 0 4] in
  (3 <= length (uniquePoints points))%nat
  /\ preprocessContour points = [Pt 0 0; Pt 3 0; Pt 3 4; Pt 0 4]
  /\ spaced (preprocessContour points).
Proof.
  intros points.
  assert (Hkept : (3 <= length (uniquePoints points))%nat)
    by (vm_compute; lia).
  split; [exact Hkept|]. split; [reflexivity|].
  exact (preprocessContour_spaced points Hkept).
Defined.

(** ** [applyPhysicsProperties] *)

(** [obj.parameters.initial_velocity_px_s ?? initial_velocity_m_s ?? 0] and
    the two other initial values, as numbers. *)
Definition initialVx (obj : Scene.Object) : Q :=
  nullish (match Scene.initial_velocity_px_s (Scene.parameters obj) with
           | Some v => Some v
           | None => Scene.initial_velocity_m_s (Scene.parameters obj)
           end) 0.

Definition initialVy (obj : Scene.Object) : Q :=
  nullish (Scene.initial_velocity_y_px_s (Scene.parameters obj)) 0.

Definition initialSpin (obj : Scene.Object) : Q :=
  nullish (Scene.initial_angular_velocity_rad_s (Scene.parameters obj)) 0.

Lemma falsy_true (q : Q) : falsy q = true <-> q == 0.
Proof. unfold falsy. apply Qeq_bool_iff. Qed.

Lemma applyPhysicsProperties_kept body obj processed isStatic :
  Matter.shape (applyPhysicsProperties body obj processed isStatic)
  = Matter.shape body
  /\ Matter.label (applyPhysicsProperties body obj processed isStatic)
     = Matter.label body
  /\ Matter.isStatic (applyPhysicsProperties body obj processed isStatic)
     = Matter.isStatic body.
Proof.
  unfold applyPhysicsProperties.
  repeat match goal with |- context [if ?c then _ else _] => destruct c end;
    repeat split.
Qed.

(** X8. A body created at rest gets the initial velocity and spin of its
    object when it is dynamic (an absent value counting as 0, the velocity
    in px/s going before the one in m/s), and stays at rest when it is
    static. *)
Theorem applyPhysicsProperties_motion body obj processed (isStatic : bool) :
  Matter.velocity body = Pt 0 0 -> Matter.angularVelocity body = 0 ->
  let body' := applyPhysicsProperties body obj processed isStatic in
  if isStatic
  then Matter.velocity body' = Pt 0 0 /\ Matter.angularVelocity body' = 0
  else x (Matter.velocity body') == initialVx obj
       /\ y (Matter.velocity body') == initialVy obj
       /\ Matter.angularVelocity body' == initialSpin obj.
Proof.
  intros Hv Hw. cbv zeta. unfold applyPhysicsProperties.
  fold (initialVx obj) (initialVy obj) (initialSpin obj).
  set (dense := if gt _ 0 && gt _ 1 then _ else body).
  assert (Hdense : Matter.velocity dense = Pt 0 0 /\ Matter.angularVelocity dense = 0)
    by (unfold dense; destruct (gt _ 0 && gt _ 1); simpl; auto).
  destruct Hdense as [Hdv Hdw].
  destruct isStatic; cbn [negb andb].
  - auto.
  - destruct (falsy (initialVx obj)) eqn:Hx, (falsy (initialVy obj)) eqn:Hy,
      (falsy (initialSpin obj)) eqn:Hs; cbn [negb orb]; cbn;
      rewrite ?Hdv, ?Hdw; cbn;
      repeat split;
      try reflexivity;
      try (symmetry; apply falsy_true; assumption).
Qed.

Lemma applyPhysicsProperties_motion_witness :
  let body :=
    Bodies_rectangle 0 0 20 20 "Body" false 0.1 0.01 0 None (Matter.FillStyle "#60a5fa") in
  Matter.velocity body = Pt 0 0 /\ Matter.angularVelocity body = 0
  /\ x (Matter.velocity (applyPhysicsProperties body box [] false)) == -7
  /\ y (Matter.velocity (applyPhysicsProperties body box [] false)) == 2
  /\ Matter.angularVelocity (applyPhysicsProperties body box [] false) == 1.
Proof.
  intros body. split; [reflexivity|]. split; [reflexivity|].
  exact (applyPhysicsProperties_motion body box [] false eq_refl eq_refl).
Defined.

(** ** The branches of the object loop *)

(** The body built for one triangle of the fan. *)
Definition triangleBody (friction restitution : Q) (tri : Triangle) : Matter.Body :=
  {| Matter.shape := Matter.FromVertices (Matter.At (triangleCentroid tri)) tri;
     Matter.label := "Body";
     Matter.isStatic := true;
     Matter.friction := friction;
     Matter.frictionStatic := 0.5;
     Matter.frictionAir := 0.01;
     Matter.restitution := restitution;
     Matter.mass := None;
     Matter.density := 0.001;
     Matter.velocity := Pt 0 0;
     Matter.angularVelocity := 0;
     Matter.render := Matter.FillStyle "#94a3b8" |}.

Lemma fold_addTriangle_bodies friction restitution (triangles : list Triangle) :
  forall members st,
  fold_left (addTriangle friction restitution) triangles (members, st)
  = (members ++ seq (length (bodies st)) (length triangles),
     upd_bodies (fun l => l ++ map (triangleBody friction restitution) triangles) st).
Proof.
  induction triangles as [|tri triangles IH]; intros members st.
  - simpl. rewrite app_nil_r. f_equal.
    destruct st. unfold upd_bodies. simpl. rewrite app_nil_r. reflexivity.
  - simpl fold_left. fold (triangleBody friction restitution tri).
    rewrite IH. f_equal.
    + rewrite <- app_assoc. sim. rewrite length_app. simpl.
      replace (length (bodies st) + 1)%nat with (S (length (bodies st))) by lia.
      reflexivity.
    + destruct st. unfold upd_bodies. simpl. rewrite <- app_assoc. reflexivity.
Qed.

(** X10. A static object flagged concave with a contour of at least 3 points
    always becomes one composite of static triangle bodies, one per vertex
    of the sanitized contour, each placed at the centroid of its triangle;
    the fall-back to the convex hull is never taken, and no body of the
    object is put in the world directly. *)
Theorem concave_static_fan (sx sy : Q) (st : Sim) (obj : Scene.Object) :
  Scene.role obj = "static" -> Scene.is_concave obj = true ->
  (3 <= length (default [] (Scene.contour obj)))%nat ->
  let processed :=
    preprocessContour (scaleContour sx sy (default [] (Scene.contour obj))) in
  let st' := processObject sx sy st obj in
  let triangles := decomposeToTriangleFan processed in
  length triangles = length processed
  /\ (3 <= length processed)%nat
  /\ bodies st'
     = bodies st
       ++ map (triangleBody
                 (nullish (Scene.friction_coefficient (Scene.parameters obj)) 0.2)
                 (nullish (Scene.restitution (Scene.parameters obj)) 0))
              triangles
  /\ world_composites st'
     = world_composites st
       ++ [("凹面体-" +:+ strOr (Scene.name obj) "未命名",
            seq (length (bodies st)) (length triangles))]
  /\ world_bodies st' = world_bodies st
  /\ hasStatic st' = true.
Proof.
  intros Hrole Hconcave Hraw. cbv zeta. unfold processObject.
  rewrite bool_decide_eq_false_2 by (rewrite Hrole; discriminate).
  replace (length (default [] (Scene.contour obj)) <? 3)%nat with false
    by (symmetry; apply Nat.ltb_ge; exact Hraw).
  set (scaled := scaleContour sx sy (default [] (Scene.contour obj))).
  assert (Hscaled : (3 <= length scaled)%nat)
    by (unfold scaled, scaleContour; rewrite length_map; exact Hraw).
  pose proof (preprocessContour_length scaled Hscaled) as Hproc.
  set (processed := preprocessContour scaled) in *.
  replace (length processed <? 3)%nat with false
    by (symmetry; apply Nat.ltb_ge; exact Hproc).
  rewrite Hconcave, bool_decide_eq_true_2 by exact Hrole. cbn [negb].
  assert (Hn : length (decomposeToTriangleFan processed) = length processed)
    by (rewrite (fan_edges processed Hproc), length_map, edges_length; reflexivity).
  replace (length (decomposeToTriangleFan processed) =? 0)%nat with false
    by (symmetry; apply Nat.eqb_neq; lia).
  rewrite fold_addTriangle_bodies. sim.
  repeat split; [exact Hn|exact Hproc].
Qed.

Lemma concave_static_fan_witness :
  Scene.role bowl = "static" /\ Scene.is_concave bowl = true
  /\ world_composites (processObject 1 1 emptySim bowl)
     = [("凹面体-bowl", [0; 1; 2; 3; 4]%nat)]
  /\ world_bodies (processObject 1 1 emptySim bowl) = []
  /\ hasStatic (processObject 1 1 emptySim bowl) = true.
Proof.
  split; [reflexivity|]. split; [reflexivity|].
  destruct (concave_static_fan 1 1 emptySim bowl eq_refl eq_refl ltac:(simpl; lia))
    as (_ & _ & _ & Hc & Hw & Hs).
  split; [exact Hc|]. split; [exact Hw|exact Hs].
Defined.

(** The name under which the convex branch registers the body of [obj]. *)
Definition registeredName (st : Sim) (obj : Scene.Object) : string :=
  strOr (Scene.name obj) ("body-" +:+ pretty (size (bodiesMap st))).

(** X11. An object that is not flagged concave, with a contour of at least 3
    points, is built from its sanitized contour, put in the world, and
    registered under its name (or a generated one): the name resolves to the
    new body from then on, replacing any body registered under it before,
    and every other name keeps what it had.  (The name table has no own
    property [__proto__]: an assignment never creates one.) *)
Theorem convex_registered (sx sy : Q) (st : Sim) (obj : Scene.Object) :
  Scene.role obj <> "constraint" -> Scene.is_concave obj = false ->
  (3 <= length (default [] (Scene.contour obj)))%nat ->
  bodiesMap st !! "__proto__" = None ->
  let st' := processObject sx sy st obj in
  let id := length (bodies st) in
  lookupBody st' (Named (registeredName st obj)) = Some id
  /\ (forall other, other <> registeredName st obj ->
                    bodiesMap st' !! other = bodiesMap st !! other)
  /\ world_bodies st' = world_bodies st ++ [id]
  /\ exists body,
       bodies st' = bodies st ++ [body]
       /\ Matter.shape body
          = Matter.FromVertices Matter.VerticesCentre
              (preprocessContour
                 (scaleContour sx sy (default [] (Scene.contour obj))))
       /\ Matter.isStatic body = bool_decide (Scene.role obj = "static").
Proof.
  intros Hrole Hconvex Hraw Hown. cbv zeta. unfold processObject, registeredName.
  rewrite bool_decide_eq_false_2 by exact Hrole.
  replace (length (default [] (Scene.contour obj)) <? 3)%nat with false
    by (symmetry; apply Nat.ltb_ge; exact Hraw).
  set (scaled := scaleContour sx sy (default [] (Scene.contour obj))).
  assert (Hscaled : (3 <= length scaled)%nat)
    by (unfold scaled, scaleContour; rewrite length_map; exact Hraw).
  pose proof (preprocessContour_length scaled Hscaled) as Hproc.
  set (processed := preprocessContour scaled) in *.
  replace (length processed <? 3)%nat with false
    by (symmetry; apply Nat.ltb_ge; exact Hproc).
  rewrite Hconvex. cbn [negb].
  set (isStatic := bool_decide (Scene.role obj = "static")).
  set (st1 := if isStatic then upd_hasStatic (fun _ => true) st else st).
  assert (Hst1 : bodies st1 = bodies st /\ bodiesMap st1 = bodiesMap st
                 /\ world_bodies st1 = world_bodies st)
    by (unfold st1; destruct isStatic; repeat split).
  destruct Hst1 as (Hb1 & Hm1 & Hw1).
  unfold Bodies_fromVertices.
  match goal with
  | |- context [newBody ?b st1] => set (body := b)
  end.
  destruct (applyPhysicsProperties_kept
              {| Matter.shape := Matter.FromVertices Matter.VerticesCentre processed;
                 Matter.label := "Body"; Matter.isStatic := isStatic;
                 Matter.friction :=
                   nullish (Scene.friction_coefficient (Scene.parameters obj)) 0.2;
                 Matter.frictionStatic := 0.5;
                 Matter.frictionAir := nullish (Scene.air_drag (Scene.parameters obj)) 0;
                 Matter.restitution :=
                   nullish (Scene.restitution (Scene.parameters obj)) 0;
                 Matter.mass := None; Matter.density := 0.001;
                 Matter.velocity := Pt 0 0; Matter.angularVelocity := 0;
                 Matter.render := skin obj isStatic sx sy |}
              obj processed isStatic) as (Hshape & _ & Hstatic).
  fold body in Hshape, Hstatic. cbn [Matter.shape Matter.isStatic] in Hshape, Hstatic.
  unfold newBody. rewrite register_normal. sim. rewrite !Hm1.
  set (name := strOr (Scene.name obj) ("body-" +:+ pretty (size (bodiesMap st)))).
  assert (Hlook : forall st2,
            bodiesMap st2
            = (if bool_decide (name = "__proto__") then bodiesMap st
               else <[name := length (bodies st)]> (bodiesMap st)) ->
            bodiesProto st2
            = (if bool_decide (name = "__proto__") then Some (length (bodies st))
               else bodiesProto st) ->
            lookupBody st2 (Named name) = Some (length (bodies st))).
  { intros st2 Hm2 Hp2. unfold lookupBody, getBody. cbv zeta. cbn [toString].
    rewrite Hm2, Hp2.
    destruct (bool_decide (name = "__proto__")) eqn:Hproto.
    - apply bool_decide_eq_true in Hproto. rewrite Hproto, Hown. reflexivity.
    - rewrite lookup_insert_eq. reflexivity. }
  assert (Hp1 : bodiesProto st1 = bodiesProto st)
    by (unfold st1; destruct isStatic; reflexivity).
  destruct (isStatic && _);
    (split; [apply Hlook; sim; rewrite ?Hb1, ?Hm1, ?Hp1; reflexivity|]);
    sim; rewrite ?relabel_last, Hb1, ?Hw1, ?Hm1;
    (split; [intros other Hother;
             destruct (bool_decide (name = "__proto__"));
               [reflexivity|apply lookup_insert_ne; congruence]|]);
    (split; [reflexivity|]);
    eexists; (split; [reflexivity|]); split; assumption.
Qed.

Lemma convex_registered_witness :
  Scene.role ball <> "constraint" /\ Scene.is_concave ball = false
  /\ lookupBody (processObject 1 1 emptySim ball) (Named "ball") = Some 0%nat
  /\ world_bodies (processObject 1 1 emptySim ball) = [0%nat].
Proof.
  assert (Hrole : Scene.role ball <> "constraint") by discriminate.
  split; [exact Hrole|]. split; [reflexivity|].
  destruct (convex_registered 1 1 emptySim ball Hrole eq_refl ltac:(simpl; lia)
              eq_refl)
    as (Hlook & _ & Hworld & _).
  split; [exact Hlook|exact Hworld].
Defined.

(** ** Conveyor tagging *)

(** A body tagged conveyor is static. *)
Definition conveyorIsStatic (b : Matter.Body) : Prop :=
  Matter.label b = "conveyor" -> Matter.isStatic b = true.

Lemma plain_body_untagged body obj processed isStatic :
  Matter.label body = "Body" ->
  conveyorIsStatic (applyPhysicsProperties body obj processed isStatic).
Proof.
  intros Hlabel Htag.
  destruct (applyPhysicsProperties_kept body obj processed isStatic)
    as (_ & Hl & _).
  rewrite Hl, Hlabel in Htag. discriminate Htag.
Qed.

Lemma createConvexHullBody_labels processed obj isStatic friction air restitution
    sx sy st :
  exists body,
    conveyorIsStatic body
    /\ bodies (createConvexHullBody processed obj isStatic friction air
                 restitution sx sy st)
       = bodies st ++ [body].
Proof.
  unfold createConvexHullBody, Bodies_fromVertices, newBody. sim.
  eexists. split; [|reflexivity].
  apply plain_body_untagged. reflexivity.
Qed.

Lemma processObject_labels sx sy st obj :
  exists newBodies,
    bodies (processObject sx sy st obj) = bodies st ++ newBodies
    /\ Forall conveyorIsStatic newBodies.
Proof.
  unfold processObject.
  destruct (bool_decide (Scene.role obj = "constraint")).
  { exists []. sim. rewrite app_nil_r. split; [reflexivity|constructor]. }
  destruct (length (default [] (Scene.contour obj)) <? 3)%nat.
  { exists []. rewrite app_nil_r. split; [reflexivity|constructor]. }
  set (processed := preprocessContour _).
  destruct (length processed <? 3)%nat.
  { exists []. rewrite app_nil_r. split; [reflexivity|constructor]. }
  set (isStatic := bool_decide (Scene.role obj = "static")).
  set (st1 := if isStatic then upd_hasStatic (fun _ => true) st else st).
  assert (Hb1 : bodies st1 = bodies st) by (unfold st1; destruct isStatic; reflexivity).
  destruct (Scene.is_concave obj); cbn [negb].
  - destruct isStatic eqn:Hstatic.
    + destruct (length (decomposeToTriangleFan processed) =? 0)%nat.
      * match goal with
        | |- context [createConvexHullBody ?p ?o ?s ?f ?a ?r ?x ?y ?t] =>
            destruct (createConvexHullBody_labels p o s f a r x y t)
              as (body & Hok & Hb)
        end.
        exists [body]. rewrite Hb. sim. rewrite Hb1.
        split; [reflexivity|repeat constructor; exact Hok].
      * rewrite fold_addTriangle_bodies. sim. rewrite Hb1.
        eexists. split; [reflexivity|].
        apply Forall_forall. intros b Hb.
        apply list_elem_of_In, in_map_iff in Hb as (tri & <- & _).
        intros Htag. discriminate Htag.
    + match goal with
      | |- context [createConvexHullBody ?p ?o ?s ?f ?a ?r ?x ?y ?t] =>
          destruct (createConvexHullBody_labels p o s f a r x y t)
            as (body & Hok & Hb)
      end.
      exists [body]. rewrite Hb. sim. rewrite Hb1.
      split; [reflexivity|repeat constructor; exact Hok].
  - unfold Bodies_fromVertices.
    match goal with
    | |- context [newBody ?b st1] => set (body := b)
    end.
    assert (Hok : conveyorIsStatic body)
      by (apply plain_body_untagged; reflexivity).
    assert (Hs : Matter.isStatic body = isStatic)
      by (unfold body;
          match goal with
          | |- context [applyPhysicsProperties ?b0 ?o ?p ?s] =>
              destruct (applyPhysicsProperties_kept b0 o p s) as (_ & _ & ->)
          end; reflexivity).
    unfold newBody. rewrite register_normal.
    destruct (isStatic && _) eqn:Hconv.
    + exists [Matter.setLabel body "conveyor"]. sim.
      rewrite relabel_last, Hb1. split; [reflexivity|].
      repeat constructor. intros _. cbn. rewrite Hs.
      apply andb_true_iff in Hconv as [Hconv _]. exact Hconv.
    + exists [body]. sim. rewrite Hb1.
      split; [reflexivity|repeat constructor; exact Hok].
Qed.

(** Every body tagged conveyor is static; a step that keeps it so. *)
Definition keepsConveyorsStatic (st st' : Sim) : Prop :=
  Forall conveyorIsStatic (bodies st) -> Forall conveyorIsStatic (bodies st').

Lemma buildConstraint_labels sx sy st entry st' :
  buildConstraint sx sy st entry = Normal st' -> keepsConveyorsStatic st st'.
Proof.
  destruct entry as [idx c]. intros Hrun Hst.
  apply buildConstraint_normal in Hrun
    as [Heq|[(k & Heq & _)|(k & slug & second & Heq & H)]];
    rewrite Heq; sim; [exact Hst..|].
  apply Forall_app. split; [exact Hst|].
  destruct H as (_ & _ & _ & Hlabel & _).
  repeat constructor. intros Htag. rewrite Hlabel in Htag. discriminate Htag.
Qed.

(** X12. In the simulation [runSimulation] starts, every body tagged conveyor
    is static: dynamic objects are never tagged, whatever their parameters
    say, and neither are the slugs and the walls. *)
Theorem conveyors_are_static container objects constraints imageRect naturalSize
    (st : Sim) (handle : SimulationHandle) :
  runSimulation container objects constraints imageRect naturalSize
  = Normal (st, handle) ->
  Forall conveyorIsStatic (bodies st).
Proof.
  intros Hrun. apply runSimulation_Normal in Hrun as (scene & Hscene & Heq).
  assert (Hbuilt : Forall conveyorIsStatic (bodies scene)).
  { unfold buildScene in Hscene. cbv zeta in Hscene.
    set (sx := scaleX _ _) in Hscene. set (sy := scaleY _ _) in Hscene.
    assert (Hobjects : forall objs st0, Forall conveyorIsStatic (bodies st0) ->
              Forall conveyorIsStatic
                (bodies (fold_left (processObject sx sy) objs st0))).
    { induction objs as [|obj objs IH]; intros st0 Hst; simpl; [exact Hst|].
      apply IH. destruct (processObject_labels sx sy st0 obj) as (new & -> & Hnew).
      apply Forall_app; split; assumption. }
    specialize (Hobjects objects (createRender container imageRect)
                  ltac:(constructor)).
    revert Hscene Hobjects.
    generalize (fold_left (processObject sx sy) objects
                  (createRender container imageRect)).
    intros built Hscene Hobjects.
    unfold buildConstraints in Hscene.
    destruct (0 <? length constraints)%nat; [|congruence].
    cbv zeta in Hscene.
    apply bind_Normal in Hscene as (st1 & Hloop & Hdone).
    injection Hdone as <-. sim.
    refine (forEach_Normal keepsConveyorsStatic _ _ _
              (buildConstraint_labels sx sy) _ _ _ Hloop Hobjects).
    - intros st0 Hst. exact Hst.
    - intros st2 st3 st4 H23 H34 Hst. exact (H34 (H23 Hst)). }
  unfold startSimulation in Heq.
  assert (Hfinal : Forall conveyorIsStatic
            (bodies (if negb (hasStatic scene)
                     then addWalls (viewWidth container imageRect)
                            (viewHeight container imageRect) scene
                     else scene))).
  { destruct (negb (hasStatic scene)); [|exact Hbuilt].
    destruct (addWalls_effect (viewWidth container imageRect)
                (viewHeight container imageRect) scene) as (Hb & _).
    rewrite Hb. apply Forall_app; split; [exact Hbuilt|].
    repeat constructor; intros Htag; discriminate Htag. }
  revert Heq Hfinal.
  generalize (if negb (hasStatic scene)
              then addWalls (viewWidth container imageRect)
                     (viewHeight container imageRect) scene
              else scene).
  intros final Heq Hfinal. injection Heq as -> _. sim. exact Hfinal.
Qed.

Lemma conveyors_are_static_witness :
  exists st handle,
    runSimulation None [belt; box] [launcher] None unknownSize = Normal (st, handle)
    /\ (Matter.label <$> bodies st !! 0%nat) = Some "conveyor"
    /\ Forall conveyorIsStatic (bodies st).
Proof.
  eexists _, _. split; [vm_compute; reflexivity|].
  split; [vm_compute; reflexivity|].
  eapply (conveyors_are_static None [belt; box] [launcher] None unknownSize).
  vm_compute. reflexivity.
Defined.

(** The object asks for a conveyor: it carries a speed, or its element
    type is [conveyor_belt] in any letter case. *)
Definition asksConveyor (obj : Scene.Object) : Prop :=
  is_Some (Scene.conveyor_speed (Scene.parameters obj))
  \/ toLowerCase (strOr (Scene.element_type obj) "") = "conveyor_belt".

Lemma processObject_conveyor (sx sy : Q) (st : Sim) (obj : Scene.Object) :
  Scene.role obj = "static" -> Scene.is_concave obj = false ->
  (3 <= length (default [] (Scene.contour obj)))%nat ->
  asksConveyor obj -> namesSound st ->
  registeredName st obj <> "__proto__" ->
  let st' := processObject sx sy st obj in
  let id := length (bodies st) in
  isConv st' id = true
  /\ configuredSpeed st' id
       (nullish (Scene.conveyor_speed (Scene.parameters obj)) 0).
Proof.
  intros Hrole Hconvex Hraw Hasks [Hrange _] Hplain. cbv zeta.
  unfold registeredName in Hplain.
  unfold processObject.
  rewrite bool_decide_eq_false_2 by (rewrite Hrole; discriminate).
  replace (length (default [] (Scene.contour obj)) <? 3)%nat with false
    by (symmetry; apply Nat.ltb_ge; exact Hraw).
  set (scaled := scaleContour sx sy (default [] (Scene.contour obj))).
  assert (Hscaled : (3 <= length scaled)%nat)
    by (unfold scaled, scaleContour; rewrite length_map; exact Hraw).
  pose proof (preprocessContour_length scaled Hscaled) as Hproc.
  set (processed := preprocessContour scaled) in *.
  replace (length processed <? 3)%nat with false
    by (symmetry; apply Nat.ltb_ge; exact Hproc).
  rewrite Hconvex, (bool_decide_eq_true_2 _ Hrole). cbn [negb andb].
  assert (Hconv : bool_decide (is_Some (Scene.conveyor_speed (Scene.parameters obj)))
                  || bool_decide
                       (toLowerCase (strOr (Scene.element_type obj) "")
                        = "conveyor_belt") = true).
  { destruct Hasks as [Hspeed|Htype].
    - rewrite (bool_decide_eq_true_2 _ Hspeed). reflexivity.
    - rewrite (bool_decide_eq_true_2 _ Htype). apply orb_true_r. }
  rewrite Hconv.
  unfold Bodies_fromVertices, newBody, isConv, configuredSpeed.
  rewrite register_normal. sim.
  rewrite (bool_decide_eq_false_2 _ Hplain).
  rewrite relabel_last.
  split.
  - rewrite list_lookup_middle by reflexivity. reflexivity.
  - eexists. split; [apply lookup_insert_eq|].
    split; [|apply lookup_insert_eq].
    intros name' Hname'.
    apply lookup_insert_Some in Hname' as [[<- _]|[_ Hold]]; [reflexivity|].
    specialize (Hrange name' _ Hold). lia.
Qed.

(** X13. A static object that is not flagged concave and asks for a conveyor is
    tagged, and its speed (0 when it gives none) is the one configured for
    its body in the sense the hook looks it up, provided the name table was
    sound before and the name it is registered under is not [__proto__]
    (which names no property of the table). *)
Theorem conveyor_tagged (sx sy : Q) (st : Sim) (obj : Scene.Object) :
  Scene.role obj = "static" -> Scene.is_concave obj = false ->
  (3 <= length (default [] (Scene.contour obj)))%nat ->
  asksConveyor obj -> namesSound st ->
  registeredName st obj <> "__proto__" ->
  let st' := processObject sx sy st obj in
  let id := length (bodies st) in
  isConv st' id = true
  /\ configuredSpeed st' id
       (nullish (Scene.conveyor_speed (Scene.parameters obj)) 0).
Proof. exact (processObject_conveyor sx sy st obj). Qed.

Lemma conveyor_tagged_witness :
  Scene.role belt = "static" /\ asksConveyor belt /\ namesSound emptySim
  /\ isConv (processObject 1 1 emptySim belt) 0%nat = true
  /\ configuredSpeed (processObject 1 1 emptySim belt) 0%nat 3.
Proof.
  assert (Hasks : asksConveyor belt) by (left; eexists; reflexivity).
  assert (Hnames : namesSound emptySim).
  { split; [intros name b Hlook|intros name1 name2 b Hlook];
      unfold emptySim in Hlook; sim; rewrite lookup_empty in Hlook;
      discriminate Hlook. }
  split; [reflexivity|]. split; [exact Hasks|]. split; [exact Hnames|].
  exact (conveyor_tagged 1 1 emptySim belt eq_refl eq_refl ltac:(simpl; lia)
           Hasks Hnames ltac:(discriminate)).
Defined.

(** ** The speed of a conveyor, from the object to the hook *)

(** What an object does to the tables under a name other than [__proto__]:
    nothing, or the name now leads to the body just created. *)
Lemma processObject_tables sx sy st obj name :
  name <> "__proto__" ->
  (bodiesMap (processObject sx sy st obj) !! name = bodiesMap st !! name
   /\ conveyorParams (processObject sx sy st obj) !! name
      = conveyorParams st !! name)
  \/ bodiesMap (processObject sx sy st obj) !! name = Some (length (bodies st)).
Proof.
  intros Hname. unfold processObject.
  destruct (bool_decide (Scene.role obj = "constraint")); [left; split; reflexivity|].
  set (raw := default [] (Scene.contour obj)).
  destruct (length raw <? 3)%nat; [left; split; reflexivity|].
  set (scaled := scaleContour sx sy raw).
  set (processed := preprocessContour scaled).
  destruct (length processed <? 3)%nat; [left; split; reflexivity|].
  set (isStatic := bool_decide (Scene.role obj = "static")).
  set (st1 := if isStatic then upd_hasStatic (fun _ => true) st else st).
  assert (H1 : bodies st1 = bodies st /\ bodiesMap st1 = bodiesMap st
               /\ conveyorParams st1 = conveyorParams st)
    by (unfold st1; destruct isStatic; repeat split).
  destruct H1 as (Hb1 & Hm1 & Hc1).
  destruct (Scene.is_concave obj); cbn [negb].
  - left. destruct isStatic.
    + destruct (length (decomposeToTriangleFan processed) =? 0)%nat.
      * unfold createConvexHullBody, Bodies_fromVertices, newBody. sim.
        rewrite Hm1, Hc1. split; reflexivity.
      * rewrite fold_addTriangle_bodies. sim. rewrite Hm1, Hc1. split; reflexivity.
    + unfold createConvexHullBody, Bodies_fromVertices, newBody. sim.
      rewrite Hm1, Hc1. split; reflexivity.
  - unfold Bodies_fromVertices, newBody. rewrite register_normal.
    destruct (decide (name = strOr (Scene.name obj)
                                ("body-" +:+ pretty (size (bodiesMap st1)))))
      as [Hsame|Hother].
    + right. destruct (isStatic && _); sim; rewrite <- Hsame;
        rewrite (bool_decide_eq_false_2 _ Hname), Hb1; apply lookup_insert_eq.
    + left.
      destruct (isStatic && _); sim;
        (split;
         [destruct (bool_decide (_ = "__proto__"));
            [|rewrite lookup_insert_ne by congruence]; rewrite Hm1; reflexivity
         |rewrite ?lookup_insert_ne by congruence; rewrite Hc1; reflexivity]).
Qed.

(** The body [conv] is tagged, and as long as [name] leads to it the name
    carries [speed]. *)
Definition conveyorKept (name : string) (conv : nat) (speed : Q) (st : Sim) : Prop :=
  isConv st conv = true
  /\ (bodiesMap st !! name = Some conv -> conveyorParams st !! name = Some speed).

Lemma conveyorKept_grow name conv speed st st' newBodies :
  conveyorKept name conv speed st ->
  bodies st' = bodies st ++ newBodies ->
  bodiesMap st' = bodiesMap st -> conveyorParams st' = conveyorParams st ->
  conveyorKept name conv speed st'.
Proof.
  intros [Hconv Hspeed] Hb Hm Hc. unfold conveyorKept, isConv in *.
  rewrite Hb, Hm, Hc. split; [|exact Hspeed].
  destruct (bodies st !! conv) as [b|] eqn:Hlook; [|discriminate].
  rewrite (lookup_app_l_Some _ _ _ _ Hlook). exact Hconv.
Qed.

Lemma processObject_kept sx sy st obj name conv speed :
  name <> "__proto__" ->
  conveyorKept name conv speed st ->
  conveyorKept name conv speed (processObject sx sy st obj).
Proof.
  intros Hname [Hconv Hspeed].
  assert (Hlt : (conv < length (bodies st))%nat).
  { unfold isConv in Hconv. apply lookup_lt_is_Some.
    destruct (bodies st !! conv); [eauto|discriminate]. }
  destruct (processObject_effect sx sy st obj) as (newBodies & Hb & _).
  split.
  - unfold isConv in *. rewrite Hb.
    destruct (bodies st !! conv) as [b|] eqn:Hlook; [|discriminate].
    rewrite (lookup_app_l_Some _ _ _ _ Hlook). exact Hconv.
  - destruct (processObject_tables sx sy st obj name Hname) as [[Hm Hc]|Hnew].
    + rewrite Hm, Hc. exact Hspeed.
    + rewrite Hnew. intros [= Heq]. lia.
Qed.

Lemma objects_kept sx sy name conv speed (objects : list Scene.Object) :
  name <> "__proto__" ->
  forall st, conveyorKept name conv speed st ->
             conveyorKept name conv speed (fold_left (processObject sx sy) objects st).
Proof.
  intros Hname. induction objects as [|obj objects IH]; intros st Hst; simpl;
    [exact Hst|].
  apply IH, processObject_kept; assumption.
Qed.

(** X24. The speed of a conveyor reaches the hook.  Let [obj] be a static
    object that is not flagged concave, has a usable contour and asks for a
    conveyor, under a name other than [__proto__].  When [runSimulation]
    returns and the name still leads to the body of [obj] (no later object
    was registered under it), that body is tagged, the speed configured for
    it is the object's [conveyor_speed] (0 when it gives none), and that is
    the speed the hook finds for it. *)
Theorem conveyor_speed_kept container (before after : list Scene.Object)
    (obj : Scene.Object) constraints imageRect naturalSize
    (st : Sim) (handle : SimulationHandle) :
  let sx := scaleX (viewWidth container imageRect) naturalSize in
  let sy := scaleY (viewHeight container imageRect) naturalSize in
  let built :=
    fold_left (processObject sx sy) before (createRender container imageRect) in
  let conv := length (bodies built) in
  let name := registeredName built obj in
  let speed := nullish (Scene.conveyor_speed (Scene.parameters obj)) 0 in
  Scene.role obj = "static" -> Scene.is_concave obj = false ->
  (3 <= length (default [] (Scene.contour obj)))%nat ->
  asksConveyor obj -> name <> "__proto__" ->
  runSimulation container (before ++ obj :: after) constraints imageRect naturalSize
  = Normal (st, handle) ->
  bodiesMap st !! name = Some conv ->
  isConv st conv = true
  /\ configuredSpeed st conv speed
  /\ conveyorSpeed st conv == speed.
Proof.
  intros sx sy built conv name speed Hrole Hconvex Hraw Hasks Hname Hrun Hstill.
  pose proof (runSimulation_names _ _ _ _ _ _ _ Hrun) as [_ Hinj].
  apply runSimulation_Normal in Hrun as (scene & Hscene & Heq).
  assert (Hbuilt : namesSound built).
  { apply objects_names.
    split; [intros n b Hlook|intros n1 n2 b Hlook];
      unfold createRender, emptySim in Hlook; sim;
      rewrite lookup_empty in Hlook; discriminate Hlook. }
  destruct (processObject_conveyor sx sy built obj Hrole Hconvex Hraw Hasks
              Hbuilt Hname) as [Htag (name0 & Hreg & Hone & Hcfg)].
  fold conv speed in Htag, Hreg, Hone, Hcfg.
  assert (Hkept : conveyorKept name conv speed scene).
  { unfold buildScene in Hscene. cbv zeta in Hscene. fold sx sy in Hscene.
    rewrite fold_left_app in Hscene. cbn [fold_left] in Hscene. fold built in Hscene.
    apply buildConstraints_effect in Hscene
      as ((newBodies & Hb & _) & _ & Hm & _ & Hc & _).
    eapply conveyorKept_grow; [|exact Hb|exact Hm|exact Hc].
    apply objects_kept; [exact Hname|].
    split; [exact Htag|]. intros Hlook.
    rewrite <- (Hone name Hlook) in Hcfg. exact Hcfg. }
  assert (Hfinal : conveyorKept name conv speed st).
  { unfold startSimulation in Heq.
    assert (Hwalls : conveyorKept name conv speed
              (if negb (hasStatic scene)
               then addWalls (viewWidth container imageRect)
                      (viewHeight container imageRect) scene
               else scene)).
    { destruct (negb (hasStatic scene)); [|exact Hkept].
      destruct (addWalls_effect (viewWidth container imageRect)
                  (viewHeight container imageRect) scene) as (Hb & _ & Hm & _).
      eapply conveyorKept_grow; [exact Hkept|exact Hb|exact Hm|].
      unfold addWalls, boundaryWalls. simpl fold_left. sim. reflexivity. }
    revert Heq Hwalls.
    generalize (if negb (hasStatic scene)
                then addWalls (viewWidth container imageRect)
                       (viewHeight container imageRect) scene
                else scene).
    intros final Heq Hwalls. injection Heq as -> _.
    eapply (conveyorKept_grow _ _ _ final _ []); [exact Hwalls|..]; sim;
      [rewrite app_nil_r|..]; reflexivity. }
  destruct Hfinal as [Hconv Hspeed].
  assert (Hconfigured : configuredSpeed st conv speed).
  { exists name. split; [exact Hstill|]. split; [|exact (Hspeed Hstill)].
    intros name' Hname'. exact (Hinj name' name conv Hname' Hstill). }
  split; [exact Hconv|]. split; [exact Hconfigured|].
  apply conveyorSpeed_configured, Hconfigured.
Qed.

(** The belt keeps its name when a box follows it, and loses it to a
    namesake. *)
Lemma conveyor_speed_kept_witness :
  (exists st handle,
     runSimulation None [belt; box] [] None unknownSize = Normal (st, handle)
     /\ bodiesMap st !! "belt" = Some 0%nat
     /\ conveyorSpeed st 0%nat == 3)
  /\ exists st handle,
       runSimulation None [belt; namesake] [] None unknownSize = Normal (st, handle)
       /\ bodiesMap st !! "belt" = Some 1%nat.
Proof.
  split.
  - eexists _, _. split; [vm_compute; reflexivity|].
    split; [vm_compute; reflexivity|].
    eapply (conveyor_speed_kept None [] [box] belt [] None unknownSize);
      [reflexivity|reflexivity|simpl; lia|left; eexists; reflexivity
      |discriminate|vm_compute; reflexivity|vm_compute; reflexivity].
  - eexists _, _. split; vm_compute; reflexivity.
Defined.

(** ** What the hook leaves alone *)

(** A body whose horizontal and angular velocities are replaced. *)
Definition drive (vx w : Q) (b : Matter.Body) : Matter.Body :=
  Matter.setAngularVelocity
    (Matter.setVelocity b (Pt vx (y (Matter.velocity b)))) w.

Lemma drive_same (b : Matter.Body) :
  drive (x (Matter.velocity b)) (Matter.angularVelocity b) b = b.
Proof. destruct b as [? ? ? ? ? ? ? ? ? [vx vy] ? ?]. reflexivity. Qed.

Lemma drive_twice (vx w vx' w' : Q) (b : Matter.Body) :
  drive vx' w' (drive vx w b) = drive vx' w' b.
Proof. reflexivity. Qed.

Lemma conveyPair_drives st pair id b :
  bodies st !! id = Some b ->
  exists vx w,
    bodies (conveyPair st pair) !! id = Some (drive vx w b)
    /\ (Matter.isStatic b = true -> drive vx w b = b).
Proof.
  intros Hb.
  assert (Hsame : exists vx w,
            bodies st !! id = Some (drive vx w b)
            /\ (Matter.isStatic b = true -> drive vx w b = b)).
  { exists (x (Matter.velocity b)), (Matter.angularVelocity b).
    rewrite drive_same. auto. }
  destruct pair as [bodyA bodyB]. unfold conveyPair.
  destruct (negb (isConv st bodyA) && negb (isConv st bodyB)); [exact Hsame|].
  set (conveyorBody := if isConv st bodyA then bodyA else bodyB).
  set (otherBody := if isConv st bodyA then bodyB else bodyA).
  destruct (bodies st !! otherBody) as [other|] eqn:Hother; [|exact Hsame].
  destruct (Matter.isStatic other) eqn:Hdyn; [exact Hsame|].
  cbv zeta. rewrite (convey_normal st otherBody other _ Hother). sim.
  destruct (decide (otherBody = id)) as [<-|Hne].
  - rewrite list_lookup_insert_eq by (apply lookup_lt_is_Some; eauto).
    assert (other = b) by congruence. subst other.
    eexists _, _. split; [reflexivity|]. intros Hstatic. congruence.
  - rewrite list_lookup_insert_ne by exact Hne. exact Hsame.
Qed.

Lemma onBeforeUpdate_drives pairs :
  forall st id b,
  bodies st !! id = Some b ->
  exists vx w,
    bodies (onBeforeUpdate pairs st) !! id = Some (drive vx w b)
    /\ (Matter.isStatic b = true -> drive vx w b = b).
Proof.
  unfold onBeforeUpdate.
  induction pairs as [|pair pairs IH]; intros st id b Hb; simpl.
  - exists (x (Matter.velocity b)), (Matter.angularVelocity b).
    rewrite drive_same. auto.
  - destruct (conveyPair_drives st pair id b Hb) as (vx & w & Hb1 & Hs1).
    destruct (IH (conveyPair st pair) id _ Hb1) as (vx' & w' & Hb2 & Hs2).
    exists vx', w'. rewrite Hb2, drive_twice. split; [reflexivity|].
    intros Hstatic.
    transitivity (drive vx' w' (drive vx w b)); [reflexivity|].
    rewrite (Hs2 Hstatic). exact (Hs1 Hstatic).
Qed.

Lemma onBeforeUpdate_idle pairs :
  forall st,
  Forall (fun p => isConv st (fst p) = false /\ isConv st (snd p) = false) pairs ->
  onBeforeUpdate pairs st = st.
Proof.
  unfold onBeforeUpdate.
  induction pairs as [|[bodyA bodyB] pairs IH]; intros st Hall; simpl; [reflexivity|].
  inversion Hall as [|? ? [Ha Hb] Hrest]; subst. simpl in Ha, Hb.
  rewrite Ha, Hb. cbn [negb andb]. apply IH, Hrest.
Qed.

(** X14. On a tick the hook changes nothing but the horizontal and the angular
    velocity of bodies: the world, the tables and the timers stay as they
    are; a static body, a body that is in no pair, and every body when no
    pair has a conveyor in it, are left exactly as they were. *)
Theorem hook_only_drives (pairs : list (nat * nat)) (st : Sim) (id : nat)
    (b : Matter.Body) :
  bodies st !! id = Some b ->
  let st' := onBeforeUpdate pairs st in
  st' = upd_bodies (fun _ => bodies st') st
  /\ (exists vx w, bodies st' !! id = Some (drive vx w b))
  /\ (Matter.isStatic b = true -> bodies st' !! id = Some b)
  /\ (Forall (fun p => fst p <> id /\ snd p <> id) pairs ->
      bodies st' !! id = Some b)
  /\ (Forall (fun p => isConv st (fst p) = false /\ isConv st (snd p) = false)
        pairs -> st' = st).
Proof.
  intros Hb. cbv zeta.
  destruct (onBeforeUpdate_keeps pairs st) as [[Heq _] Hsame].
  destruct (onBeforeUpdate_drives pairs st id b Hb) as (vx & w & Hd & Hs).
  split; [exact Heq|]. split; [eauto|]. split.
  - intros Hstatic. rewrite Hd, (Hs Hstatic). reflexivity.
  - split.
    + intros Hout. rewrite (Hsame id Hout). exact Hb.
    + apply onBeforeUpdate_idle.
Qed.

Lemma hook_only_drives_witness :
  let run := runSimulation None [belt; box; ball] [] None unknownSize in
  let st := started run in
  (exists handle, run = Normal (st, handle))
  /\ (Matter.isStatic <$> bodies st !! 0%nat) = Some true
  /\ bodies (onBeforeUpdate [(0, 1)%nat] st) !! 0%nat = bodies st !! 0%nat
  /\ bodies (onBeforeUpdate [(0, 1)%nat] st) !! 2%nat = bodies st !! 2%nat.
Proof.
  intros run st. split; [eexists; vm_compute; reflexivity|].
  destruct (bodies st !! 0%nat) as [b0|] eqn:H0; [|discriminate].
  destruct (bodies st !! 2%nat) as [b2|] eqn:H2; [|discriminate].
  assert (Hstatic : Matter.isStatic b0 = true)
    by (vm_compute in H0; injection H0 as <-; reflexivity).
  split; [simpl; congruence|].
  destruct (hook_only_drives [(0, 1)%nat] st 0%nat b0 H0) as (_ & _ & Hs & _).
  destruct (hook_only_drives [(0, 1)%nat] st 2%nat b2 H2) as (_ & _ & _ & Hout & _).
  split; [exact (Hs Hstatic)|].
  apply Hout. repeat constructor; simpl; lia.
Defined.

(** ** Where the boundary walls lie *)

(** The rectangle body [b] covers [x0, x1] by [y0, y1]: it is centred on the
    point it is created at. *)
Definition covers (b : Matter.Body) (x0 x1 y0 y1 : Q) : Prop :=
  match Matter.shape b with
  | Matter.Rectangle cx cy w h =>
      cx - w / 2 == x0 /\ cx + w / 2 == x1 /\ cy - h / 2 == y0 /\ cy + h / 2 == y1
  | Matter.FromVertices _ _ => False
  end.

(** X15. The four walls lie outside the viewport, each along one full side of
    it and touching it: above, below, left and right, with a thickness of
    at least 10. *)
Theorem walls_around_viewport (width height : Q) :
  let t := wallThickness width height in
  10 <= t
  /\ match boundaryWalls width height with
     | [above; below; before; beyond] =>
         covers above 0 width (- t) 0
         /\ covers below 0 width height (height + t)
         /\ covers before (- t) 0 0 height
         /\ covers beyond width (width + t) 0 height
     | _ => False
     end.
Proof.
  cbv zeta. split.
  - unfold wallThickness, Math_max.
    destruct (Qle_bool 10 _) eqn:Hle; [apply Qle_bool_iff; exact Hle|apply Qle_refl].
  - unfold boundaryWalls, covers, wall, Bodies_rectangle. cbn [Matter.shape].
    generalize (wallThickness width height). intros t.
    repeat split; field.
Qed.

(** ** Launchers and the constraints that are realized *)

Lemma onCollisionPair_no_target (l : Listener) (pairs : list (nat * nat)) :
  (forall b, secondBody l <> IsBody b) ->
  forall st, fold_left (onCollisionPair l) pairs st = st.
Proof.
  intros Hnone. induction pairs as [|[bodyA bodyB] pairs IH]; intros st; simpl;
    [reflexivity|].
  destruct (secondBody l) as [|b|key] eqn:Hsecond;
    [|destruct (Hnone b eq_refl)|]; rewrite andb_false_r; apply IH.
Qed.

(** X17. A launcher whose second end resolves to no registered body never gets
    its slug removed: when the launcher gets built, no contact schedules a
    timeout. *)
Theorem launcher_without_target (sx sy : Q) (st st' : Sim) (idx : nat)
    (c : Scene.Constraint) (pairs : list (nat * nat)) :
  Scene.springType c = Some "launcher" ->
  is_Some (Scene.secondPivotPoint c) ->
  lookupBody st (Scene.secondPivotName c) = None ->
  collisionStart st = [] ->
  buildConstraint sx sy st (idx, c) = Normal st' ->
  In (length (bodies st)) (world_bodies st')
  /\ (Matter.label <$> bodies st' !! length (bodies st))
     = Some "spring_launcher_reduced"
  /\ fireCollisionStart pairs st' = st'.
Proof.
  intros Hkind Hsecond Htarget Hfresh. unfold buildConstraint.
  rewrite Hkind.
  rewrite (bool_decide_eq_false_2 (Some "launcher" = Some "constraint"))
    by discriminate.
  rewrite (bool_decide_eq_true_2 (Some "launcher" = Some "launcher")) by reflexivity.
  rewrite (bool_decide_eq_true_2 _ Hsecond). cbn [orb andb]. cbv zeta.
  rewrite !getBody_log. intros Hrun.
  apply bind_Normal in Hrun as (firstBody & Hfirst & Hrun).
  apply bind_Normal in Hrun as (second & Hsec & Hrun).
  unfold newBody, Matter.Constraint_create in Hrun.
  apply bind_Normal in Hrun as (k & Hk & Hrun).
  apply bind_Normal in Hk as (a & Ha & Hk).
  apply bind_Normal in Hk as (b & Hb & Hk).
  injection Hk as <-. injection Hrun as <-.
  unfold fireCollisionStart. sim. rewrite Hfresh. cbn [app fold_left].
  split; [apply in_or_app; right; left; reflexivity|].
  split; [rewrite list_lookup_middle by reflexivity; reflexivity|].
  apply onCollisionPair_no_target. cbn [secondBody].
  intros target ->. unfold lookupBody in Htarget. rewrite Hsec in Htarget.
  discriminate Htarget.
Qed.

Lemma launcher_without_target_witness :
  let c :=
    {| Scene.bodyName := Absent; Scene.pivotName := Absent;
       Scene.pivotPoint := Some (Pt 100 300);
       Scene.secondPivotName := Named "nobody";
       Scene.secondPivotPoint := Some (Pt 200 300);
       Scene.springType := Some "launcher"; Scene.constraintType := None;
       Scene.stiffness := None; Scene.damping := None; Scene.length_ := None;
       Scene.springLength := Some 100 |} in
  lookupBody emptySim (Scene.secondPivotName c) = None
  /\ exists st',
       buildConstraint 1 1 emptySim (0%nat, c) = Normal st'
       /\ world_bodies st' = [0%nat]
       /\ timers (fireCollisionStart [(0, 0)%nat] st') = [].
Proof.
  intros c. split; [reflexivity|].
  eexists. split; [reflexivity|]. split; [reflexivity|].
  match goal with
  | |- timers (fireCollisionStart _ ?st') = _ =>
      destruct (launcher_without_target 1 1 emptySim st' 0%nat c [(0, 0)%nat]
                  eq_refl ltac:(eexists; reflexivity) eq_refl eq_refl eq_refl)
        as (_ & _ & Hfire)
  end.
  rewrite Hfire. reflexivity.
Defined.

(** The constraint is realized from the state [st]: it is a spring system,
    or its subject resolves to a registered body. *)
Definition realized (st : Sim) (c : Scene.Constraint) : bool :=
  isSpringSystem c || bool_decide (is_Some (lookupBody st (Scene.bodyName c))).

Lemma buildConstraint_realized sx sy st idx c st' :
  buildConstraint sx sy st (idx, c) = Normal st' ->
  bodiesMap st' = bodiesMap st
  /\ bodiesProto st' = bodiesProto st
  /\ length (joints st')
     = (length (joints st) + if realized st c then 1 else 0)%nat
  /\ world_constraints st'
     = world_constraints st
       ++ (if realized st c then [length (joints st)] else []).
Proof.
  unfold buildConstraint, realized, isSpringSystem.
  destruct (_ && bool_decide (is_Some (Scene.secondPivotPoint c))) eqn:Hspring.
  - cbn [orb]. cbv zeta. rewrite !getBody_log. intros Hrun.
    apply bind_Normal in Hrun as (firstBody & Hfirst & Hrun).
    apply bind_Normal in Hrun as (secondBody & Hsec & Hrun).
    destruct (bool_decide (Scene.springType c = Some "constraint")) eqn:Hkind.
    + apply bind_Normal in Hrun as (k & Hk & Hrun). injection Hrun as <-.
      sim. rewrite length_app. repeat split.
    + destruct (bool_decide (Scene.springType c = Some "launcher")) eqn:Hkind';
        [|simpl in Hspring; discriminate Hspring].
      unfold newBody in Hrun. cbv zeta in Hrun.
      apply bind_Normal in Hrun as (k & Hk & Hrun). injection Hrun as <-.
      sim. rewrite length_app. repeat split.
  - cbn [orb]. intros Hrun.
    apply bind_Normal in Hrun as (bodyB & HbodyB & Hrun).
    unfold lookupBody. rewrite HbodyB.
    destruct (truthy bodyB) eqn:Htruthy; cbn [negb] in Hrun.
    + cbv zeta in Hrun.
      apply bind_Normal in Hrun as (pivotBody & Hpivot & Hrun).
      assert (Hreal : exists id, bodyB = IsBody id).
      { destruct (truthy pivotBody);
          apply bind_Normal in Hrun as (k & Hk & _);
          unfold Matter.Constraint_create in Hk;
          apply bind_Normal in Hk as (a & Ha & Hk);
          apply bind_Normal in Hk as (b & Hb & Hk);
          cbn [Matter.o_bodyB] in Hb; apply endBody_Normal in Hb;
          (destruct bodyB as [|id|key]; [discriminate|eauto|destruct Hb]). }
      destruct Hreal as (id & ->).
      rewrite (bool_decide_eq_true_2 (is_Some (Some id)))
        by (eexists; reflexivity).
      destruct (truthy pivotBody);
        apply bind_Normal in Hrun as (k & Hk & Hrun); injection Hrun as <-;
        sim; rewrite length_app; repeat split.
    + injection Hrun as <-.
      destruct bodyB as [|id|key]; try discriminate.
      rewrite (bool_decide_eq_false_2 (is_Some (@None nat)))
        by (intros [? ?]; discriminate).
      sim. rewrite Nat.add_0_r, app_nil_r. repeat split.
Qed.

Lemma realized_same st st' c :
  bodiesMap st' = bodiesMap st -> bodiesProto st' = bodiesProto st ->
  realized st' c = realized st c.
Proof.
  intros Hm Hp. unfold realized, lookupBody, getBody. rewrite Hm, Hp. reflexivity.
Qed.

Lemma constraints_fold_realized sx sy (entries : list (nat * Scene.Constraint)) :
  forall st st',
  forEach (buildConstraint sx sy) entries st = Normal st' ->
  let k := length (List.filter (realized st) (map snd entries)) in
  bodiesMap st' = bodiesMap st
  /\ bodiesProto st' = bodiesProto st
  /\ length (joints st') = (length (joints st) + k)%nat
  /\ world_constraints st' = world_constraints st ++ seq (length (joints st)) k.
Proof.
  induction entries as [|[idx c] entries IH]; intros st st' Hrun; cbv zeta.
  - injection Hrun as <-. simpl. rewrite Nat.add_0_r, app_nil_r. repeat split.
  - rewrite forEach_cons in Hrun. apply bind_Normal in Hrun as (st1 & H1 & Hrest).
    cbn [map snd List.filter].
    destruct (buildConstraint_realized sx sy st idx c st1 H1)
      as (Hm1 & Hp1 & Hj1 & Hw1).
    destruct (IH st1 st' Hrest) as (Hm2 & Hp2 & Hj2 & Hw2).
    rewrite Hm2, Hp2, Hj2, Hw2, Hm1, Hp1, Hj1, Hw1.
    rewrite (List.filter_ext (realized st1) (realized st))
      by (intros c'; apply realized_same; assumption).
    destruct (realized st c); cbn [length seq].
    + rewrite <- app_assoc. cbn [app].
      replace (length (joints st) + 1)%nat with (S (length (joints st))) by lia.
      repeat split; lia.
    + rewrite Nat.add_0_r, app_nil_r. repeat split.
Qed.

Lemma snd_combine_seq {A} (l : list A) :
  forall n, map snd (combine (seq n (length l)) l) = l.
Proof.
  induction l as [|a l IH]; intros n; simpl; [reflexivity|].
  f_equal. apply IH.
Qed.

(** X18. When the constraint loop completes, exactly those of the constraints
    given that are spring systems or whose subject resolves to a registered
    body are realized, one backend constraint each, added to the world in
    the order given; the others add nothing.  (The loop does not complete
    when an end of a constraint is found under a key of [Object.prototype]:
    [Constraint.create] throws.) *)
Theorem constraints_realized (sx sy : Q) (constraints : list Scene.Constraint)
    (st st' : Sim) :
  buildConstraints sx sy constraints st = Normal st' ->
  let k := length (List.filter (realized st) constraints) in
  length (joints st') = (length (joints st) + k)%nat
  /\ world_constraints st' = world_constraints st ++ seq (length (joints st)) k
  /\ bodiesMap st' = bodiesMap st.
Proof.
  unfold buildConstraints.
  destruct (0 <? length constraints)%nat eqn:Hany.
  - cbv zeta. intros Hrun. apply bind_Normal in Hrun as (st1 & Hloop & Hdone).
    injection Hdone as <-.
    apply constraints_fold_realized in Hloop as (Hm & _ & Hj & Hw).
    cbv zeta in Hj, Hw. rewrite snd_combine_seq in Hj, Hw.
    rewrite (List.filter_ext (realized (log _ st)) (realized st)) in Hj, Hw
      by (intros c'; apply realized_same; reflexivity).
    sim. rewrite Hj, Hw, Hm. repeat split.
  - intros [= <-]. apply Nat.ltb_ge in Hany.
    destruct constraints; [|simpl in Hany; lia].
    simpl. rewrite Nat.add_0_r, app_nil_r. repeat split.
Qed.

(** A pendulum on [ball], one on a body that does not exist, and a spring
    between two world points. *)
Lemma constraints_realized_witness :
  let st := processObject 1 1 emptySim ball in
  let spring :=
    {| Scene.bodyName := Absent; Scene.pivotName := Absent;
       Scene.pivotPoint := Some (Pt 10 10); Scene.secondPivotName := Absent;
       Scene.secondPivotPoint := Some (Pt 50 10);
       Scene.springType := Some "constraint"; Scene.constraintType := None;
       Scene.stiffness := None; Scene.damping := None; Scene.length_ := None;
       Scene.springLength := Some 40 |} in
  let constraints :=
    [pendulumOn "ball" Absent (Pt 100 50); pendulumOn "ghost" Absent (Pt 0 0);
     spring] in
  exists st',
    buildConstraints 1 1 constraints st = Normal st'
    /\ List.filter (realized st) constraints
       = [pendulumOn "ball" Absent (Pt 100 50); spring]
    /\ world_constraints st' = [0; 1]%nat.
Proof.
  intros st spring constraints.
  eexists. split; [vm_compute; reflexivity|]. split; [reflexivity|].
  match goal with
  | |- world_constraints ?st' = _ =>
      destruct (constraints_realized 1 1 constraints st st')
        as (_ & Hworld & _); [vm_compute; reflexivity|]
  end.
  rewrite Hworld. reflexivity.
Defined.

(** * Properties of drawMask.js *)

(** The points a sequence of path operations goes through. *)
Definition pathPoints (ops : list Canvas2D.Op) : list Point :=
  omap (fun op => match op with
                  | Canvas2D.MoveTo px py => Some (Pt px py)
                  | Canvas2D.LineTo px py => Some (Pt px py)
                  | _ => None
                  end) ops.

Lemma lineTo_fold (points : list Point) (indices : list nat) :
  forall ctx,
  let ctx' :=
    fold_left
      (fun ctx i =>
         Canvas2D.issue (Canvas2D.LineTo (x (at_ points i)) (y (at_ points i))) ctx)
      indices ctx in
  Canvas2D.style ctx' = Canvas2D.style ctx
  /\ Canvas2D.saved ctx' = Canvas2D.saved ctx
  /\ Canvas2D.ops ctx'
     = Canvas2D.ops ctx
       ++ map (fun i => Canvas2D.LineTo (x (at_ points i)) (y (at_ points i))) indices.
Proof.
  induction indices as [|i indices IH]; intros ctx; cbv zeta; simpl.
  - rewrite app_nil_r. repeat split.
  - destruct (IH (Canvas2D.issue
                    (Canvas2D.LineTo (x (at_ points i)) (y (at_ points i))) ctx))
      as (Hs & Hv & Ho).
    rewrite Hs, Hv, Ho. simpl. rewrite <- app_assoc. repeat split.
Qed.

Lemma at_indices (points : list Point) :
  forall n, map (fun i => Pt (x (at_ points i)) (y (at_ points i)))
              (seq n (length points - n))
            = drop n points.
Proof.
  intros n.
  apply (nth_ext _ _ origin origin).
  - rewrite length_map, length_seq, length_drop. reflexivity.
  - intros i Hi. rewrite length_map, length_seq in Hi.
    rewrite (nth_indep _ _ (Pt (x (at_ points 0)) (y (at_ points 0))))
      by (rewrite length_map, length_seq; exact Hi).
    rewrite (map_nth (fun i => Pt (x (at_ points i)) (y (at_ points i)))).
    rewrite seq_nth by exact Hi.
    unfold at_. destruct (nth (n + i) points origin) eqn:Hp. simpl.
    rewrite <- Hp. symmetry.
    rewrite <- (take_drop n points) at 2.
    rewrite app_nth2 by (rewrite length_take; lia).
    rewrite length_take. f_equal. lia.
Qed.

(** X22. Drawing a contour never leaks its highlight style: the context's style
    and its save stack are what they were.  Nothing is drawn without a
    context or for an empty or missing list; otherwise the path that is
    stroked begins a new path, goes through the points in the order given
    and is closed. *)
Theorem drawContour_path (ctx : Canvas2D.Context) (points : list Point) :
  exists ctx' stroke,
    drawContour (Some ctx) (Some points) = Some ctx'
    /\ Canvas2D.style ctx' = Canvas2D.style ctx
    /\ Canvas2D.saved ctx' = Canvas2D.saved ctx
    /\ drawContour None (Some points) = None
    /\ drawContour (Some ctx) None = Some ctx
    /\ (points = [] -> ctx' = ctx)
    /\ (points <> [] ->
        exists path,
          Canvas2D.ops ctx'
          = Canvas2D.ops ctx ++ [Canvas2D.BeginPath] ++ path
            ++ [Canvas2D.ClosePath; Canvas2D.Stroke stroke]
          /\ pathPoints path = points
          /\ Canvas2D.strokeStyle stroke = "#2b6ef2").
Proof.
  destruct points as [|p0 rest].
  - exists ctx, (Canvas2D.style ctx). simpl. repeat split; congruence.
  - unfold drawContour.
    replace (length (p0 :: rest) =? 0)%nat with false by reflexivity.
    cbv zeta.
    match goal with
    | |- context [fold_left ?f ?l ?c] =>
        destruct (lineTo_fold (p0 :: rest) l c) as (Hs & Hv & Ho)
    end.
    cbv zeta in Hs, Hv, Ho. revert Hs Hv Ho.
    match goal with
    | |- context [fold_left ?f ?l ?c] => generalize (fold_left f l c)
    end.
    intros folded Hs Hv Ho.
    cbn [Canvas2D.saved Canvas2D.style Canvas2D.ops Canvas2D.save Canvas2D.setStyle
           Canvas2D.issue] in Hs, Hv, Ho.
    eexists _, _. split; [reflexivity|].
    unfold Canvas2D.restore, Canvas2D.issue.
    cbn [Canvas2D.saved Canvas2D.style Canvas2D.ops]. rewrite Hv.
    cbn [Canvas2D.saved Canvas2D.style Canvas2D.ops].
    split; [reflexivity|]. split; [reflexivity|]. split; [reflexivity|].
    split; [reflexivity|]. split; [discriminate|].
    intros _.
    exists (Canvas2D.MoveTo (x p0) (y p0)
            :: map (fun i => Canvas2D.LineTo (x (at_ (p0 :: rest) i))
                               (y (at_ (p0 :: rest) i)))
                 (seq 1 (length (p0 :: rest) - 1))).
    split.
    + rewrite Ho, <- !app_assoc. reflexivity.
    + split; [|rewrite Hs; reflexivity].
      unfold pathPoints. cbn [omap list_omap at_ nth].
      destruct p0 as [px py]. cbn [x y]. f_equal.
      transitivity (map (fun i => Pt (x (at_ (Pt px py :: rest) i))
                                      (y (at_ (Pt px py :: rest) i)))
                        (seq 1 (length (Pt px py :: rest) - 1))).
      * generalize (seq 1 (length (Pt px py :: rest) - 1)).
        induction l as [|i l IH]; [reflexivity|]. cbn [map omap list_omap].
        f_equal. exact IH.
      * apply (at_indices (Pt px py :: rest) 1).
Qed.

(** X23. Drawing the drag rectangle strokes the rectangle with corners
    (x1, y1) and (x2, y2) in the dashed style and leaves the context's
    style and save stack as they were; without a context nothing happens. *)
Theorem drawDragRect_balanced (ctx : Canvas2D.Context) (x1 y1 x2 y2 : Q) :
  drawDragRect None x1 y1 x2 y2 = None
  /\ exists ctx' w h stroke,
       drawDragRect (Some ctx) x1 y1 x2 y2 = Some ctx'
       /\ Canvas2D.style ctx' = Canvas2D.style ctx
       /\ Canvas2D.saved ctx' = Canvas2D.saved ctx
       /\ Canvas2D.ops ctx' = Canvas2D.ops ctx ++ [Canvas2D.StrokeRect x1 y1 w h stroke]
       /\ x1 + w == x2 /\ y1 + h == y2
       /\ Canvas2D.lineDash stroke = [6; 6].
Proof.
  split; [reflexivity|].
  eexists _, _, _, _. split; [reflexivity|].
  cbn. repeat split; ring.
Qed.

(** * The world that [runSimulation] builds *)

(** The bodies in the world: those added directly and the members of the
    composites. *)
Definition inWorld (st : Sim) : list nat :=
  world_bodies st ++ concat (map snd (world_composites st)).

(** One end of a constraint: a body that exists, or else a world point. *)
Definition endSound (n : nat) (body : option nat) (point : option Point) : Prop :=
  match body with
  | Some b => (b < n)%nat /\ point = None
  | None => is_Some point
  end.

Definition jointSound (n : nat) (k : Matter.Constraint) : Prop :=
  endSound n (Matter.bodyA k) (Matter.pointA k)
  /\ endSound n (Matter.bodyB k) (Matter.pointB k).

(** What a launcher's listener captured exists. *)
Definition listenerSound (n m : nat) (l : Listener) : Prop :=
  (reducedBody l < n)%nat /\ (springConstraint l < m)%nat
  /\ forall b, secondBody l = IsBody b -> (b < n)%nat.

(** The name table leads to bodies that exist: its own entries and the
    body an object named [__proto__] left as its prototype. *)
Definition namesInRange (st : Sim) : Prop :=
  (forall name b, bodiesMap st !! name = Some b -> (b < length (bodies st))%nat)
  /\ (forall b, bodiesProto st = Some b -> (b < length (bodies st))%nat).

Definition worldSound (st : Sim) : Prop :=
  inWorld st ≡ₚ seq 0 (length (bodies st))
  /\ world_constraints st = seq 0 (length (joints st))
  /\ Forall (jointSound (length (bodies st))) (joints st)
  /\ Forall (listenerSound (length (bodies st)) (length (joints st)))
       (collisionStart st)
  /\ namesInRange st.

(** What one step of the construction adds. *)
Definition worldStep (st st' : Sim) : Prop :=
  exists nb nj ls,
    length (bodies st') = (length (bodies st) + nb)%nat
    /\ inWorld st' ≡ₚ inWorld st ++ seq (length (bodies st)) nb
    /\ joints st' = joints st ++ nj
    /\ world_constraints st'
       = world_constraints st ++ seq (length (joints st)) (length nj)
    /\ Forall (jointSound (length (bodies st'))) nj
    /\ collisionStart st' = collisionStart st ++ ls
    /\ Forall (listenerSound (length (bodies st')) (length (joints st'))) ls
    /\ namesInRange st'.

Lemma endSound_mono n n' body point :
  (n <= n')%nat -> endSound n body point -> endSound n' body point.
Proof.
  unfold endSound. destruct body as [b|]; [|auto].
  intros Hle [Hlt Hp]. split; [lia|exact Hp].
Qed.

Lemma jointSound_mono n n' k : (n <= n')%nat -> jointSound n k -> jointSound n' k.
Proof. intros Hle [Ha Hb]. split; eapply endSound_mono; eassumption. Qed.

Lemma listenerSound_mono n n' m m' l :
  (n <= n')%nat -> (m <= m')%nat -> listenerSound n m l -> listenerSound n' m' l.
Proof.
  intros Hn Hm (Hr & Hs & Hb). split; [lia|]. split; [lia|].
  intros b Hsec. specialize (Hb b Hsec). lia.
Qed.

Lemma worldStep_sound st st' : worldSound st -> worldStep st st' -> worldSound st'.
Proof.
  intros (Hw & Hc & Hj & Hl & Hn)
         (nb & nj & ls & Hlen & Hw' & Hj' & Hc' & Hnj & Hl' & Hls & Hn').
  split; [|split; [|split; [|split]]].
  - rewrite Hw', Hw, Hlen, seq_app. reflexivity.
  - rewrite Hc', Hc, Hj', length_app, seq_app. reflexivity.
  - rewrite Hj'. apply Forall_app. split; [|exact Hnj].
    eapply Forall_impl; [exact Hj|]. intros k. apply jointSound_mono. lia.
  - rewrite Hl'. apply Forall_app. split; [|exact Hls].
    eapply Forall_impl; [exact Hl|]. intros l.
    apply listenerSound_mono; [lia|]. rewrite Hj', length_app. lia.
  - exact Hn'.
Qed.

(** A step that only creates bodies. *)
Lemma worldStep_bodies st st' nb :
  length (bodies st') = (length (bodies st) + nb)%nat ->
  inWorld st' ≡ₚ inWorld st ++ seq (length (bodies st)) nb ->
  joints st' = joints st -> world_constraints st' = world_constraints st ->
  collisionStart st' = collisionStart st -> namesInRange st' ->
  worldStep st st'.
Proof.
  intros Hlen Hw Hj Hc Hl Hn. exists nb, [], []. simpl. rewrite !app_nil_r.
  split; [assumption|]. split; [assumption|]. split; [assumption|].
  split; [assumption|]. split; [constructor|]. split; [assumption|].
  split; [constructor|assumption].
Qed.

Lemma processObject_world sx sy st obj :
  exists nb,
    length (bodies (processObject sx sy st obj)) = (length (bodies st) + nb)%nat
    /\ inWorld (processObject sx sy st obj)
       ≡ₚ inWorld st ++ seq (length (bodies st)) nb.
Proof.
  assert (Hnone : forall st', bodies st' = bodies st ->
                     world_bodies st' = world_bodies st ->
                     world_composites st' = world_composites st ->
                     exists nb,
                       length (bodies st') = (length (bodies st) + nb)%nat
                       /\ inWorld st' ≡ₚ inWorld st ++ seq (length (bodies st)) nb).
  { intros st' Hb Hw Hc. exists 0%nat. unfold inWorld. rewrite Hb, Hw, Hc.
    simpl. rewrite app_nil_r. split; [lia|reflexivity]. }
  assert (Hone : forall st' b, bodies st' = bodies st ++ [b] ->
                     world_bodies st' = world_bodies st ++ [length (bodies st)] ->
                     world_composites st' = world_composites st ->
                     exists nb,
                       length (bodies st') = (length (bodies st) + nb)%nat
                       /\ inWorld st' ≡ₚ inWorld st ++ seq (length (bodies st)) nb).
  { intros st' b Hb Hw Hc. exists 1%nat. unfold inWorld. rewrite Hb, Hw, Hc.
    rewrite length_app. simpl. split; [reflexivity|].
    rewrite <- !app_assoc. apply Permutation_app_head, Permutation_app_comm. }
  unfold processObject.
  destruct (bool_decide (Scene.role obj = "constraint")).
  { apply Hnone; reflexivity. }
  set (raw := default [] (Scene.contour obj)).
  destruct (length raw <? 3)%nat; [apply Hnone; reflexivity|].
  set (scaled := scaleContour sx sy raw).
  set (processed := preprocessContour scaled).
  destruct (length processed <? 3)%nat; [apply Hnone; reflexivity|].
  set (isStatic := bool_decide (Scene.role obj = "static")).
  set (st1 := if isStatic then upd_hasStatic (fun _ => true) st else st).
  assert (Hst1 : bodies st1 = bodies st /\ world_bodies st1 = world_bodies st
                 /\ world_composites st1 = world_composites st)
    by (unfold st1; destruct isStatic; repeat split).
  destruct Hst1 as (Hb1 & Hw1 & Hc1).
  destruct (Scene.is_concave obj); cbn [negb].
  - destruct isStatic.
    + destruct (length (decomposeToTriangleFan processed) =? 0)%nat.
      * destruct (createConvexHullBody_effect processed obj true
                    (nullish (Scene.friction_coefficient (Scene.parameters obj)) 0.2)
                    (nullish (Scene.air_drag (Scene.parameters obj)) 0)
                    (nullish (Scene.restitution (Scene.parameters obj)) 0) sx sy
                    (log ("[物理引擎] 三角形分解失败，回退到凸包: "
                          +:+ strOr (Scene.name obj) "未命名") st1))
          as (body & _ & Heq).
        rewrite Heq. apply (Hone _ body); sim; congruence.
      * destruct (fold_addTriangle
                    (nullish (Scene.friction_coefficient (Scene.parameters obj)) 0.2)
                    (nullish (Scene.restitution (Scene.parameters obj)) 0)
                    (decomposeToTriangleFan processed) [] st1)
          as (newBodies & Hlen & _ & Heq).
        rewrite Heq. exists (length (decomposeToTriangleFan processed)).
        unfold inWorld. sim. rewrite Hb1, Hw1, Hc1, length_app, Hlen.
        split; [reflexivity|].
        rewrite map_app, concat_app. simpl. rewrite app_nil_r, app_assoc.
        reflexivity.
    + destruct (createConvexHullBody_effect processed obj false
                  (nullish (Scene.friction_coefficient (Scene.parameters obj)) 0.2)
                  (nullish (Scene.air_drag (Scene.parameters obj)) 0)
                  (nullish (Scene.restitution (Scene.parameters obj)) 0) sx sy
                  (log ("[物理引擎] 动态凹面体使用凸包近似: "
                        +:+ strOr (Scene.name obj) "未命名") st1))
        as (body & _ & Heq).
      rewrite Heq. apply (Hone _ body); sim; congruence.
  - unfold Bodies_fromVertices.
    match goal with
    | |- context [newBody ?b st1] => set (body := b)
    end.
    unfold newBody. rewrite register_normal.
    destruct (isStatic && _).
    + apply (Hone _ (Matter.setLabel body "conveyor")); sim;
        [rewrite relabel_last|..]; congruence.
    + apply (Hone _ body); sim; congruence.
Qed.

Lemma namesInRange_grow st st' n :
  namesInRange st -> length (bodies st') = (length (bodies st) + n)%nat ->
  bodiesMap st' = bodiesMap st -> bodiesProto st' = bodiesProto st ->
  namesInRange st'.
Proof.
  intros [Hm Hp] Hlen Hmap Hproto. unfold namesInRange.
  rewrite Hlen, Hmap, Hproto.
  split; [intros name b Hlook; specialize (Hm name b Hlook)
         |intros b Hb; specialize (Hp b Hb)]; lia.
Qed.

(** The prototype of the name table after an object: as before, or the body
    just created. *)
Lemma processObject_prototype sx sy st obj :
  bodiesProto (processObject sx sy st obj) = bodiesProto st
  \/ bodiesProto (processObject sx sy st obj) = Some (length (bodies st)).
Proof.
  unfold processObject.
  destruct (bool_decide (Scene.role obj = "constraint")); [left; reflexivity|].
  set (raw := default [] (Scene.contour obj)).
  destruct (length raw <? 3)%nat; [left; reflexivity|].
  set (scaled := scaleContour sx sy raw).
  set (processed := preprocessContour scaled).
  destruct (length processed <? 3)%nat; [left; reflexivity|].
  set (isStatic := bool_decide (Scene.role obj = "static")).
  set (st1 := if isStatic then upd_hasStatic (fun _ => true) st else st).
  assert (Hp1 : bodiesProto st1 = bodiesProto st /\ bodies st1 = bodies st)
    by (unfold st1; destruct isStatic; split; reflexivity).
  destruct Hp1 as [Hp1 Hb1].
  destruct (Scene.is_concave obj); cbn [negb].
  - left. destruct isStatic.
    + destruct (length (decomposeToTriangleFan processed) =? 0)%nat.
      * destruct (createConvexHullBody_effect processed obj true
                    (nullish (Scene.friction_coefficient (Scene.parameters obj)) 0.2)
                    (nullish (Scene.air_drag (Scene.parameters obj)) 0)
                    (nullish (Scene.restitution (Scene.parameters obj)) 0) sx sy
                    (log ("[物理引擎] 三角形分解失败，回退到凸包: "
                          +:+ strOr (Scene.name obj) "未命名") st1))
          as (body & _ & Heq).
        rewrite Heq. sim. exact Hp1.
      * destruct (fold_addTriangle
                    (nullish (Scene.friction_coefficient (Scene.parameters obj)) 0.2)
                    (nullish (Scene.restitution (Scene.parameters obj)) 0)
                    (decomposeToTriangleFan processed) [] st1)
          as (newBodies & _ & _ & Heq).
        rewrite Heq. sim. exact Hp1.
    + destruct (createConvexHullBody_effect processed obj false
                  (nullish (Scene.friction_coefficient (Scene.parameters obj)) 0.2)
                  (nullish (Scene.air_drag (Scene.parameters obj)) 0)
                  (nullish (Scene.restitution (Scene.parameters obj)) 0) sx sy
                  (log ("[物理引擎] 动态凹面体使用凸包近似: "
                        +:+ strOr (Scene.name obj) "未命名") st1))
        as (body & _ & Heq).
      rewrite Heq. sim. exact Hp1.
  - unfold Bodies_fromVertices, newBody. rewrite register_normal.
    destruct (isStatic && _); sim;
      (destruct (bool_decide (_ = "__proto__"));
       [right; rewrite Hb1; reflexivity|left; exact Hp1]).
Qed.

Lemma processObject_step sx sy st obj :
  namesInRange st -> worldStep st (processObject sx sy st obj).
Proof.
  intros [Hn Hp].
  destruct (processObject_world sx sy st obj) as (nb & Hlen & Hw).
  destruct (processObject_effect sx sy st obj)
    as (newBodies & Hb & _ & _ & (_ & Hj & Hc & Hl & _) & _ & Hsome & _ & Hm).
  apply (worldStep_bodies _ _ nb); try assumption.
  split.
  - intros name b Hlook. rewrite Hlen.
    destruct Hm as [Hm|(name' & b' & Hnew & Hm)]; rewrite Hm in Hlook.
    + specialize (Hn name b Hlook). lia.
    + assert (Hnb : nb = 1%nat).
      { rewrite Hb, Hnew, length_app in Hlen. simpl in Hlen. lia. }
      apply lookup_insert_Some in Hlook as [[_ <-]|[_ Hlook]]; [lia|].
      specialize (Hn name b Hlook). lia.
  - intros b Hproto.
    destruct (processObject_prototype sx sy st obj) as [Heq|Heq].
    + rewrite Heq in Hproto. specialize (Hp b Hproto). lia.
    + destruct (decide (nb = 0%nat)) as [->|Hnb].
      * assert (Hnil : newBodies = []).
        { rewrite Hb, length_app in Hlen. destruct newBodies; [reflexivity|].
          simpl in Hlen. lia. }
        assert (Hsame : bodiesProto (processObject sx sy st obj) = bodiesProto st).
        { revert Hnil Hb. clear. intros Hnil Hb.
          destruct (decide (Scene.role obj = "constraint")) as [Hrole|Hrole].
          - unfold processObject. rewrite bool_decide_eq_true_2 by exact Hrole.
            reflexivity.
          - destruct (processObject_effect sx sy st obj)
              as (newBodies' & Hb' & _ & _ & _ & _ & Hsome & Hfew & _).
            destruct (le_lt_dec 3 (length (default [] (Scene.contour obj))))
              as [Hlen|Hlen].
            + specialize (Hsome Hrole Hlen). rewrite Hb in Hb'.
              apply app_inv_head in Hb'. subst. congruence.
            + rewrite (Hfew Hrole Hlen). reflexivity. }
        rewrite Hsame in Hproto. specialize (Hp b Hproto). lia.
      * rewrite Heq in Hproto. injection Hproto as <-. lia.
Qed.

Lemma getBody_range st key b :
  namesInRange st -> getBody st key = Normal (IsBody b) ->
  (b < length (bodies st))%nat.
Proof.
  intros [Hm Hp]. unfold getBody.
  destruct (bodiesMap st !! toString key) as [id|] eqn:Hlook.
  - intros [= <-]. eapply Hm, Hlook.
  - destruct (bodiesProto st) as [proto|] eqn:Hproto.
    + destruct (bool_decide _); [|discriminate]. intros [= <-].
      apply Hp. reflexivity.
    + destruct (bool_decide _); discriminate.
Qed.

Lemma endFrom_sound st body point :
  namesInRange st -> endFrom st body point ->
  endSound (length (bodies st)) body point.
Proof.
  intros Hn. unfold endFrom, endSound. destruct body as [b|]; [|exact id].
  intros (Hp & key & Hget). split; [eapply getBody_range; eassumption|exact Hp].
Qed.

(** A step that adds one constraint between bodies that exist. *)
Lemma worldStep_joint st st' k :
  namesInRange st -> jointSound (length (bodies st)) k ->
  bodies st' = bodies st -> bodiesMap st' = bodiesMap st ->
  bodiesProto st' = bodiesProto st ->
  world_bodies st' = world_bodies st ->
  world_composites st' = world_composites st ->
  joints st' = joints st ++ [k] ->
  world_constraints st' = world_constraints st ++ [length (joints st)] ->
  collisionStart st' = collisionStart st ->
  worldStep st st'.
Proof.
  intros Hn Hk Hb Hm Hp Hw Hc Hj Hwc Hl. exists 0%nat, [k], [].
  unfold inWorld, namesInRange. rewrite Hb, Hm, Hp, Hw, Hc, Hj, Hwc, Hl. simpl.
  rewrite !app_nil_r.
  split; [lia|]. split; [reflexivity|]. split; [reflexivity|].
  split; [reflexivity|]. split; [constructor; [exact Hk|constructor]|].
  split; [reflexivity|]. split; [constructor|exact Hn].
Qed.

Lemma buildConstraint_step sx sy st entry st' :
  namesInRange st -> buildConstraint sx sy st entry = Normal st' ->
  worldStep st st'.
Proof.
  intros Hn Hrun. destruct entry as [idx c].
  apply buildConstraint_normal in Hrun
    as [Heq|[(k & Heq & Ha & Hb)
            |(k & slug & second & Heq & Ha & Hb & Hpb & _ & _ & _ & Hsecond)]].
  - assert (Hsame : bodies st' = bodies st /\ bodiesMap st' = bodiesMap st
                    /\ bodiesProto st' = bodiesProto st
                    /\ world_bodies st' = world_bodies st
                    /\ world_composites st' = world_composites st
                    /\ joints st' = joints st
                    /\ world_constraints st' = world_constraints st
                    /\ collisionStart st' = collisionStart st)
      by (rewrite Heq; sim; repeat split).
    destruct Hsame as (Hb & Hm & Hp & Hw & Hc & Hj & Hwc & Hl).
    apply (worldStep_bodies _ _ 0); try assumption.
    + rewrite Hb. lia.
    + unfold inWorld. rewrite Hw, Hc. simpl. rewrite app_nil_r. reflexivity.
    + apply (namesInRange_grow st st' 0 Hn); [rewrite Hb; lia|assumption..].
  - assert (Hsame : bodies st' = bodies st /\ bodiesMap st' = bodiesMap st
                    /\ bodiesProto st' = bodiesProto st
                    /\ world_bodies st' = world_bodies st
                    /\ world_composites st' = world_composites st
                    /\ joints st' = joints st ++ [k]
                    /\ world_constraints st'
                       = world_constraints st ++ [length (joints st)]
                    /\ collisionStart st' = collisionStart st)
      by (rewrite Heq; sim; repeat split).
    destruct Hsame as (Hb' & Hm & Hp & Hw & Hc & Hj & Hwc & Hl).
    apply (worldStep_joint st st' k); try assumption.
    split; apply endFrom_sound; assumption.
  - assert (Hsame : bodies st' = bodies st ++ [slug]
                    /\ bodiesMap st' = bodiesMap st
                    /\ bodiesProto st' = bodiesProto st
                    /\ world_bodies st' = world_bodies st ++ [length (bodies st)]
                    /\ world_composites st' = world_composites st
                    /\ joints st' = joints st ++ [k]
                    /\ world_constraints st'
                       = world_constraints st ++ [length (joints st)]
                    /\ collisionStart st'
                       = collisionStart st
                         ++ [{| secondBody := second;
                                reducedBody := length (bodies st);
                                springConstraint := length (joints st) |}])
      by (rewrite Heq; sim; repeat split).
    destruct Hsame as (Hb' & Hm & Hp & Hw & Hc & Hj & Hwc & Hl).
    eexists 1%nat, [k], [_]. unfold inWorld.
    rewrite Hb', Hw, Hc, Hj, Hwc, Hl, !length_app. simpl.
    split; [reflexivity|]. split.
    { rewrite <- !app_assoc. apply Permutation_app_head, Permutation_app_comm. }
    split; [reflexivity|]. split; [reflexivity|]. split.
    { constructor; [|constructor]. split.
      - eapply endSound_mono; [|apply endFrom_sound; eassumption]. lia.
      - rewrite Hb, Hpb. simpl. split; [lia|reflexivity]. }
    split; [reflexivity|]. split.
    { constructor; [|constructor]. split; [simpl; lia|]. split; [simpl; lia|].
      simpl. intros b ->. pose proof (getBody_range _ _ _ Hn Hsecond). lia. }
    apply (namesInRange_grow st st' 1 Hn); [rewrite Hb', length_app; reflexivity
                                           |assumption..].
Qed.

(** A step that leaves the world and the tables alone. *)
Lemma worldSound_same st st' :
  bodies st' = bodies st -> joints st' = joints st ->
  world_bodies st' = world_bodies st ->
  world_constraints st' = world_constraints st ->
  world_composites st' = world_composites st ->
  collisionStart st' = collisionStart st -> bodiesMap st' = bodiesMap st ->
  bodiesProto st' = bodiesProto st ->
  worldSound st -> worldSound st'.
Proof.
  intros Hb Hj Hw Hc Hcomp Hl Hm Hp.
  unfold worldSound, inWorld, namesInRange.
  rewrite Hb, Hj, Hw, Hc, Hcomp, Hl, Hm, Hp. exact id.
Qed.

Lemma objects_world sx sy (objects : list Scene.Object) :
  forall st, worldSound st -> worldSound (fold_left (processObject sx sy) objects st).
Proof.
  induction objects as [|obj objects IH]; intros st Hst; simpl; [exact Hst|].
  apply IH. eapply worldStep_sound; [exact Hst|].
  apply processObject_step, Hst.
Qed.

Lemma constraints_world sx sy (entries : list (nat * Scene.Constraint)) :
  forall st st',
  forEach (buildConstraint sx sy) entries st = Normal st' ->
  worldSound st -> worldSound st'.
Proof.
  induction entries as [|entry entries IH]; intros st st' Hrun Hst.
  - simpl in Hrun. injection Hrun as <-. exact Hst.
  - rewrite forEach_cons in Hrun.
    apply bind_Normal in Hrun as (st1 & H1 & Hrest).
    apply (IH st1 st' Hrest). eapply worldStep_sound; [exact Hst|].
    eapply buildConstraint_step; [apply Hst|exact H1].
Qed.

Lemma buildConstraints_world sx sy constraints st st' :
  buildConstraints sx sy constraints st = Normal st' ->
  worldSound st -> worldSound st'.
Proof.
  unfold buildConstraints.
  destruct (0 <? length constraints)%nat; [|intros [= <-]; exact id].
  cbv zeta. intros Hrun Hst.
  apply bind_Normal in Hrun as (st1 & Hloop & Hdone). injection Hdone as <-.
  apply constraints_world in Hloop;
    [|eapply worldSound_same; [..|exact Hst]; reflexivity].
  eapply worldSound_same; [..|exact Hloop]; reflexivity.
Qed.

Lemma addWalls_world width height st :
  worldSound st -> worldSound (addWalls width height st).
Proof.
  intros Hst. eapply worldStep_sound; [exact Hst|].
  destruct (addWalls_effect width height st) as (Hb & _ & Hm & Hw).
  assert (Hrest : joints (addWalls width height st) = joints st
                  /\ world_constraints (addWalls width height st)
                     = world_constraints st
                  /\ world_composites (addWalls width height st)
                     = world_composites st
                  /\ collisionStart (addWalls width height st) = collisionStart st
                  /\ bodiesProto (addWalls width height st) = bodiesProto st)
    by (unfold addWalls, boundaryWalls; simpl fold_left; sim; repeat split).
  destruct Hrest as (Hj & Hc & Hcomp & Hl & Hp).
  apply (worldStep_bodies _ _ 4); try assumption.
  - rewrite Hb, length_app. reflexivity.
  - unfold inWorld. rewrite Hw, Hcomp, <- !app_assoc.
    apply Permutation_app_head, Permutation_app_comm.
  - destruct Hst as (_ & _ & _ & _ & Hn).
    apply (namesInRange_grow st _ 4 Hn); [rewrite Hb, length_app; reflexivity
                                         |assumption..].
Qed.

Lemma startSimulation_world width height objects constraints scene :
  worldSound scene ->
  worldSound (fst (startSimulation width height objects constraints scene)).
Proof.
  intros Hscene. unfold startSimulation. cbn [fst].
  assert (Hfinal : worldSound
            (if negb (hasStatic scene) then addWalls width height scene
             else scene)).
  { destruct (negb (hasStatic scene)); [|exact Hscene].
    apply addWalls_world, Hscene. }
  revert Hfinal.
  generalize (if negb (hasStatic scene) then addWalls width height scene
              else scene).
  intros final Hfinal.
  eapply worldSound_same; [..|exact Hfinal]; reflexivity.
Qed.

(** X19. When [runSimulation] returns, every body it created is in the world
    exactly once, directly or as a member of one composite, and every
    constraint it created is in the world.  Each end of a constraint is a
    body that exists or else a world point, never both and never neither;
    what a launcher's listener captured exists; every name of the table,
    and its prototype when an object named [__proto__] left one, leads to a
    body that exists. *)
Theorem world_sound container objects constraints imageRect naturalSize
    (st : Sim) (handle : SimulationHandle) :
  runSimulation container objects constraints imageRect naturalSize
  = Normal (st, handle) ->
  worldSound st.
Proof.
  intros Hrun. apply runSimulation_Normal in Hrun as (scene & Hscene & Heq).
  change st with (fst (st, handle)). rewrite Heq.
  apply startSimulation_world.
  unfold buildScene in Hscene. cbv zeta in Hscene.
  eapply buildConstraints_world; [exact Hscene|]. apply objects_world.
  unfold createRender, emptySim, worldSound, inWorld, namesInRange. sim. simpl.
  repeat split; try constructor; discriminate.
Qed.

(** A ball on a pendulum, a bowl, and a launcher aimed at the ball. *)
Lemma world_sound_witness :
  exists st handle,
    runSimulation None [ball; bowl]
      [pendulumOn "ball" Absent (Pt 100 50); launcher] None unknownSize
    = Normal (st, handle)
    /\ worldSound st.
Proof.
  eexists _, _. split; [vm_compute; reflexivity|].
  eapply (world_sound None [ball; bowl]
            [pendulumOn "ball" Absent (Pt 100 50); launcher] None unknownSize).
  vm_compute. reflexivity.
Defined.

(** * Contours the sanitizer gives back *)

(** What the bodies of an object are built from: the contour itself, the
    triangles of its fan, or its hull. *)
Definition shapesFor (isConcave isStatic : bool) (contour : list Point)
    : list Matter.Shape :=
  if negb isConcave then [Matter.FromVertices Matter.VerticesCentre contour]
  else if isStatic then
    map (fun tri => Matter.FromVertices (Matter.At (triangleCentroid tri)) tri)
      (decomposeToTriangleFan contour)
  else [Matter.FromVertices Matter.VerticesCentre (toConvexHull contour)].

(** An object that passes the two guards gets its bodies built from what
    the sanitizer returned. *)
Lemma processObject_shapes sx sy st obj :
  Scene.role obj <> "constraint" ->
  (3 <= length (default [] (Scene.contour obj)))%nat ->
  map Matter.shape
    (drop (length (bodies st)) (bodies (processObject sx sy st obj)))
  = shapesFor (Scene.is_concave obj) (bool_decide (Scene.role obj = "static"))
      (preprocessContour (scaleContour sx sy (default [] (Scene.contour obj)))).
Proof.
  intros Hrole Hraw. unfold processObject, shapesFor.
  rewrite bool_decide_eq_false_2 by exact Hrole.
  replace (length (default [] (Scene.contour obj)) <? 3)%nat with false
    by (symmetry; apply Nat.ltb_ge; exact Hraw).
  set (scaled := scaleContour sx sy (default [] (Scene.contour obj))).
  assert (Hscaled : (3 <= length scaled)%nat)
    by (unfold scaled, scaleContour; rewrite length_map; exact Hraw).
  pose proof (preprocessContour_length scaled Hscaled) as Hproc.
  set (processed := preprocessContour scaled) in *.
  replace (length processed <? 3)%nat with false
    by (symmetry; apply Nat.ltb_ge; exact Hproc).
  set (isStatic := bool_decide (Scene.role obj = "static")).
  set (st1 := if isStatic then upd_hasStatic (fun _ => true) st else st).
  assert (Hb1 : bodies st1 = bodies st) by (unfold st1; destruct isStatic; reflexivity).
  destruct (Scene.is_concave obj); cbn [negb].
  - destruct isStatic.
    + assert (Hn : length (decomposeToTriangleFan processed) = length processed)
        by (rewrite (fan_edges processed Hproc), length_map, edges_length;
            reflexivity).
      replace (length (decomposeToTriangleFan processed) =? 0)%nat with false
        by (symmetry; apply Nat.eqb_neq; lia).
      rewrite fold_addTriangle_bodies. sim. rewrite Hb1, drop_app_length.
      rewrite map_map. reflexivity.
    + unfold createConvexHullBody, Bodies_fromVertices, newBody. sim.
      rewrite Hb1, drop_app_length. cbn [map].
      match goal with
      | |- context [applyPhysicsProperties ?b ?o ?c ?s] =>
          destruct (applyPhysicsProperties_kept b o c s) as (-> & _)
      end.
      reflexivity.
  - unfold Bodies_fromVertices, newBody. rewrite register_normal.
    match goal with
    | |- context [applyPhysicsProperties ?b ?o ?c ?s] =>
        pose proof (proj1 (applyPhysicsProperties_kept b o c s)) as Hshape;
        set (body := applyPhysicsProperties b o c s) in *
    end.
    destruct (isStatic && _); sim; rewrite ?relabel_last;
      rewrite Hb1, drop_app_length; cbn [map]; [|rewrite Hshape; reflexivity].
    destruct body. cbn in Hshape |- *. rewrite Hshape. reflexivity.
Qed.

(** C2. The guard on the sanitized contour never fires.  For an object that
    is not a constraint element, with a contour of at least 3 points of
    which the sanitizing walk keeps fewer than 3, [preprocessContour] gives
    the scaled contour back whole, and the object is not skipped: its
    bodies are built from the scaled contour as it stands (the contour
    itself, the triangles of its fan, or its hull) and put in the world. *)
Theorem degenerate_contour (sx sy : Q) (st : Sim) (obj : Scene.Object) :
  Scene.role obj <> "constraint" ->
  let raw := default [] (Scene.contour obj) in
  let scaled := scaleContour sx sy raw in
  let st' := processObject sx sy st obj in
  (3 <= length raw)%nat -> (length (uniquePoints scaled) < 3)%nat ->
  preprocessContour scaled = scaled
  /\ exists newBodies,
       newBodies <> []
       /\ bodies st' = bodies st ++ newBodies
       /\ map Matter.shape newBodies
          = shapesFor (Scene.is_concave obj)
              (bool_decide (Scene.role obj = "static")) scaled
       /\ inWorld st'
          ≡ₚ inWorld st ++ seq (length (bodies st)) (length newBodies).
Proof.
  intros Hrole raw scaled st' Hraw Hfew.
  pose proof (preprocessContour_fallback scaled Hfew) as Hback.
  split; [exact Hback|].
  destruct (processObject_effect sx sy st obj)
    as (newBodies & Hbodies & _ & _ & _ & _ & Hbuilt & _).
  destruct (processObject_world sx sy st obj) as (nb & Hlen & Hworld).
  pose proof (processObject_shapes sx sy st obj Hrole Hraw) as Hshapes.
  fold raw scaled in Hshapes. rewrite Hback in Hshapes.
  fold st' in Hbodies, Hlen, Hworld, Hshapes.
  rewrite Hbodies, drop_app_length in Hshapes.
  exists newBodies. split; [exact (Hbuilt Hrole Hraw)|].
  split; [exact Hbodies|]. split; [exact Hshapes|].
  rewrite Hbodies, length_app in Hlen.
  replace (length newBodies) with nb by lia. exact Hworld.
Qed.

(** The contour of [dot] is three times the point (5, 5): the walk keeps one
    point, and a body is built from the three and put in the world. *)
Lemma degenerate_contour_witness :
  uniquePoints (scaleContour 1 1 [Pt 5 5; Pt 5 5; Pt 5 5]) = [Pt 5 5]
  /\ preprocessContour (scaleContour 1 1 [Pt 5 5; Pt 5 5; Pt 5 5])
     = [Pt 5 5; Pt 5 5; Pt 5 5]
  /\ exists body,
       bodies (processObject 1 1 emptySim dot) = [body]
       /\ Matter.shape body
          = Matter.FromVertices Matter.VerticesCentre [Pt 5 5; Pt 5 5; Pt 5 5]
       /\ inWorld (processObject 1 1 emptySim dot) = [0%nat].
Proof.
  split; [vm_compute; reflexivity|].
  destruct (degenerate_contour 1 1 emptySim dot) as (Hback & newBodies & Hsome & Hbodies & Hshapes & Hworld).
  - simpl. discriminate.
  - simpl. lia.
  - vm_compute. lia.
  - split; [exact Hback|].
    change (bodies emptySim) with (@nil Matter.Body) in Hbodies.
    rewrite app_nil_l in Hbodies.
    destruct newBodies as [|body [|second rest]]; [destruct Hsome; reflexivity| |].
    + exists body. split; [exact Hbodies|].
      split; [injection Hshapes as ->; vm_compute; reflexivity|].
      vm_compute. reflexivity.
    + discriminate Hshapes.
Defined.

(** The call of [runSimulation] with the single object [dot] returns with
    the degenerate body and the four walls in the world. *)
Lemma degenerate_contour_run :
  exists st handle,
    runSimulation None [dot] [] None unknownSize = Normal (st, handle)
    /\ inWorld st = [0; 1; 2; 3; 4]%nat
    /\ console st = ["[物理引擎] 凸多边形创建成功: dot"].
Proof.
  eexists _, _. split; [vm_compute; reflexivity|].
  split; vm_compute; reflexivity.
Qed.

(** * The life of the hook *)

Lemma ticks_stopped (ticks : list (list (nat * nat))) (st : Sim) :
  fold_left (fun st pairs => tick pairs st) ticks (stop st) = stop st.
Proof.
  assert (Hidle : forall pairs s, running s = false -> tick pairs s = s)
    by (intros pairs s Hs; unfold tick; rewrite Hs; reflexivity).
  assert (Hstopped : running (stop st) = false) by reflexivity.
  revert Hstopped. generalize (stop st). intros stopped Hstopped.
  induction ticks as [|pairs ticks IH]; [reflexivity|].
  cbn [fold_left]. rewrite (Hidle pairs stopped Hstopped). exact IH.
Qed.

(** X20. From the return of [runSimulation] every tick of the runner runs the
    conveyor hook.  After [stop()] no tick changes anything, whatever the
    contacts: the world is empty and the canvas is gone.  [stop()] leaves
    the launchers' listeners and the pending timeouts in place. *)
Theorem hook_lifetime container objects constraints imageRect naturalSize
    (sim : Sim) (handle : SimulationHandle) (ticks : list (list (nat * nat))) :
  runSimulation container objects constraints imageRect naturalSize
  = Normal (sim, handle) ->
  (forall pairs, tick pairs sim = onBeforeUpdate pairs sim)
  /\ fold_left (fun st pairs => tick pairs st) ticks (stop sim) = stop sim
  /\ inWorld (stop sim) = [] /\ world_constraints (stop sim) = []
  /\ canvas (stop sim) = None
  /\ collisionStart (stop sim) = collisionStart sim
  /\ timers (stop sim) = timers sim.
Proof.
  intros Hrun. apply runSimulation_Normal in Hrun as (scene & _ & Heq).
  unfold startSimulation in Heq. injection Heq as -> _.
  generalize (if negb (hasStatic scene)
              then addWalls (viewWidth container imageRect)
                     (viewHeight container imageRect) scene
              else scene).
  intros final.
  split; [intros pairs; unfold tick; sim; reflexivity|].
  split; [apply ticks_stopped|repeat split].
Qed.

Lemma hook_lifetime_witness :
  exists sim handle,
    runSimulation None [belt; box] [] None unknownSize = Normal (sim, handle)
    /\ tick [(0, 1)%nat] sim = onBeforeUpdate [(0, 1)%nat] sim
    /\ fold_left (fun st pairs => tick pairs st) [[(0, 1)%nat]; []] (stop sim)
       = stop sim.
Proof.
  eexists _, _. split; [vm_compute; reflexivity|].
  match goal with
  | |- tick _ ?sim = _ /\ _ =>
      destruct (hook_lifetime None [belt; box] [] None unknownSize sim
                  {| summary := "模拟运行中：对象数=2" |} [[(0, 1)%nat]; []])
        as (Htick & Hstop & _); [vm_compute; reflexivity|]
  end.
  split; [apply Htick|exact Hstop].
Defined.

(** * The two centroids *)

(** X21. On a triangle the centroid the triangle bodies are placed at is the
    centroid [calculateCentroid] computes. *)
Theorem triangleCentroid_agrees (a b c : Point) :
  x (triangleCentroid [a; b; c]) == x (calculateCentroid [a; b; c])
  /\ y (triangleCentroid [a; b; c]) == y (calculateCentroid [a; b; c]).
Proof.
  unfold triangleCentroid, calculateCentroid, at_. simpl.
  split; field.
Qed.
